(** * Titan's Pit: the remote transfer and path-resolution engine

    A shallow embedding of the server-side Copyparty client
    ([$lib/server/copyparty]), of the action endpoint
    ([routes/api/files/+server.ts]) and of the upload orchestrator of the
    inventory page, with the properties of the specification stated over
    them. *)

From Stdlib Require Import ZArith List Ascii String PrimFloat Lia.
From Stdlib Require Import DecimalString DecimalNat.
From stdpp Require Import base list gmap.
Import ListNotations.

Set Warnings "-register-all".

Local Open Scope N_scope.

(** ** JavaScript strings

    A JavaScript string is a sequence of UTF-16 code units. *)

Abbreviation jsstring := (list N).

Definition lit (s : string) : jsstring :=
  map N_of_ascii (list_ascii_of_string s).

Definition SLASH : N := 47.
Definition BACKSLASH : N := 92.
Definition DOT : N := 46.

(** [WhiteSpace] and [LineTerminator] code units, as [String.prototype.trim]
    strips them. *)
Definition isWhiteSpace (c : N) : bool :=
  ((9 <=? c) && (c <=? 13)) || (c =? 32) || (c =? 160) || (c =? 5760)
  || ((8192 <=? c) && (c <=? 8202)) || (c =? 8232) || (c =? 8233)
  || (c =? 8239) || (c =? 8287) || (c =? 12288) || (c =? 65279).

Fixpoint trimStart (s : jsstring) : jsstring :=
  match s with
  | [] => []
  | c :: rest => if isWhiteSpace c then trimStart rest else s
  end.

Fixpoint trimEnd (s : jsstring) : jsstring :=
  match s with
  | [] => []
  | c :: rest =>
      match trimEnd rest with
      | [] => if isWhiteSpace c then [] else [c]
      | kept => c :: kept
      end
  end.

Definition trim (s : jsstring) : jsstring := trimEnd (trimStart s).

(** [s.split(sep)] for a separator of one code unit: never an empty array. *)
Fixpoint split (sep : N) (s : jsstring) : list jsstring :=
  match s with
  | [] => [[]]
  | c :: rest =>
      if c =? sep then [] :: split sep rest
      else match split sep rest with
           | piece :: pieces => (c :: piece) :: pieces
           | [] => [[c]]
           end
  end.

(** [parts.join(sep)]. *)
Fixpoint join (sep : jsstring) (parts : list jsstring) : jsstring :=
  match parts with
  | [] => []
  | [x] => x
  | x :: rest => x ++ sep ++ join sep rest
  end.

(** [filter(Boolean)] over an array of strings keeps the non-empty ones. *)
Definition nonEmpty (s : jsstring) : bool :=
  match s with [] => false | _ => true end.

Definition filterBoolean (parts : list jsstring) : list jsstring :=
  List.filter nonEmpty parts.

(** [path.replace(/\\/g, '/')]. *)
Definition replaceBackslashes (s : jsstring) : jsstring :=
  map (fun c => if c =? BACKSLASH then SLASH else c) s.

(** [s.endsWith(suffix)], [s.includes(needle)], [s.lastIndexOf(c)],
    [s.slice(start)] and [s.slice(0, end)]. *)
Fixpoint startsWith (s prefix : jsstring) : bool :=
  match prefix, s with
  | [], _ => true
  | p :: prefix', c :: s' => (c =? p) && startsWith s' prefix'
  | _ :: _, [] => false
  end.

Definition endsWith (s suffix : jsstring) : bool :=
  startsWith (rev s) (rev suffix).

Fixpoint includes (s needle : jsstring) : bool :=
  startsWith s needle
  || match s with
     | [] => false
     | _ :: s' => includes s' needle
     end.

(** The index of the last occurrence of [c] from position [i] on, [-1]
    when there is none. *)
Fixpoint lastIndexFrom (c : N) (s : jsstring) (i : Z) : Z :=
  match s with
  | [] => (-1)%Z
  | d :: rest =>
      let later := lastIndexFrom c rest (i + 1)%Z in
      if (0 <=? later)%Z then later
      else if d =? c then i else (-1)%Z
  end.

Definition lastIndexOf (s : jsstring) (c : N) : Z := lastIndexFrom c s 0%Z.

Definition sliceFrom (s : jsstring) (start : Z) : jsstring :=
  drop (Z.to_nat start) s.

Definition sliceTo (s : jsstring) (stop : Z) : jsstring :=
  take (Z.to_nat stop) s.

(** The decimal text of a natural number, as a template literal prints it. *)
Definition decimal (n : nat) : jsstring :=
  lit (NilZero.string_of_uint (Nat.to_uint n)).

(** [s.replace(/\s+/g, ' ')]: every run of white space becomes one space. *)
Fixpoint collapseWhiteSpace (s : jsstring) : jsstring :=
  match s with
  | [] => []
  | c :: rest =>
      if isWhiteSpace c then
        match rest with
        | d :: _ => if isWhiteSpace d then collapseWhiteSpace rest
                    else 32 :: collapseWhiteSpace rest
        | [] => [32]
        end
      else c :: collapseWhiteSpace rest
  end.

(** Case folding of a regular expression with the [i] flag and without the
    [u] flag, on patterns of ASCII letters: only [A]-[Z] fold. *)
Definition asciiLower (s : jsstring) : jsstring :=
  map (fun c => if (65 <=? c) && (c <=? 90) then c + 32 else c) s.

(** [value ?? fallback] and the truthiness of an optional string. *)
Definition orElse {A} (value : option A) (fallback : A) : A :=
  match value with Some v => v | None => fallback end.

Definition truthy (value : option jsstring) : option jsstring :=
  match value with
  | Some (c :: s) => Some (c :: s)
  | _ => None
  end.

(** ** JavaScript values as [JSON.parse] builds them *)

Inductive JSValue : Type :=
  | JUndefined
  | JNull
  | JBool (b : bool)
  | JNumber (x : float)
  | JString (s : jsstring)
  | JArray (items : list JSValue)
  | JObject (fields : list (jsstring * JSValue)).

Fixpoint lookupField (fields : list (jsstring * JSValue)) (key : jsstring)
  : JSValue :=
  match fields with
  | [] => JUndefined
  | (k, v) :: rest => if bool_decide (k = key) then v else lookupField rest key
  end.

(** [value.key] on a value that is neither [null] nor [undefined]; the
    keys read by the program are not properties of arrays or primitives. *)
Definition getProp (value : JSValue) (key : jsstring) : JSValue :=
  match value with
  | JObject fields => lookupField fields key
  | _ => JUndefined
  end.

(** ** Errors, and computations that issue requests *)

Inductive JSError : Type :=
  | ErrorObject (isDOMException : bool) (name message : jsstring)
  | ThrownValue.

Definition newError (message : jsstring) : JSError :=
  ErrorObject false (lit "Error") message.

Definition typeError (message : jsstring) : JSError :=
  ErrorObject false (lit "TypeError") message.

Inductive Outcome (A : Type) : Type :=
  | Returned (a : A)
  | Thrown (e : JSError).
Arguments Returned {A} a.
Arguments Thrown {A} e.

(** Evaluation of a computation that may throw. *)
Definition bindOutcome {A B} (m : Outcome A) (k : A -> Outcome B) : Outcome B :=
  match m with
  | Returned a => k a
  | Thrown e => Thrown e
  end.

#[global] Instance outcome_ret : MRet Outcome := @Returned.
#[global] Instance outcome_bind : MBind Outcome := fun A B k m => bindOutcome m k.

(** ** The platform

    What the program takes from its host: the WHATWG [URL] class, the
    Unicode case mapping, the URI component coders, [Number.parseInt], the
    [Intl] collator and date formatter. [None] stands for a thrown
    exception ([NaN] for [parseInt10]). *)
Class Platform : Type := {
  URL : Type;
  newURL : jsstring -> option URL;
  newURLWithBase : jsstring -> URL -> option URL;
  url_protocol : URL -> jsstring;
  url_hostname : URL -> jsstring;
  url_host : URL -> jsstring;
  url_pathname : URL -> jsstring;
  url_setPathname : URL -> jsstring -> URL;
  url_setHostname : URL -> jsstring -> URL;
  url_clearSearch : URL -> URL;
  url_clearHash : URL -> URL;
  url_searchParamsSet : URL -> jsstring -> jsstring -> URL;
  url_searchParamsHas : URL -> jsstring -> bool;
  url_toString : URL -> jsstring;
  toLowerCase : jsstring -> jsstring;
  encodeURIComponent : jsstring -> option jsstring;
  decodeURIComponent : jsstring -> option jsstring;
  parseInt10 : jsstring -> option Z;
  collatorCompare : jsstring -> jsstring -> Z;
  formatModified : float -> option jsstring
}.

(** ** Requests and responses *)

(** A header list is keyed by the lower-case header name, as [Headers] is. *)
Record Request `{Platform} : Type := {
  req_method : jsstring;
  req_url : URL;
  req_headers : gmap jsstring jsstring;
  req_timeoutMs : Z
}.

Record Response : Type := {
  resp_status : nat;
  resp_text : option jsstring;
  resp_json : option JSValue
}.

Definition resp_ok (r : Response) : bool :=
  ((200 <=? resp_status r) && (resp_status r <=? 299))%nat.

Inductive FetchOutcome : Type :=
  | Rejects (e : JSError)
  | Resolves (r : Response).

Definition FetchLike `{Platform} : Type := Request -> FetchOutcome.

(** A run of an asynchronous function: the requests it issued, in order,
    and how it settled. *)
Definition Run `{Platform} (A : Type) : Type := (list Request * Outcome A)%type.

Definition bindRun `{Platform} {A B} (m : Run A) (k : A -> Run B) : Run B :=
  match m with
  | (sent, Returned a) => let '(sent', o) := k a in (sent ++ sent', o)
  | (sent, Thrown e) => (sent, Thrown e)
  end.

#[global] Instance run_ret `{Platform} : MRet Run := fun A a => ([], Returned a).
#[global] Instance run_bind `{Platform} : MBind Run := fun A B k m => bindRun m k.

Definition lift `{Platform} {A} (o : Outcome A) : Run A := ([], o).

Definition throw `{Platform} {A} (e : JSError) : Run A := ([], Thrown e).

(** [try { m } catch (error) { handler error }]. *)
Definition tryCatch `{Platform} {A} (m : Run A) (handler : JSError -> Run A)
  : Run A :=
  match m with
  | (sent, Thrown e) => let '(sent', o) := handler e in (sent ++ sent', o)
  | settled => settled
  end.

(** [await fetch(url, init)]. *)
Definition await_fetch `{Platform} (fetch : FetchLike) (request : Request)
  : Run Response :=
  match fetch request with
  | Rejects e => ([request], Thrown e)
  | Resolves r => ([request], Returned r)
  end.

(** A stable sort, as [Array.prototype.sort] is. *)
Fixpoint insertBy {A} (compare : A -> A -> Z) (x : A) (sorted : list A)
  : list A :=
  match sorted with
  | [] => [x]
  | y :: rest =>
      if (compare x y <? 0)%Z then x :: sorted
      else y :: insertBy compare x rest
  end.

Definition sortBy {A} (compare : A -> A -> Z) (items : list A) : list A :=
  fold_left (fun sorted x => insertBy compare x sorted) items [].

(** * The Copyparty client ([$lib/server/copyparty]) *)

Module Copyparty.

(** ** VirtualPath: the path algebra *)

(** One turn of the [for] loop of [normalizePath] over the [segments] array. *)
Definition normalizeStep (segments : list jsstring) (piece : jsstring)
  : list jsstring :=
  let segment := trim piece in
  if bool_decide (segment = []) || bool_decide (segment = lit ".") then segments
  else if bool_decide (segment = lit "..") then removelast segments
  else segments ++ [segment].

Definition normalizeSegments (path : jsstring) : list jsstring :=
  fold_left normalizeStep (split SLASH (replaceBackslashes path)) [].

(** [segments.length ? `/${segments.join('/')}` : '/'] *)
Definition renderPath (segments : list jsstring) : jsstring :=
  match segments with
  | [] => lit "/"
  | _ => lit "/" ++ join (lit "/") segments
  end.

Definition normalizePath (path : jsstring) : jsstring :=
  renderPath (normalizeSegments path).

Definition joinPaths (base child : jsstring) : jsstring :=
  normalizePath (base ++ lit "/" ++ child).

Definition getParentPath (path : jsstring) : option jsstring :=
  if bool_decide (path = lit "/") then None
  else Some (renderPath (removelast (filterBoolean (split SLASH path)))).

Definition getPathLeafName (path : jsstring) : option jsstring :=
  last (filterBoolean (split SLASH path)).

(** What the loop of [normalizePath] keeps: a trimmed, non-empty segment
    other than [.] and [..], free of both separators. *)
Definition keptSegment (t : jsstring) : Prop :=
  t <> [] /\ trim t = t /\ t <> lit "." /\ t <> lit ".."
  /\ ~ In SLASH t /\ ~ In BACKSLASH t.

(** The effect of the pieces of one string on the [segments] array. *)
Definition normalizeInto (segments : list jsstring) (s : jsstring)
  : list jsstring :=
  fold_left normalizeStep (split SLASH (replaceBackslashes s)) segments.


(** ** Coercions of raw JSON values *)

Definition asString (value : JSValue) : jsstring :=
  match value with
  | JString s => s
  | _ => []
  end.

Definition asNumber (value : JSValue) : float :=
  match value with
  | JNumber x => if is_finite x then x else 0%float
  | _ => 0%float
  end.

(** ** The data model *)

Inductive EntryKind : Type := dir | file.

Record InventoryEntry : Type := {
  entry_kind : EntryKind;
  entry_name : jsstring;
  entry_href : jsstring;
  entry_size : float;
  entry_modified : jsstring;
  entry_modifiedTs : float;
  entry_extension : option jsstring;
  entry_tags : gmap jsstring jsstring;
  entry_nextPath : option jsstring
}.

Record InventoryData : Type := {
  inv_configured : bool;
  inv_currentPath : jsstring;
  inv_parentPath : option jsstring;
  inv_rootPath : jsstring;
  inv_uploadUrl : jsstring;
  inv_directories : list InventoryEntry;
  inv_files : list InventoryEntry;
  inv_account : jsstring;
  inv_serverInfo : jsstring;
  inv_error : option jsstring;
  inv_totalBytes : float
}.

Record CopypartyConnection : Type := {
  conn_baseUrl : jsstring;
  conn_rootPath : jsstring;
  conn_password : jsstring;
  conn_cookie : jsstring;
  conn_timeoutMs : Z
}.

(** [env] of [$env/dynamic/private]. *)
Record Env : Type := {
  COPYPARTY_BASE_URL : option jsstring;
  COPYPARTY_PUBLIC_BASE_URL : option jsstring;
  COPYPARTY_ROOT_PATH : option jsstring;
  COPYPARTY_PASSWORD : option jsstring;
  COPYPARTY_COOKIE : option jsstring;
  COPYPARTY_TIMEOUT_MS : option jsstring
}.

Definition DEFAULT_TIMEOUT_MS : Z := 8000.

Section WithPlatform.
Context `{Platform}.

(** [new URL(text)], throwing a [TypeError] on a text that does not parse. *)
Definition constructURL (text : jsstring) : Outcome URL :=
  match newURL text with
  | Some url => Returned url
  | None => Thrown (typeError (lit "Invalid URL"))
  end.

Definition parsePositiveNumber (value : option jsstring) : option Z :=
  match truthy value with
  | None => None
  | Some text =>
      match parseInt10 text with
      | Some parsed => if (0 <? parsed)%Z then Some parsed else None
      | None => None
      end
  end.

Definition resolveErrorMessage (error : JSError) : jsstring :=
  match error with
  | ErrorObject isDOMException name message =>
      if isDOMException && bool_decide (name = lit "AbortError")
      then lit "Copyparty request timed out."
      else if nonEmpty message then message
      else lit "Unable to load listing from Copyparty."
  | ThrownValue => lit "Unable to load listing from Copyparty."
  end.

Definition formatModifiedTimestamp (value : float) : jsstring :=
  if negb (is_finite value) || (value <=? 0)%float then []
  else
    let epochMs :=
      if (10000000000 <? value)%float then value else (value * 1000)%float in
    orElse (formatModified epochMs) [].

Definition isLoopbackHost (hostname : jsstring) : bool :=
  let normalized := toLowerCase hostname in
  bool_decide (normalized = lit "localhost")
  || bool_decide (normalized = lit "127.0.0.1")
  || bool_decide (normalized = lit "::1")
  || bool_decide (normalized = lit "[::1]")
  || endsWith normalized (lit ".localhost").

Definition resolvePublicBaseUrl (env : Env) (baseUrl : jsstring)
    (requestOrigin : option jsstring) : jsstring :=
  match truthy (trim <$> COPYPARTY_PUBLIC_BASE_URL env) with
  | Some explicitPublicBase => explicitPublicBase
  | None =>
      match truthy requestOrigin with
      | None => baseUrl
      | Some origin =>
          match newURL baseUrl with
          | None => baseUrl
          | Some internal =>
              if negb (isLoopbackHost (url_hostname internal)) then baseUrl
              else match newURL origin with
                   | None => baseUrl
                   | Some incoming =>
                       url_toString
                         (url_setHostname internal (url_hostname incoming))
                   end
          end
      end
  end.

Definition setPassword (url : URL) (password : jsstring) : URL :=
  if nonEmpty password then url_searchParamsSet url (lit "pw") password
  else url.

Definition buildListingUrl (env : Env) (baseUrl virtualPath : jsstring)
  : Outcome URL :=
  url ← constructURL baseUrl;
  let url := url_setPathname url (joinPaths (url_pathname url) virtualPath) in
  let url :=
    match truthy (trim <$> COPYPARTY_PASSWORD env) with
    | Some password => url_searchParamsSet url (lit "pw") password
    | None => url
    end in
  mret (url_searchParamsSet url (lit "ls") []).

Definition buildUploadUrl (baseUrl virtualPath password : jsstring)
  : Outcome jsstring :=
  url ← constructURL baseUrl;
  let url := url_setPathname url (joinPaths (url_pathname url) virtualPath) in
  mret (url_toString (setPassword url password)).

Definition getCopypartyConnection (env : Env) : Outcome CopypartyConnection :=
  match truthy (trim <$> COPYPARTY_BASE_URL env) with
  | None => Thrown (newError (lit "Copyparty is not configured."))
  | Some baseUrl =>
      Returned
        {| conn_baseUrl := baseUrl;
           conn_rootPath := normalizePath (orElse (COPYPARTY_ROOT_PATH env) (lit "/"));
           conn_password := orElse (trim <$> COPYPARTY_PASSWORD env) [];
           conn_cookie := orElse (trim <$> COPYPARTY_COOKIE env) [];
           conn_timeoutMs :=
             orElse (parsePositiveNumber (COPYPARTY_TIMEOUT_MS env))
                    DEFAULT_TIMEOUT_MS |}
  end.

Definition buildScopedUrl (connection : CopypartyConnection)
    (targetPath : jsstring) : Outcome URL :=
  let upstreamPath := joinPaths (conn_rootPath connection) (normalizePath targetPath) in
  url ← constructURL (conn_baseUrl connection);
  let url := url_setPathname url (joinPaths (url_pathname url) upstreamPath) in
  mret (setPassword url (conn_password connection)).

(** [[a, b].filter(Boolean).join('; ')] *)
Definition mergeCookies (a b : jsstring) : jsstring :=
  join (lit "; ") (filterBoolean [a; b]).

(** [init] of a request: its method and its own headers. *)
Definition fetchCopyparty (connection : CopypartyConnection) (fetch : FetchLike)
    (url : URL) (method : jsstring) (initHeaders : gmap jsstring jsstring)
    (requestCookie : option jsstring) : Run Response :=
  let targetOrigin := url_protocol url ++ lit "//" ++ url_host url in
  let headers := delete (lit "referer") (delete (lit "origin") initHeaders) in
  let headers := <[lit "origin" := targetOrigin]> headers in
  let headers := <[lit "referer" := targetOrigin ++ lit "/"]> headers in
  let cookieHeader := mergeCookies (conn_cookie connection) (orElse requestCookie []) in
  let headers :=
    if nonEmpty cookieHeader then <[lit "cookie" := cookieHeader]> headers
    else headers in
  await_fetch fetch
    {| req_method := method; req_url := url; req_headers := headers;
       req_timeoutMs := conn_timeoutMs connection |}.

Definition buildHttpErrorMessage (prefix : jsstring) (response : Response)
  : jsstring :=
  let details :=
    match resp_text response with
    | Some text => trim (collapseWhiteSpace text)
    | None => []
    end in
  let status := decimal (resp_status response) in
  if negb (nonEmpty details) then prefix ++ lit ": HTTP " ++ status ++ lit "."
  else if (resp_status response =? 401)%nat
          && includes (asciiLower details) (lit "move-access")
  then prefix ++ lit ": HTTP 401. Copyparty denied move-access for this path. Grant move permission in Copyparty or set COPYPARTY_PASSWORD/COPYPARTY_COOKIE to credentials with move rights."
  else if (resp_status response =? 422)%nat
          && includes (asciiLower details) (lit "unprocessable entity")
  then prefix ++ lit ": HTTP 422. Copyparty rejected the path as invalid. For WebDAV MOVE/COPY, ensure Destination does not include query parameters."
  else prefix ++ lit ": HTTP " ++ status ++ lit " (" ++ sliceTo details 220
       ++ lit ").".

Definition sanitizeLeafName (value label : jsstring) : Outcome jsstring :=
  let cleaned := trim value in
  if negb (nonEmpty cleaned) then Thrown (newError (label ++ lit " is required."))
  else if bool_decide (cleaned = lit ".") || bool_decide (cleaned = lit "..")
  then Thrown (newError (label ++ lit " is invalid."))
  else if includes cleaned (lit "/") || includes cleaned [BACKSLASH]
  then Thrown (newError (label ++ lit " cannot include slashes."))
  else Returned cleaned.

Definition ensureTrailingSlash (value : jsstring) : jsstring :=
  if endsWith value (lit "/") then value else value ++ lit "/".

(** ** MutationClient *)

Definition moveScopedPath (connection : CopypartyConnection) (fetch : FetchLike)
    (sourcePath destinationPath : jsstring) (requestCookie : option jsstring)
    (errorPrefix : jsstring) : Run unit :=
  sourceUrl ← lift (buildScopedUrl connection sourcePath);
  destinationUrl ← lift (buildScopedUrl connection destinationPath);
  let destinationUrl := url_clearHash (url_clearSearch destinationUrl) in
  response ← fetchCopyparty connection fetch sourceUrl (lit "MOVE")
    (<[lit "overwrite" := lit "T"]>
       {[ lit "destination" := url_toString destinationUrl ]})
    requestCookie;
  if resp_ok response then mret tt
  else throw (newError (buildHttpErrorMessage errorPrefix response)).

Definition deleteInventoryPath (env : Env) (fetch : FetchLike)
    (targetPath : jsstring) (requestCookie : option jsstring) : Run unit :=
  connection ← lift (getCopypartyConnection env);
  let normalizedPath := normalizePath targetPath in
  if bool_decide (normalizedPath = lit "/")
  then throw (newError (lit "Cannot delete root path."))
  else
    url ← lift (buildScopedUrl connection normalizedPath);
    response ← fetchCopyparty connection fetch url (lit "DELETE") ∅ requestCookie;
    if resp_ok response then mret tt
    else throw (newError (buildHttpErrorMessage (lit "Delete failed") response)).

Definition renameInventoryPath (env : Env) (fetch : FetchLike)
    (targetPath newName : jsstring) (requestCookie : option jsstring)
  : Run unit :=
  connection ← lift (getCopypartyConnection env);
  let normalizedPath := normalizePath targetPath in
  if bool_decide (normalizedPath = lit "/")
  then throw (newError (lit "Cannot rename root path."))
  else
    safeName ← lift (sanitizeLeafName newName (lit "New name"));
    match getParentPath normalizedPath with
    | None => throw (newError (lit "Cannot rename root path."))
    | Some parentPath =>
        let destinationPath := joinPaths parentPath safeName in
        if bool_decide (destinationPath = normalizedPath) then mret tt
        else moveScopedPath connection fetch normalizedPath destinationPath
               requestCookie (lit "Rename failed")
    end.

Definition moveInventoryPath (env : Env) (fetch : FetchLike)
    (targetPath destinationPath : jsstring) (requestCookie : option jsstring)
  : Run unit :=
  connection ← lift (getCopypartyConnection env);
  let normalizedPath := normalizePath targetPath in
  if bool_decide (normalizedPath = lit "/")
  then throw (newError (lit "Cannot move root path."))
  else
    match truthy (getPathLeafName normalizedPath) with
    | None => throw (newError (lit "Invalid source path."))
    | Some sourceName =>
        let normalizedDestinationDirectory := normalizePath destinationPath in
        let resolvedDestinationPath :=
          joinPaths normalizedDestinationDirectory sourceName in
        if bool_decide (resolvedDestinationPath = normalizedPath) then mret tt
        else moveScopedPath connection fetch normalizedPath
               resolvedDestinationPath requestCookie (lit "Move failed")
    end.

Definition createInventoryDirectory (env : Env) (fetch : FetchLike)
    (parentPath folderName : jsstring) (requestCookie : option jsstring)
  : Run unit :=
  connection ← lift (getCopypartyConnection env);
  safeFolderName ← lift (sanitizeLeafName folderName (lit "Folder name"));
  let scopedPath := joinPaths (normalizePath parentPath) safeFolderName in
  url ← lift (buildScopedUrl connection scopedPath);
  let url := url_setPathname url (ensureTrailingSlash (url_pathname url)) in
  response ← fetchCopyparty connection fetch url (lit "MKCOL") ∅ requestCookie;
  if resp_ok response then mret tt
  else if (resp_status response =? 405)%nat || (resp_status response =? 409)%nat
  then throw (newError (lit "Folder already exists."))
  else throw (newError (buildHttpErrorMessage (lit "Create folder failed") response)).

(** ** ListingClient *)

Definition asItemArray (value : JSValue) : list JSValue :=
  match value with
  | JArray items =>
      List.filter
        (fun entry =>
           match entry with
           | JObject _ | JArray _ => true
           | _ => false
           end)
        items
  | _ => []
  end.

Definition cleanItemName (name : jsstring) : jsstring :=
  let trimmed := trim name in
  if negb (nonEmpty trimmed) then []
  else if endsWith trimmed (lit "/") then removelast trimmed else trimmed.

(** [value.replace(/\/+$/, '')] *)
Fixpoint stripTrailingSlashes (s : jsstring) : jsstring :=
  match s with
  | [] => []
  | c :: rest =>
      match stripTrailingSlashes rest with
      | [] => if c =? SLASH then [] else [c]
      | kept => c :: kept
      end
  end.

Definition extractNameFromHref (rawHref : jsstring) : jsstring :=
  if negb (nonEmpty rawHref) then []
  else
    let withoutHash := orElse (head (split 35 rawHref)) [] in
    let withoutQuery := orElse (head (split 63 withoutHash)) [] in
    let withoutTrailingSlash := stripTrailingSlashes withoutQuery in
    let segment :=
      orElse (last (filterBoolean (split SLASH withoutTrailingSlash))) [] in
    if negb (nonEmpty segment) then []
    else orElse (decodeURIComponent segment) segment.

Definition buildItemHref (baseUrl rootPath currentPath rawHref fallbackName
    : jsstring) (kind : EntryKind) (password : jsstring) : Outcome jsstring :=
  base ← constructURL baseUrl;
  let currentDirPath :=
    joinPaths (url_pathname base) (joinPaths rootPath currentPath) in
  let base :=
    url_setPathname base
      (if endsWith currentDirPath (lit "/") then currentDirPath
       else currentDirPath ++ lit "/") in
  hrefValue ←
    (let hrefValue := trim rawHref in
     if nonEmpty hrefValue then Returned hrefValue
     else match encodeURIComponent fallbackName with
          | None => Thrown (ErrorObject false (lit "URIError") (lit "URI malformed"))
          | Some encoded =>
              Returned (match kind with
                        | dir => encoded ++ lit "/"
                        | file => encoded
                        end)
          end);
  match newURLWithBase hrefValue base with
  | None => Returned hrefValue
  | Some resolved =>
      let resolved :=
        if nonEmpty password && negb (url_searchParamsHas resolved (lit "pw"))
        then url_searchParamsSet resolved (lit "pw") password
        else resolved in
      Returned (url_toString resolved)
  end.

Definition resolveExtension (rawExtension : JSValue) (name : jsstring)
  : option jsstring :=
  let extension := trim (toLowerCase (asString rawExtension)) in
  if nonEmpty extension
     && negb (bool_decide (extension = lit "---"))
     && negb (bool_decide (extension = lit "%"))
  then Some extension
  else
    let dotIndex := lastIndexOf name DOT in
    if (dotIndex <=? 0)%Z || (Z.of_nat (length name) - 1 <=? dotIndex)%Z
    then None
    else Some (toLowerCase (sliceFrom name (dotIndex + 1))).

Definition toTagRecord (value : JSValue) : gmap jsstring jsstring :=
  match value with
  | JObject fields =>
      fold_left
        (fun record '(key, entry) =>
           match entry with
           | JString text => <[key := text]> record
           | _ => record
           end)
        fields ∅
  | _ => ∅
  end.

Definition mapItem (item : JSValue) (kind : EntryKind)
    (currentPath rootPath baseUrl password : jsstring) : Outcome InventoryEntry :=
  let rawName := cleanItemName (asString (getProp item (lit "name"))) in
  let rawHref := asString (getProp item (lit "href")) in
  let inferredName := cleanItemName (extractNameFromHref rawHref) in
  let safeName :=
    if nonEmpty rawName then rawName
    else if nonEmpty inferredName then inferredName
    else lit "unnamed" in
  let modifiedTs := asNumber (getProp item (lit "ts")) in
  resolvedHref ←
    buildItemHref baseUrl rootPath currentPath rawHref safeName kind password;
  let dt := asString (getProp item (lit "dt")) in
  Returned
    {| entry_kind := kind;
       entry_name := safeName;
       entry_href := resolvedHref;
       entry_size := asNumber (getProp item (lit "sz"));
       entry_modified :=
         if nonEmpty dt then dt else formatModifiedTimestamp modifiedTs;
       entry_modifiedTs := modifiedTs;
       entry_extension := resolveExtension (getProp item (lit "ext")) safeName;
       entry_tags := toTagRecord (getProp item (lit "tags"));
       entry_nextPath :=
         match kind with
         | dir => Some (joinPaths currentPath safeName)
         | file => None
         end |}.

(** [items.map(f)] for an [f] that may throw. *)
Fixpoint mapOutcome {A B} (f : A -> Outcome B) (items : list A)
  : Outcome (list B) :=
  match items with
  | [] => Returned []
  | x :: rest =>
      y ← f x;
      ys ← mapOutcome f rest;
      Returned (y :: ys)
  end.

Definition compareByName (a b : InventoryEntry) : Z :=
  collatorCompare (entry_name a) (entry_name b).

(** The request of [getInventoryData]: [GET], [Accept: application/json],
    the configured cookie, the configured timeout. *)
Definition listingRequest (env : Env) (url : URL) : Request :=
  let headers : gmap jsstring jsstring :=
    {[ lit "accept" := lit "application/json" ]} in
  let headers :=
    match truthy (trim <$> COPYPARTY_COOKIE env) with
    | Some cookie => <[lit "cookie" := cookie]> headers
    | None => headers
    end in
  let timeoutMs :=
    orElse (parsePositiveNumber (COPYPARTY_TIMEOUT_MS env)) DEFAULT_TIMEOUT_MS in
  {| req_method := lit "GET"; req_url := url; req_headers := headers;
     req_timeoutMs := timeoutMs |}.

(** The body of the [try] block of [getInventoryData]. *)
Definition fetchListing (env : Env) (fetch : FetchLike)
    (currentPath : jsstring) (parentPath : option jsstring)
    (rootPath baseUrl upstreamPath password publicBaseUrl : jsstring)
  : Run InventoryData :=
  url ← lift (buildListingUrl env baseUrl upstreamPath);
  uploadUrl ← lift (buildUploadUrl publicBaseUrl upstreamPath password);
  response ← await_fetch fetch (listingRequest env url);
  if negb (resp_ok response)
  then throw (newError (lit "Copyparty responded with HTTP "
                        ++ decimal (resp_status response) ++ lit "."))
  else
    payload ←
      match resp_json response with
      | None =>
          throw (newError
            (lit "Copyparty did not return JSON. Verify `?ls` access and credentials."))
      | Some JNull | Some JUndefined =>
          throw (typeError (lit "Cannot read properties of null"))
      | Some payload => mret payload
      end;
    let rawDirs := asItemArray (getProp payload (lit "dirs")) in
    let rawFiles := asItemArray (getProp payload (lit "files")) in
    directories ← lift (mapOutcome
      (fun item => mapItem item dir currentPath rootPath publicBaseUrl password)
      rawDirs);
    let directories := sortBy compareByName directories in
    files ← lift (mapOutcome
      (fun item => mapItem item file currentPath rootPath publicBaseUrl password)
      rawFiles);
    let files := sortBy compareByName files in
    let totalBytes :=
      fold_left (fun sum f => (sum + entry_size f)%float) files 0%float in
    mret
      {| inv_configured := true;
         inv_currentPath := currentPath;
         inv_parentPath := parentPath;
         inv_rootPath := rootPath;
         inv_uploadUrl := uploadUrl;
         inv_directories := directories;
         inv_files := files;
         inv_account := asString (getProp payload (lit "acct"));
         inv_serverInfo := asString (getProp payload (lit "srvinf"));
         inv_error := None;
         inv_totalBytes := totalBytes |}.

Definition getInventoryData (env : Env) (fetch : FetchLike)
    (requestedPath requestOrigin : option jsstring) : Run InventoryData :=
  let currentPath := normalizePath (orElse requestedPath (lit "/")) in
  let parentPath := getParentPath currentPath in
  let rootPath := normalizePath (orElse (COPYPARTY_ROOT_PATH env) (lit "/")) in
  match truthy (trim <$> COPYPARTY_BASE_URL env) with
  | None =>
      mret
        {| inv_configured := false;
           inv_currentPath := currentPath;
           inv_parentPath := parentPath;
           inv_rootPath := rootPath;
           inv_uploadUrl := [];
           inv_directories := [];
           inv_files := [];
           inv_account := [];
           inv_serverInfo := [];
           inv_error := None;
           inv_totalBytes := 0%float |}
  | Some baseUrl =>
      let upstreamPath := joinPaths rootPath currentPath in
      let password := orElse (trim <$> COPYPARTY_PASSWORD env) [] in
      let publicBaseUrl := resolvePublicBaseUrl env baseUrl requestOrigin in
      tryCatch
        (fetchListing env fetch currentPath parentPath rootPath baseUrl
           upstreamPath password publicBaseUrl)
        (fun error =>
           uploadUrl ← lift (buildUploadUrl publicBaseUrl upstreamPath password);
           mret
             {| inv_configured := true;
                inv_currentPath := currentPath;
                inv_parentPath := parentPath;
                inv_rootPath := rootPath;
                inv_uploadUrl := uploadUrl;
                inv_directories := [];
                inv_files := [];
                inv_account := [];
                inv_serverInfo := [];
                inv_error := Some (resolveErrorMessage error);
                inv_totalBytes := 0%float |})
  end.

End WithPlatform.

End Copyparty.

(** * The action endpoint ([routes/api/files/+server.ts]) *)

Module FilesRoute.

(** What the handler reads of the inbound request: its URL, its [Cookie]
    header ([None] when absent) and its body as [request.json()] gives it
    ([None] when that rejects). *)
Record RequestEvent : Type := {
  request_url : jsstring;
  request_cookie : option jsstring;
  request_json : option JSValue
}.

(** [json({ ok, error }, { status })] *)
Record JsonResponse : Type := {
  body_ok : bool;
  body_error : option jsstring;
  http_status : nat
}.

Definition failure (message : jsstring) (status : nat) : JsonResponse :=
  {| body_ok := false; body_error := Some message; http_status := status |}.

Definition success : JsonResponse :=
  {| body_ok := true; body_error := None; http_status := 200 |}.

Definition asString (value : JSValue) : jsstring :=
  match value with
  | JString s => trim s
  | _ => []
  end.

Definition resolveErrorMessage (error : JSError) : jsstring :=
  match error with
  | ErrorObject _ _ message =>
      if nonEmpty message then message
      else lit "Unexpected file operation failure."
  | ThrownValue => lit "Unexpected file operation failure."
  end.

Section WithPlatform.
Context `{Platform}.

Definition isLikelyClientError (message : jsstring) : bool :=
  let lower := toLowerCase message in
  includes lower (lit "required")
  || includes lower (lit "invalid")
  || includes lower (lit "cannot")
  || includes lower (lit "exists")
  || includes lower (lit "not configured")
  || includes lower (lit "denied")
  || includes lower (lit "http 401")
  || includes lower (lit "http 403").

Definition shouldForwardRequestCookies (requestUrl : jsstring)
    (copypartyBaseUrl : option jsstring) : bool :=
  match truthy copypartyBaseUrl with
  | None => false
  | Some baseUrl =>
      match newURL requestUrl with
      | None => false
      | Some requestOrigin =>
          match newURL baseUrl with
          | None => false
          | Some copypartyOrigin =>
              bool_decide (url_protocol requestOrigin = url_protocol copypartyOrigin)
              && bool_decide (url_hostname requestOrigin = url_hostname copypartyOrigin)
          end
      end
  end.

(** The cookie handed to the Copyparty client for this request. *)
Definition forwardedCookie (env : Copyparty.Env) (event : RequestEvent)
  : jsstring :=
  if shouldForwardRequestCookies (request_url event)
       (trim <$> Copyparty.COPYPARTY_BASE_URL env)
  then orElse (request_cookie event) []
  else [].

(** The body of the [try] block of [POST]. *)
Definition dispatch (env : Copyparty.Env) (fetch : FetchLike)
    (payload : JSValue) (action requestCookie : jsstring) : Run JsonResponse :=
  if bool_decide (action = lit "delete") then
    let path := asString (getProp payload (lit "path")) in
    if negb (nonEmpty path) then mret (failure (lit "Path is required.") 400)
    else
      _ ← Copyparty.deleteInventoryPath env fetch path (Some requestCookie);
      mret success
  else if bool_decide (action = lit "rename") then
    let path := asString (getProp payload (lit "path")) in
    let newName := asString (getProp payload (lit "newName")) in
    if negb (nonEmpty path) then mret (failure (lit "Path is required.") 400)
    else if negb (nonEmpty newName)
    then mret (failure (lit "New name is required.") 400)
    else
      _ ← Copyparty.renameInventoryPath env fetch path newName (Some requestCookie);
      mret success
  else if bool_decide (action = lit "mkdir") then
    let parentPath := asString (getProp payload (lit "path")) in
    let folderName := asString (getProp payload (lit "name")) in
    if negb (nonEmpty parentPath)
    then mret (failure (lit "Parent path is required.") 400)
    else if negb (nonEmpty folderName)
    then mret (failure (lit "Folder name is required.") 400)
    else
      _ ← Copyparty.createInventoryDirectory env fetch parentPath folderName
            (Some requestCookie);
      mret success
  else if bool_decide (action = lit "move") then
    let path := asString (getProp payload (lit "path")) in
    let destinationPath := asString (getProp payload (lit "destinationPath")) in
    if negb (nonEmpty path) then mret (failure (lit "Path is required.") 400)
    else if negb (nonEmpty destinationPath)
    then mret (failure (lit "Destination path is required.") 400)
    else
      _ ← Copyparty.moveInventoryPath env fetch path destinationPath
            (Some requestCookie);
      mret success
  else mret (failure (lit "Unknown action.") 400).

Definition POST (env : Copyparty.Env) (fetch : FetchLike) (event : RequestEvent)
  : Run JsonResponse :=
  match request_json event with
  | None => mret (failure (lit "Invalid JSON body.") 400)
  | Some JNull | Some JUndefined =>
      throw (typeError (lit "Cannot read properties of null"))
  | Some payload =>
      let action := asString (getProp payload (lit "action")) in
      let requestCookie := forwardedCookie env event in
      tryCatch (dispatch env fetch payload action requestCookie)
        (fun error =>
           let message := resolveErrorMessage error in
           let status := if isLikelyClientError message then 400%nat else 502%nat in
           mret (failure message status))
  end.

End WithPlatform.

End FilesRoute.

(** * The inventory page: upload candidates, conflicts and the transfer queue *)

Module Page.

(** ** Path helpers of the page script *)

Definition normalizeInventoryPath (path : jsstring) : jsstring :=
  Copyparty.renderPath
    (fold_left Copyparty.normalizeStep (split SLASH (replaceBackslashes path)) []).

Definition getParentInventoryPath (path : jsstring) : option jsstring :=
  let normalized := normalizeInventoryPath path in
  if bool_decide (normalized = lit "/") then None
  else Some (Copyparty.renderPath
               (removelast (filterBoolean (split SLASH normalized)))).

Definition joinNormalizedPaths (base child : jsstring) : jsstring :=
  normalizeInventoryPath (base ++ lit "/" ++ child).

Definition normalizeUploadRelativePath (path : jsstring) : jsstring :=
  join (lit "/")
    (fold_left Copyparty.normalizeStep (split SLASH (replaceBackslashes path)) []).

(** The pair [{ directory, fileName }]. *)
Definition splitUploadRelativePath (relativePath : jsstring)
  : jsstring * jsstring :=
  let normalized := normalizeUploadRelativePath relativePath in
  if negb (nonEmpty normalized) then ([], [])
  else
    let segments := split SLASH normalized in
    (join (lit "/") (removelast segments), orElse (last segments) []).

(** ** The data model *)

Inductive TransferStatus : Type := queued | uploading | complete | error.

Inductive ConflictStrategy : Type := rename | replace | skip.

#[global] Instance TransferStatus_eq_dec : EqDecision TransferStatus.
Proof. solve_decision. Defined.

#[global] Instance ConflictStrategy_eq_dec : EqDecision ConflictStrategy.
Proof. solve_decision. Defined.

Record File : Type := {
  file_name : jsstring;
  file_size : Z;
  file_lastModified : Z
}.

Record UploadCandidate : Type := {
  cand_file : File;
  cand_relativePath : jsstring
}.

(** [item_xhr] tells whether the item holds an [XMLHttpRequest]. *)
Record TransferItem : Type := {
  item_id : jsstring;
  item_file : File;
  item_sourceName : jsstring;
  item_targetName : jsstring;
  item_targetPath : jsstring;
  item_destinationPath : jsstring;
  item_uploadUrl : jsstring;
  item_name : jsstring;
  item_size : Z;
  item_loaded : Z;
  item_progress : Z;
  item_status : TransferStatus;
  item_replaceExisting : bool;
  item_error : option jsstring;
  item_xhr : bool
}.

(** What the page reads of [data.inventory]. *)
Record Inventory : Type := {
  inventory_currentPath : jsstring;
  inventory_rootPath : jsstring;
  inventory_uploadUrl : jsstring;
  inventory_files : list jsstring
}.

Definition MAX_CONCURRENT_UPLOADS : Z := 3.
Definition MOBILE_CONCURRENT_UPLOADS : Z := 1.
Definition UPLOAD_ENQUEUE_BATCH_SIZE : nat := 120.
Definition MAX_FINISHED_TRANSFER_ITEMS : nat := 260.

(** [uploadConcurrencyLimit], from [isLikelyMobileClient()]. *)
Definition uploadConcurrencyLimit (mobile : bool) : Z :=
  if mobile then MOBILE_CONCURRENT_UPLOADS else MAX_CONCURRENT_UPLOADS.

Definition isTransferActive (status : TransferStatus) : bool :=
  match status with
  | queued | uploading => true
  | _ => false
  end.

(** ** ConflictResolver *)

(** The pair [{ stem, ext }]. *)
Definition splitFileName (name : jsstring) : jsstring * jsstring :=
  let dotIndex := lastIndexOf name DOT in
  if (dotIndex <=? 0)%Z || (Z.of_nat (length name) - 1 <=? dotIndex)%Z
  then (name, [])
  else (sliceTo name dotIndex, sliceFrom name dotIndex).

(** [`${stem} (${index})${ext}`] *)
Definition numberedName (stem ext : jsstring) (index : nat) : jsstring :=
  stem ++ lit " (" ++ decimal index ++ lit ")" ++ ext.

(** The [while (true)] loop of [makeUniqueFileName]: the first index from
    [index] on whose name is free, within [fuel] turns. *)
Fixpoint firstFreeIndex (fuel : nat) (stem ext : jsstring)
    (reservedNames : gset jsstring) (index : nat) : option nat :=
  match fuel with
  | O => None
  | S fuel' =>
      if bool_decide (numberedName stem ext index ∈ reservedNames)
      then firstFreeIndex fuel' stem ext reservedNames (S index)
      else Some index
  end.

(** The name returned and the set as the call leaves it. One turn more than
    the set has names is always enough ([firstFreeIndex_total]). *)
Definition makeUniqueFileName (baseName : jsstring)
    (reservedNames : gset jsstring) : jsstring * gset jsstring :=
  if negb (bool_decide (baseName ∈ reservedNames))
  then (baseName, {[baseName]} ∪ reservedNames)
  else
    let '(stem, ext) := splitFileName baseName in
    match firstFreeIndex (S (size reservedNames)) stem ext reservedNames 2 with
    | Some index =>
        let candidate := numberedName stem ext index in
        (candidate, {[candidate]} ∪ reservedNames)
    | None => (baseName, reservedNames)
    end.

(** ** UploadIntake: from picked files to the decision to enqueue *)

(** A file as the pickers and the drop zone give it: the [File] and its
    [webkitRelativePath], empty when the file has none. *)
Record PickedFile : Type := {
  picked_file : File;
  picked_webkitRelativePath : jsstring
}.

(** [buildUploadCandidatesFromFiles], and the loop of
    [buildUploadCandidatesFromFileList], over files none of which is
    [null]. *)
Fixpoint buildUploadCandidatesFromFiles (files : list PickedFile)
  : list UploadCandidate :=
  match files with
  | [] => []
  | picked :: rest =>
      let file := picked_file picked in
      if bool_decide (trim (file_name file) = [])
      then buildUploadCandidatesFromFiles rest
      else
        let relativePath :=
          normalizeUploadRelativePath
            (if nonEmpty (picked_webkitRelativePath picked)
             then picked_webkitRelativePath picked
             else file_name file) in
        if negb (nonEmpty relativePath)
        then buildUploadCandidatesFromFiles rest
        else {| cand_file := file; cand_relativePath := relativePath |}
             :: buildUploadCandidatesFromFiles rest
  end.

(** The text of an integer in a template literal. *)
Definition numberText (n : Z) : jsstring :=
  if (n <? 0)%Z then lit "-" ++ decimal (Z.to_nat (- n))
  else decimal (Z.to_nat n).

(** [`${relativePath}::${file.size}::${file.lastModified}`] *)
Definition candidateKey (candidate : UploadCandidate) : jsstring :=
  cand_relativePath candidate ++ lit "::"
  ++ numberText (file_size (cand_file candidate)) ++ lit "::"
  ++ numberText (file_lastModified (cand_file candidate)).

(** The loop of [dedupeUploadCandidates], with the keys seen so far. *)
Fixpoint dedupeFrom (seen : gset jsstring) (candidates : list UploadCandidate)
  : list UploadCandidate :=
  match candidates with
  | [] => []
  | candidate :: rest =>
      let key := candidateKey candidate in
      if bool_decide (key ∈ seen) then dedupeFrom seen rest
      else candidate :: dedupeFrom ({[key]} ∪ seen) rest
  end.

Definition dedupeUploadCandidates (candidates : list UploadCandidate)
  : list UploadCandidate :=
  dedupeFrom ∅ candidates.

Record UploadConflictItem : Type := {
  conflict_name : jsstring;
  conflict_size : Z
}.

(** The loop of [buildUploadConflicts]; [conflictsByName] is the list of
    its values in the order of insertion. *)
Fixpoint conflictsFrom (existingByName : gset jsstring)
    (conflictsByName : list UploadConflictItem)
    (candidates : list UploadCandidate) : list UploadConflictItem :=
  match candidates with
  | [] => conflictsByName
  | candidate :: rest =>
      let '(directory, fileName) :=
        splitUploadRelativePath (cand_relativePath candidate) in
      if nonEmpty directory || negb (nonEmpty fileName)
         || negb (bool_decide (fileName ∈ existingByName))
      then conflictsFrom existingByName conflictsByName rest
      else if existsb (fun item => bool_decide (conflict_name item = fileName))
                conflictsByName
      then conflictsFrom existingByName conflictsByName rest
      else conflictsFrom existingByName
             (conflictsByName
              ++ [{| conflict_name := fileName;
                     conflict_size := file_size (cand_file candidate) |}])
             rest
  end.

Definition buildUploadConflicts (inventory : Inventory)
    (candidates : list UploadCandidate) : list UploadConflictItem :=
  conflictsFrom (list_to_set (inventory_files inventory)) [] candidates.

(** What [queueFilesForUpload] does with the candidates: it leaves with a
    message, opens the conflict dialog, or calls [enqueueUploads]. *)
Inductive QueueDecision : Type :=
  | NoFilesDetected
  | UploadTargetUnavailable
  | NoValidFilesDetected
  | OpenUploadConflictDialog (conflicts : list UploadConflictItem)
      (candidates : list UploadCandidate) (destinationPath : jsstring)
  | EnqueueUploads (candidates : list UploadCandidate)
      (strategy : ConflictStrategy) (destinationPath : jsstring).

Definition queueFilesForUpload (forgeUploadsEnabled : bool)
    (inventory : Inventory) (candidates : list UploadCandidate)
  : QueueDecision :=
  if (length candidates =? 0)%nat then NoFilesDetected
  else if negb forgeUploadsEnabled then UploadTargetUnavailable
  else
    let validCandidates :=
      List.filter
        (fun candidate =>
           negb (bool_decide (trim (file_name (cand_file candidate)) = []))
           && negb (bool_decide (trim (cand_relativePath candidate) = [])))
        candidates in
    if (length validCandidates =? 0)%nat then NoValidFilesDetected
    else
      let destinationPath :=
        normalizeInventoryPath (inventory_currentPath inventory) in
      let conflicts := buildUploadConflicts inventory validCandidates in
      if (0 <? length conflicts)%nat
      then OpenUploadConflictDialog conflicts validCandidates destinationPath
      else EnqueueUploads validCandidates skip destinationPath.

Section WithPlatform.
Context `{Platform}.

Definition getUploadUrlForDestinationPath (inventory : Inventory)
    (destinationPath : jsstring) : jsstring :=
  let currentPath := normalizeInventoryPath (inventory_currentPath inventory) in
  let normalizedDestinationPath := normalizeInventoryPath destinationPath in
  if bool_decide (normalizedDestinationPath = currentPath)
  then inventory_uploadUrl inventory
  else
    let rootPath :=
      if nonEmpty (trim (inventory_rootPath inventory))
      then normalizeInventoryPath (inventory_rootPath inventory)
      else lit "/" in
    let currentUpstreamPath := joinNormalizedPaths rootPath currentPath in
    let destinationUpstreamPath :=
      joinNormalizedPaths rootPath normalizedDestinationPath in
    match newURL (inventory_uploadUrl inventory) with
    | None => inventory_uploadUrl inventory
    | Some uploadUrl =>
        let pathnameSegments :=
          filterBoolean
            (split SLASH (normalizeInventoryPath (url_pathname uploadUrl))) in
        let currentUpstreamSegments :=
          filterBoolean (split SLASH currentUpstreamPath) in
        let destinationUpstreamSegments :=
          filterBoolean (split SLASH destinationUpstreamPath) in
        let prefixLength :=
          (length pathnameSegments - length currentUpstreamSegments)%nat in
        let hasCurrentSuffix :=
          (length currentUpstreamSegments <=? length pathnameSegments)%nat
          && bool_decide (drop prefixLength pathnameSegments
                          = currentUpstreamSegments) in
        if hasCurrentSuffix then
          let prefixSegments := take prefixLength pathnameSegments in
          url_toString
            (url_setPathname uploadUrl
               (lit "/" ++ join (lit "/")
                             (prefixSegments ++ destinationUpstreamSegments)))
        else
          url_toString (url_setPathname uploadUrl destinationUpstreamPath)
    end.

(** The closure [getReservedNames] of [enqueueUploads]: the set for [path],
    seeded on first use, and the map holding it. *)
Definition getReservedNames
    (existingNamesByDestination reservedNamesByDestination
       : gmap jsstring (gset jsstring))
    (path : jsstring) : gset jsstring * gmap jsstring (gset jsstring) :=
  match reservedNamesByDestination !! path with
  | Some existing => (existing, reservedNamesByDestination)
  | None =>
      let seededNames := orElse (existingNamesByDestination !! path) ∅ in
      (seededNames, <[path := seededNames]> reservedNamesByDestination)
  end.

(** The local state of the [for] loop of [enqueueUploads]: the reserved
    names, a set per destination; the batch being filled; the batches
    already pushed on [transferItems] and [uploadQueue], oldest first. *)
Record EnqueueState : Type := {
  reservedNamesByDestination : gmap jsstring (gset jsstring);
  enqueuedCount : nat;
  batchItems : list TransferItem;
  pushed : list (list TransferItem)
}.

(** The target name, [replaceExisting] and the reserved names after the
    strategy has been applied to a candidate that is not skipped. *)
Definition resolveTarget (strategy : ConflictStrategy) (sourceName : jsstring)
    (reservedNames : gset jsstring) (hasConflict existsOnServer : bool)
    (sameDestination : bool) : jsstring * bool * gset jsstring :=
  match strategy with
  | rename =>
      let '(targetName, reserved') := makeUniqueFileName sourceName reservedNames in
      (targetName, false, reserved')
  | replace =>
      if existsOnServer && sameDestination
      then (sourceName, true, {[sourceName]} ∪ reservedNames)
      else if hasConflict then
        let '(targetName, reserved') := makeUniqueFileName sourceName reservedNames in
        (targetName, false, reserved')
      else (sourceName, false, {[sourceName]} ∪ reservedNames)
  | skip => (sourceName, false, {[sourceName]} ∪ reservedNames)
  end.

(** One turn of the [for] loop, for the candidate at [index] of [total];
    [createTransferId] gives the identifier of the item made at [index]. *)
Definition enqueueStep (inventory : Inventory) (createTransferId : nat -> jsstring)
    (strategy : ConflictStrategy) (normalizedDestinationPath : jsstring)
    (existingNamesByDestination : gmap jsstring (gset jsstring))
    (total : nat) (st : EnqueueState) (index : nat)
    (candidate : UploadCandidate) : EnqueueState :=
  let normalizedRelativePath :=
    normalizeUploadRelativePath (cand_relativePath candidate) in
  let '(directory, fileName) := splitUploadRelativePath normalizedRelativePath in
  let sourceName := trim fileName in
  if negb (nonEmpty sourceName) then st
  else
    let resolvedDestinationPath :=
      if nonEmpty directory
      then joinNormalizedPaths normalizedDestinationPath directory
      else normalizedDestinationPath in
    let '(reservedNames, reservedMap) :=
      getReservedNames existingNamesByDestination
        (reservedNamesByDestination st) resolvedDestinationPath in
    let existingNames :=
      orElse (existingNamesByDestination !! resolvedDestinationPath) ∅ in
    let hasConflict := bool_decide (sourceName ∈ reservedNames) in
    let existsOnServer := bool_decide (sourceName ∈ existingNames) in
    if hasConflict && bool_decide (strategy = skip)
    then {| reservedNamesByDestination := reservedMap;
            enqueuedCount := enqueuedCount st;
            batchItems := batchItems st;
            pushed := pushed st |}
    else
      let '(targetName, replaceExisting, reservedNames') :=
        resolveTarget strategy sourceName reservedNames hasConflict
          existsOnServer
          (bool_decide (resolvedDestinationPath = normalizedDestinationPath)) in
      let item :=
        {| item_id := createTransferId index;
           item_file := cand_file candidate;
           item_sourceName := sourceName;
           item_targetName := targetName;
           item_targetPath := joinNormalizedPaths resolvedDestinationPath targetName;
           item_destinationPath := resolvedDestinationPath;
           item_uploadUrl :=
             getUploadUrlForDestinationPath inventory resolvedDestinationPath;
           item_name :=
             if nonEmpty normalizedRelativePath then normalizedRelativePath
             else targetName;
           item_size := file_size (cand_file candidate);
           item_loaded := 0;
           item_progress := 0;
           item_status := queued;
           item_replaceExisting := replaceExisting;
           item_error := None;
           item_xhr := false |} in
      let batch := batchItems st ++ [item] in
      let isBatchBoundary :=
        ((index + 1) mod UPLOAD_ENQUEUE_BATCH_SIZE =? 0)%nat
        || (index + 1 =? total)%nat in
      {| reservedNamesByDestination :=
           <[resolvedDestinationPath := reservedNames']> reservedMap;
         enqueuedCount := S (enqueuedCount st);
         batchItems := if isBatchBoundary then [] else batch;
         pushed := if isBatchBoundary then pushed st ++ [batch] else pushed st |}.

Fixpoint enqueueLoop (inventory : Inventory) (createTransferId : nat -> jsstring)
    (strategy : ConflictStrategy) (normalizedDestinationPath : jsstring)
    (existingNamesByDestination : gmap jsstring (gset jsstring))
    (total : nat) (st : EnqueueState) (index : nat)
    (candidates : list UploadCandidate) : EnqueueState :=
  match candidates with
  | [] => st
  | candidate :: rest =>
      enqueueLoop inventory createTransferId strategy normalizedDestinationPath
        existingNamesByDestination total
        (enqueueStep inventory createTransferId strategy
           normalizedDestinationPath existingNamesByDestination total st index
           candidate)
        (S index) rest
  end.

(** The batches [enqueueUploads] pushes on the queue, in order; none when
    uploads are disabled. [data.inventory] is read as of the call. *)
Definition enqueueUploads (forgeUploadsEnabled : bool) (inventory : Inventory)
    (createTransferId : nat -> jsstring) (candidates : list UploadCandidate)
    (strategy : ConflictStrategy) (destinationPath : jsstring)
  : list (list TransferItem) :=
  if negb forgeUploadsEnabled then []
  else
    let normalizedDestinationPath := normalizeInventoryPath destinationPath in
    let existingNamesByDestination : gmap jsstring (gset jsstring) :=
      {[ normalizedDestinationPath := list_to_set (inventory_files inventory) ]} in
    pushed
      (enqueueLoop inventory createTransferId strategy normalizedDestinationPath
         existingNamesByDestination (length candidates)
         {| reservedNamesByDestination := ∅; enqueuedCount := 0;
            batchItems := []; pushed := [] |}
         0%nat candidates).

(** ** TransferQueue

    The items are objects shared by [transferItems], [uploadQueue] and the
    suspended calls of [startUpload]: [heap] holds them, and a reference is
    an index into it. *)

(** Where the asynchronous work started for an item is suspended:
    [startUpload] at [await ensureUploadDestinationPath] or at the [await]
    of the delete; the transport sent and none of its events fired yet; the
    [load] handler at the [await] of the move inside [finalizeUploadedItem],
    or at its own [await] of [finalizeUploadedItem] once that has settled;
    [startUpload] rejected, at [new URL(item.uploadUrl)]. *)
Inductive Task : Type :=
  | AwaitEnsure
  | AwaitDelete
  | AwaitXhr
  | AwaitMove
  | AwaitFinalized
  | Rejected.

Record FileActionResponse : Type := {
  action_ok : bool;
  action_error : option jsstring
}.

Record QueueState : Type := {
  heap : list TransferItem;
  tasks : gmap nat Task;
  transferItems : list nat;
  uploadQueue : list nat;
  activeUploads : Z;
  needsInventoryRefresh : bool
}.

Definition initialState : QueueState :=
  {| heap := []; tasks := ∅; transferItems := []; uploadQueue := [];
     activeUploads := 0; needsInventoryRefresh := false |}.

Definition markStarted (item : TransferItem) : TransferItem :=
  {| item_id := item_id item; item_file := item_file item;
     item_sourceName := item_sourceName item;
     item_targetName := item_targetName item;
     item_targetPath := item_targetPath item;
     item_destinationPath := item_destinationPath item;
     item_uploadUrl := item_uploadUrl item; item_name := item_name item;
     item_size := item_size item; item_loaded := 0; item_progress := 0;
     item_status := uploading;
     item_replaceExisting := item_replaceExisting item;
     item_error := None; item_xhr := item_xhr item |}.

Definition markFailed (message : jsstring) (item : TransferItem) : TransferItem :=
  {| item_id := item_id item; item_file := item_file item;
     item_sourceName := item_sourceName item;
     item_targetName := item_targetName item;
     item_targetPath := item_targetPath item;
     item_destinationPath := item_destinationPath item;
     item_uploadUrl := item_uploadUrl item; item_name := item_name item;
     item_size := item_size item; item_loaded := item_loaded item;
     item_progress := item_progress item;
     item_status := error;
     item_replaceExisting := item_replaceExisting item;
     item_error := Some message; item_xhr := item_xhr item |}.

Definition markComplete (item : TransferItem) : TransferItem :=
  {| item_id := item_id item; item_file := item_file item;
     item_sourceName := item_sourceName item;
     item_targetName := item_targetName item;
     item_targetPath := item_targetPath item;
     item_destinationPath := item_destinationPath item;
     item_uploadUrl := item_uploadUrl item; item_name := item_name item;
     item_size := item_size item;
     item_loaded :=
       if (item_size item =? 0)%Z then item_loaded item else item_size item;
     item_progress := 100;
     item_status := complete;
     item_replaceExisting := item_replaceExisting item;
     item_error := item_error item; item_xhr := item_xhr item |}.

Definition markProgress (loaded progress : Z) (item : TransferItem)
  : TransferItem :=
  {| item_id := item_id item; item_file := item_file item;
     item_sourceName := item_sourceName item;
     item_targetName := item_targetName item;
     item_targetPath := item_targetPath item;
     item_destinationPath := item_destinationPath item;
     item_uploadUrl := item_uploadUrl item; item_name := item_name item;
     item_size := item_size item; item_loaded := loaded;
     item_progress := progress;
     item_status := item_status item;
     item_replaceExisting := item_replaceExisting item;
     item_error := item_error item; item_xhr := item_xhr item |}.

Definition setXhr (xhr : bool) (item : TransferItem) : TransferItem :=
  {| item_id := item_id item; item_file := item_file item;
     item_sourceName := item_sourceName item;
     item_targetName := item_targetName item;
     item_targetPath := item_targetPath item;
     item_destinationPath := item_destinationPath item;
     item_uploadUrl := item_uploadUrl item; item_name := item_name item;
     item_size := item_size item; item_loaded := item_loaded item;
     item_progress := item_progress item;
     item_status := item_status item;
     item_replaceExisting := item_replaceExisting item;
     item_error := item_error item; item_xhr := xhr |}.

(** A field assignment on the object at reference [r]. *)
Definition mutate (r : nat) (f : TransferItem -> TransferItem) (s : QueueState)
  : QueueState :=
  {| heap := alter f r (heap s); tasks := tasks s;
     transferItems := transferItems s; uploadQueue := uploadQueue s;
     activeUploads := activeUploads s;
     needsInventoryRefresh := needsInventoryRefresh s |}.

Definition setTask (r : nat) (task : option Task) (s : QueueState) : QueueState :=
  {| heap := heap s;
     tasks := match task with
              | Some t => <[r := t]> (tasks s)
              | None => delete r (tasks s)
              end;
     transferItems := transferItems s; uploadQueue := uploadQueue s;
     activeUploads := activeUploads s;
     needsInventoryRefresh := needsInventoryRefresh s |}.

Definition setTransferItems (items : list nat) (s : QueueState) : QueueState :=
  {| heap := heap s; tasks := tasks s; transferItems := items;
     uploadQueue := uploadQueue s; activeUploads := activeUploads s;
     needsInventoryRefresh := needsInventoryRefresh s |}.

Definition setUploadQueue (queue : list nat) (s : QueueState) : QueueState :=
  {| heap := heap s; tasks := tasks s; transferItems := transferItems s;
     uploadQueue := queue; activeUploads := activeUploads s;
     needsInventoryRefresh := needsInventoryRefresh s |}.

Definition setActiveUploads (n : Z) (s : QueueState) : QueueState :=
  {| heap := heap s; tasks := tasks s; transferItems := transferItems s;
     uploadQueue := uploadQueue s; activeUploads := n;
     needsInventoryRefresh := needsInventoryRefresh s |}.

Definition setNeedsInventoryRefresh (b : bool) (s : QueueState) : QueueState :=
  {| heap := heap s; tasks := tasks s; transferItems := transferItems s;
     uploadQueue := uploadQueue s; activeUploads := activeUploads s;
     needsInventoryRefresh := b |}.

Definition statusOf (s : QueueState) (r : nat) : option TransferStatus :=
  item_status <$> heap s !! r.

(** The loop of [pruneFinishedTransferHistory], from the newest item down. *)
Fixpoint pruneReversed (s : QueueState) (newestFirst : list nat)
    (finishedCount : nat) : list nat :=
  match newestFirst with
  | [] => []
  | r :: older =>
      match statusOf s r with
      | Some status =>
          if isTransferActive status then r :: pruneReversed s older finishedCount
          else if (MAX_FINISHED_TRANSFER_ITEMS <=? finishedCount)%nat
          then pruneReversed s older finishedCount
          else r :: pruneReversed s older (S finishedCount)
      | None => pruneReversed s older finishedCount
      end
  end.

Definition pruneFinishedTransferHistory (s : QueueState) : QueueState :=
  let next := rev (pruneReversed s (rev (transferItems s)) 0) in
  if (length next =? length (transferItems s))%nat then s
  else setTransferItems next s.

(** [startUpload] up to its first [await]. *)
Definition startUpload (r : nat) (s : QueueState) : QueueState :=
  setTask r (Some AwaitEnsure)
    (mutate r markStarted (setActiveUploads (activeUploads s + 1) s)).

(** The [while] loop of [processUploadQueue] over the queue [queue]. *)
Fixpoint drainQueue (limit : Z) (queue : list nat) (s : QueueState)
  : QueueState :=
  match queue with
  | [] => setUploadQueue [] s
  | next :: rest =>
      if (activeUploads s <? limit)%Z then
        match statusOf s next with
        | Some queued => drainQueue limit rest (startUpload next s)
        | _ => drainQueue limit rest s
        end
      else setUploadQueue queue s
  end.

Definition processUploadQueue (limit : Z) (s : QueueState) : QueueState :=
  drainQueue limit (uploadQueue s) s.

(** [finishUpload(item)]; with it the asynchronous work for the item ends. *)
Definition finishUpload (limit : Z) (r : nat) (s : QueueState) : QueueState :=
  let s := setTask r None (mutate r (setXhr false) s) in
  let s := setActiveUploads (Z.max 0 (activeUploads s - 1)) s in
  let s := processUploadQueue limit s in
  let s := pruneFinishedTransferHistory s in
  if (activeUploads s =? 0)%Z
     && (length (uploadQueue s) =? 0)%nat
     && needsInventoryRefresh s
  then setNeedsInventoryRefresh false s
  else s.

(** [startUpload] from the transport on: [new URL(item.uploadUrl)], then
    the request is opened and sent. *)
Definition beginTransport (r : nat) (item : TransferItem) (s : QueueState)
  : QueueState :=
  match newURL (item_uploadUrl item) with
  | None => setTask r (Some Rejected) s
  | Some _ => setTask r (Some AwaitXhr) (mutate r (setXhr true) s)
  end.

(** [finalizeUploadedItem] up to its [await], or to its end without one. *)
Definition finalizeUploadedItem (r : nat) (item : TransferItem) (s : QueueState)
  : QueueState :=
  let destinationPath := normalizeInventoryPath (item_destinationPath item) in
  match getParentInventoryPath (item_targetPath item) with
  | Some sourceParentPath =>
      if nonEmpty sourceParentPath
         && negb (bool_decide (destinationPath = sourceParentPath))
      then setTask r (Some AwaitMove) s
      else setTask r (Some AwaitFinalized) (mutate r markComplete s)
  | None => setTask r (Some AwaitFinalized) (mutate r markComplete s)
  end.

(** What happens to the page, one event-loop turn each. *)
Inductive Event : Type :=
  | PushBatch (batch : list TransferItem)
  | ProcessQueue
  | EnsureSettled (r : nat) (result : FileActionResponse)
  | DeleteSettled (r : nat) (result : FileActionResponse)
  | XhrProgress (r : nat) (lengthComputable : bool) (loaded progress : Z)
  | XhrLoad (r : nat) (status : nat)
  | XhrError (r : nat)
  | MoveSettled (r : nat) (result : FileActionResponse)
  | LoadResumed (r : nat)
  | CancelTransfer (itemId : jsstring)
  | DismissTransfer (itemId : jsstring)
  | ClearFinishedTransfers.

Definition idOf (s : QueueState) (r : nat) : option jsstring :=
  item_id <$> heap s !! r.

Definition hasId (s : QueueState) (itemId : jsstring) (r : nat) : bool :=
  bool_decide (idOf s r = Some itemId).

(** [uploadQueue.splice(queueIndex, 1)] at the first entry with the id. *)
Fixpoint removeFirstWithId (s : QueueState) (itemId : jsstring)
    (queue : list nat) : list nat :=
  match queue with
  | [] => []
  | r :: rest =>
      if hasId s itemId r then rest else r :: removeFirstWithId s itemId rest
  end.

Definition cancelTransfer (limit : Z) (itemId : jsstring) (s : QueueState)
  : QueueState :=
  match List.find (hasId s itemId) (transferItems s) with
  | None => s
  | Some r =>
      match heap s !! r with
      | None => s
      | Some item =>
          match item_status item with
          | queued =>
              mutate r (markFailed (lit "Upload canceled"))
                (setUploadQueue (removeFirstWithId s itemId (uploadQueue s)) s)
          | uploading =>
              match item_xhr item, tasks s !! r with
              | true, Some AwaitXhr =>
                  finishUpload limit r
                    (mutate r (markFailed (lit "Upload canceled")) s)
              | _, _ => s
              end
          | _ => s
          end
      end
  end.

Definition step (limit : Z) (s : QueueState) (event : Event) : QueueState :=
  match event with
  | PushBatch batch =>
      let refs := seq (length (heap s)) (length batch) in
      let s :=
        {| heap := heap s ++ batch; tasks := tasks s;
           transferItems := transferItems s ++ refs;
           uploadQueue := uploadQueue s ++ refs;
           activeUploads := activeUploads s;
           needsInventoryRefresh := needsInventoryRefresh s |} in
      pruneFinishedTransferHistory (processUploadQueue limit s)
  | ProcessQueue => processUploadQueue limit s
  | EnsureSettled r result =>
      match tasks s !! r, heap s !! r with
      | Some AwaitEnsure, Some item =>
          if negb (action_ok result) then
            finishUpload limit r
              (mutate r
                 (markFailed
                    (orElse (truthy (action_error result))
                       (lit "Unable to prepare destination folder.")))
                 s)
          else if item_replaceExisting item then setTask r (Some AwaitDelete) s
          else beginTransport r item s
      | _, _ => s
      end
  | DeleteSettled r result =>
      match tasks s !! r, heap s !! r with
      | Some AwaitDelete, Some item =>
          let allowMissingDelete :=
            match action_error result with
            | Some message => includes message (lit "HTTP 404")
            | None => false
            end in
          if negb (action_ok result) && negb allowMissingDelete then
            finishUpload limit r
              (mutate r
                 (markFailed
                    (orElse (truthy (action_error result))
                       (lit "Unable to replace " ++ item_targetName item
                        ++ lit ".")))
                 s)
          else beginTransport r item s
      | _, _ => s
      end
  | XhrProgress r lengthComputable loaded progress =>
      match tasks s !! r with
      | Some AwaitXhr =>
          if lengthComputable then mutate r (markProgress loaded progress) s
          else s
      | _ => s
      end
  | XhrLoad r status =>
      match tasks s !! r, heap s !! r with
      | Some AwaitXhr, Some item =>
          if ((200 <=? status) && (status <? 300))%nat
          then finalizeUploadedItem r item s
          else
            finishUpload limit r
              (mutate r
                 (markFailed (lit "Upload failed (" ++ decimal status ++ lit ")"))
                 s)
      | _, _ => s
      end
  | XhrError r =>
      match tasks s !! r with
      | Some AwaitXhr =>
          finishUpload limit r
            (mutate r (markFailed (lit "Upload failed (network error)")) s)
      | _ => s
      end
  | MoveSettled r result =>
      match tasks s !! r with
      | Some AwaitMove =>
          setTask r (Some AwaitFinalized)
            (if negb (action_ok result) then
               mutate r
                 (markFailed
                    (orElse (truthy (action_error result))
                       (lit "Upload complete but move failed.")))
                 s
             else mutate r markComplete s)
      | _ => s
      end
  | LoadResumed r =>
      match tasks s !! r with
      | Some AwaitFinalized =>
          finishUpload limit r (setNeedsInventoryRefresh true s)
      | _ => s
      end
  | CancelTransfer itemId => cancelTransfer limit itemId s
  | DismissTransfer itemId =>
      setTransferItems
        (List.filter (fun r => negb (hasId s itemId r)) (transferItems s)) s
  | ClearFinishedTransfers =>
      setTransferItems
        (List.filter
           (fun r => match statusOf s r with
                     | Some status => isTransferActive status
                     | None => false
                     end)
           (transferItems s))
        s
  end.

Definition run (limit : Z) (events : list Event) : QueueState :=
  fold_left (step limit) events initialState.

(** A batch as [enqueueUploads] makes it: every item is [queued]. *)
Definition freshBatch (batch : list TransferItem) : Prop :=
  List.Forall (fun item => item_status item = queued) batch.

Definition wellFormed (event : Event) : Prop :=
  match event with
  | PushBatch batch => freshBatch batch
  | _ => True
  end.

(** The number of items whose status is [uploading]. *)
Definition uploadingCount (s : QueueState) : nat :=
  length (List.filter
            (fun item => bool_decide (item_status item = uploading))
            (heap s)).

End WithPlatform.

End Page.

(** * A platform for the examples

    The URLs the examples use, parsed as the WHATWG parser parses them; on
    ASCII texts the case mapping is that of the letters [A]-[Z], and the
    URI component coders leave a text of unreserved characters as it is. *)

Module Example.

Record SimpleURL : Type := {
  su_protocol : jsstring;
  su_hostname : jsstring;
  su_port : jsstring;
  su_pathname : jsstring;
  su_search : list (jsstring * jsstring);
  su_hash : jsstring
}.

Definition simpleURL (protocol hostname port pathname : string) : SimpleURL :=
  {| su_protocol := lit protocol; su_hostname := lit hostname;
     su_port := lit port; su_pathname := lit pathname;
     su_search := []; su_hash := [] |}.

Definition knownURLs : list (jsstring * SimpleURL) :=
  [ (lit "http://files.example.com:3923",
     simpleURL "http:" "files.example.com" "3923" "/");
    (lit "http://files.example.com:3923/",
     simpleURL "http:" "files.example.com" "3923" "/");
    (lit "http://files.example.com:5173/api/files",
     simpleURL "http:" "files.example.com" "5173" "/api/files");
    (lit "https://files.example.com/api/files",
     simpleURL "https:" "files.example.com" "" "/api/files");
    (lit "http://app.example.org/api/files",
     simpleURL "http:" "app.example.org" "" "/api/files") ].

Fixpoint lookupURL (table : list (jsstring * SimpleURL)) (text : jsstring)
  : option SimpleURL :=
  match table with
  | [] => None
  | (known, url) :: rest =>
      if bool_decide (known = text) then Some url else lookupURL rest text
  end.

Definition host (url : SimpleURL) : jsstring :=
  if nonEmpty (su_port url) then su_hostname url ++ lit ":" ++ su_port url
  else su_hostname url.

Definition withPathname (url : SimpleURL) (pathname : jsstring) : SimpleURL :=
  {| su_protocol := su_protocol url; su_hostname := su_hostname url;
     su_port := su_port url; su_pathname := pathname;
     su_search := su_search url; su_hash := su_hash url |}.

Definition withHostname (url : SimpleURL) (hostname : jsstring) : SimpleURL :=
  {| su_protocol := su_protocol url; su_hostname := hostname;
     su_port := su_port url; su_pathname := su_pathname url;
     su_search := su_search url; su_hash := su_hash url |}.

Definition withSearch (url : SimpleURL) (search : list (jsstring * jsstring))
  : SimpleURL :=
  {| su_protocol := su_protocol url; su_hostname := su_hostname url;
     su_port := su_port url; su_pathname := su_pathname url;
     su_search := search; su_hash := su_hash url |}.

Definition withoutHash (url : SimpleURL) : SimpleURL :=
  {| su_protocol := su_protocol url; su_hostname := su_hostname url;
     su_port := su_port url; su_pathname := su_pathname url;
     su_search := su_search url; su_hash := [] |}.

Fixpoint setParam (search : list (jsstring * jsstring)) (key value : jsstring)
  : list (jsstring * jsstring) :=
  match search with
  | [] => [(key, value)]
  | (k, v) :: rest =>
      if bool_decide (k = key) then (key, value) :: rest
      else (k, v) :: setParam rest key value
  end.

Definition hasParam (search : list (jsstring * jsstring)) (key : jsstring)
  : bool :=
  existsb (fun '(k, _) => bool_decide (k = key)) search.

Definition serialize (url : SimpleURL) : jsstring :=
  su_protocol url ++ lit "//" ++ host url ++ su_pathname url
  ++ match su_search url with
     | [] => []
     | params =>
         lit "?" ++ join (lit "&") (map (fun '(k, v) => k ++ lit "=" ++ v) params)
     end
  ++ su_hash url.

Definition unreserved (c : N) : bool :=
  ((48 <=? c) && (c <=? 57)) || ((65 <=? c) && (c <=? 90))
  || ((97 <=? c) && (c <=? 122)) || (c =? 45) || (c =? 46) || (c =? 95)
  || (c =? 126).

Definition uriComponent (text : jsstring) : option jsstring :=
  if forallb unreserved text then Some text else None.

(** A relative reference of unreserved characters, resolved against the
    directory of [base]. *)
Definition resolve (href : jsstring) (base : SimpleURL) : option SimpleURL :=
  if forallb unreserved href && nonEmpty href then
    Some (withSearch
            (withoutHash
               (withPathname base
                  (join (lit "/") (removelast (split SLASH (su_pathname base)))
                   ++ lit "/" ++ href)))
            [])
  else None.

Fixpoint compareUnits (a b : jsstring) : Z :=
  match a, b with
  | [], [] => 0%Z
  | [], _ :: _ => (-1)%Z
  | _ :: _, [] => 1%Z
  | x :: a', y :: b' =>
      if x <? y then (-1)%Z else if y <? x then 1%Z else compareUnits a' b'
  end.

#[global] Instance platform : Platform := {|
  URL := SimpleURL;
  newURL := lookupURL knownURLs;
  newURLWithBase := resolve;
  url_protocol := su_protocol;
  url_hostname := su_hostname;
  url_host := host;
  url_pathname := su_pathname;
  url_setPathname := withPathname;
  url_setHostname := withHostname;
  url_clearSearch := fun url => withSearch url [];
  url_clearHash := withoutHash;
  url_searchParamsSet := fun url key value =>
    withSearch url (setParam (su_search url) key value);
  url_searchParamsHas := fun url key => hasParam (su_search url) key;
  url_toString := serialize;
  toLowerCase := asciiLower;
  encodeURIComponent := uriComponent;
  decodeURIComponent := uriComponent;
  parseInt10 := fun _ => None;
  collatorCompare := compareUnits;
  formatModified := fun _ => None
|}.

Definition env : Copyparty.Env :=
  {| Copyparty.COPYPARTY_BASE_URL := Some (lit "http://files.example.com:3923");
     Copyparty.COPYPARTY_PUBLIC_BASE_URL := None;
     Copyparty.COPYPARTY_ROOT_PATH := None;
     Copyparty.COPYPARTY_PASSWORD := None;
     Copyparty.COPYPARTY_COOKIE := Some (lit "cppwd=secret");
     Copyparty.COPYPARTY_TIMEOUT_MS := None |}.

(** A backend that answers every request with [status] and an empty body. *)
Definition answering (status : nat) : FetchLike :=
  fun _ => Resolves {| resp_status := status; resp_text := Some [];
                       resp_json := None |}.

(** A backend that answers every request with [200] and the JSON [payload]. *)
Definition serving (payload : JSValue) : FetchLike :=
  fun _ => Resolves {| resp_status := 200; resp_text := None;
                       resp_json := Some payload |}.

(** [{ "files": [{ "name": name, "sz": sz }] }] *)
Definition oneFile (name : string) (sz : float) : JSValue :=
  JObject
    [ (lit "files",
       JArray [ JObject [ (lit "name", JString (lit name));
                          (lit "sz", JNumber sz) ] ]) ].

(** [{ "action": "delete", "path": "/old.txt" }], posted to [url] with the
    session cookie [sid=abc]. *)
Definition deleteRequest (url : string) : FilesRoute.RequestEvent :=
  {| FilesRoute.request_url := lit url;
     FilesRoute.request_cookie := Some (lit "sid=abc");
     FilesRoute.request_json :=
       Some (JObject [ (lit "action", JString (lit "delete"));
                       (lit "path", JString (lit "/old.txt")) ]) |}.

Definition photo : Page.UploadCandidate :=
  {| Page.cand_file :=
       {| Page.file_name := lit "photo.png"; Page.file_size := 10;
          Page.file_lastModified := 0 |};
     Page.cand_relativePath := lit "photo.png" |}.

Definition inventory : Page.Inventory :=
  {| Page.inventory_currentPath := lit "/";
     Page.inventory_rootPath := lit "/";
     Page.inventory_uploadUrl := lit "http://files.example.com:3923/";
     Page.inventory_files := [lit "photo.png"] |}.

End Example.
(** * Properties *)

Import Copyparty.

(** Evaluation of a closed term inside a goal, leaving the rest of the goal
    as it is. *)
Ltac evaluate t :=
  let v := eval vm_compute in t in change t with v.

(** ** Lemmas on strings *)

Lemma lit_slash : lit "/" = [SLASH].
Proof. reflexivity. Qed.

Lemma split_not_nil sep s : split sep s <> [].
Proof. destruct s as [|c r]; simpl; [done|]. destruct (c =? sep); [done|]. by destruct (split sep r). Qed.

Lemma split_app sep a b :
  split sep (a ++ sep :: b) = split sep a ++ split sep b.
Proof.
  induction a as [|c a IH]; simpl.
  - by rewrite N.eqb_refl.
  - destruct (c =? sep); [by rewrite IH|].
    rewrite IH. destruct (split sep a) eqn:E; [|done].
    by destruct (split_not_nil sep a).
Qed.

Lemma split_no_sep sep s piece : In piece (split sep s) -> ~ In sep piece.
Proof.
  revert piece. induction s as [|c r IH]; simpl; intros piece H.
  - destruct H as [<-|[]]. by intros [].
  - destruct (c =? sep) eqn:E.
    + destruct H as [<-|H]; [by intros []|by apply IH].
    + destruct (split sep r) as [|p ps] eqn:Es.
      * by destruct (split_not_nil sep r).
      * destruct H as [<-|H].
        -- intros [->|Hin]; [by rewrite N.eqb_refl in E|].
           revert Hin. apply IH. by left.
        -- apply IH. by right.
Qed.

Lemma split_chars sep s piece c :
  In piece (split sep s) -> In c piece -> In c s.
Proof.
  revert piece. induction s as [|d r IH]; simpl; intros piece H Hc.
  - by destruct H as [<-|[]].
  - destruct (d =? sep) eqn:E.
    + destruct H as [<-|H]; [done|]. right. by apply (IH piece).
    + destruct (split sep r) as [|p ps] eqn:Es.
      * by destruct (split_not_nil sep r).
      * destruct H as [<-|H].
        -- destruct Hc as [->|Hc]; [by left|]. right. apply (IH p); [by left|done].
        -- right. apply (IH piece); [by right|done].
Qed.

Lemma split_atom sep s : ~ In sep s -> split sep s = [s].
Proof.
  induction s as [|c r IH]; simpl; intros H; [done|].
  destruct (c =? sep) eqn:E.
  - apply N.eqb_eq in E. destruct H. by left.
  - rewrite IH; [done|]. intros Hin. apply H. by right.
Qed.

Lemma join_cons sep x parts :
  parts <> [] -> join sep (x :: parts) = x ++ sep ++ join sep parts.
Proof. by destruct parts. Qed.

Lemma join_split sep s : join [sep] (split sep s) = s.
Proof.
  induction s as [|c r IH]; simpl; [done|].
  destruct (c =? sep) eqn:E.
  - apply N.eqb_eq in E. subst c.
    rewrite join_cons by apply split_not_nil. simpl. by rewrite IH.
  - destruct (split sep r) as [|p ps] eqn:Es.
    + by destruct (split_not_nil sep r).
    + destruct ps as [|q qs]; simpl in *; by rewrite <- IH.
Qed.

Lemma split_join sep parts :
  parts <> [] -> (forall x, In x parts -> ~ In sep x) ->
  split sep (join [sep] parts) = parts.
Proof.
  induction parts as [|x rest IH]; [done|]. intros _ H.
  destruct rest as [|y rest'].
  - simpl. apply split_atom. apply H. by left.
  - rewrite join_cons by done.
    change (x ++ [sep] ++ ?z) with (x ++ sep :: z).
    rewrite split_app. rewrite (split_atom sep x) by (apply H; by left).
    rewrite IH; [done|done|]. intros z Hz. apply H. by right.
Qed.

Lemma join_snoc sep parts x :
  parts <> [] -> join sep (parts ++ [x]) = join sep parts ++ sep ++ x.
Proof.
  induction parts as [|y rest IH]; [done|]. intros _.
  destruct rest as [|z rest'].
  - done.
  - change ((y :: z :: rest') ++ [x]) with (y :: z :: (rest' ++ [x])).
    rewrite (join_cons sep y (z :: (rest' ++ [x]))) by discriminate.
    change (z :: (rest' ++ [x])) with ((z :: rest') ++ [x]).
    rewrite IH by discriminate.
    rewrite (join_cons sep y (z :: rest')) by discriminate.
    by rewrite <- !app_assoc.
Qed.

Lemma trimStart_head s :
  match trimStart s with [] => True | c :: _ => isWhiteSpace c = false end.
Proof.
  induction s as [|c r IH]; simpl; [done|].
  destruct (isWhiteSpace c) eqn:E; [done|]. done.
Qed.

Lemma trimStart_fixed s :
  match s with [] => True | c :: _ => isWhiteSpace c = false end ->
  trimStart s = s.
Proof. destruct s as [|c r]; simpl; [done|]. by intros ->. Qed.

Lemma trimEnd_head s :
  match s with [] => True | c :: _ => isWhiteSpace c = false end ->
  match trimEnd s with [] => True | c :: _ => isWhiteSpace c = false end.
Proof.
  destruct s as [|c r]; simpl; [done|]. intros H.
  destruct (trimEnd r); [by rewrite H|done].
Qed.

Lemma trimEnd_idem s : trimEnd (trimEnd s) = trimEnd s.
Proof.
  induction s as [|c r IH]; simpl; [done|].
  destruct (trimEnd r) as [|k ks] eqn:E.
  - destruct (isWhiteSpace c) eqn:Ec; simpl; [done|by rewrite Ec].
  - change (trimEnd (c :: k :: ks)) with
      (match trimEnd (k :: ks) with
       | [] => if isWhiteSpace c then [] else [c]
       | kept => c :: kept end).
    by rewrite IH.
Qed.

Lemma trim_idem s : trim (trim s) = trim s.
Proof.
  unfold trim. rewrite (trimStart_fixed (trimEnd _)).
  - apply trimEnd_idem.
  - apply trimEnd_head, trimStart_head.
Qed.

Lemma trimStart_chars s c : In c (trimStart s) -> In c s.
Proof.
  induction s as [|d r IH]; simpl; [done|].
  destruct (isWhiteSpace d); [|done]. intros H. right. by apply IH.
Qed.

Lemma trimEnd_chars s c : In c (trimEnd s) -> In c s.
Proof.
  induction s as [|d r IH]; simpl; [done|].
  destruct (trimEnd r) as [|k ks].
  - destruct (isWhiteSpace d); [done|]. intros [->|[]]. by left.
  - intros [->|H]; [by left|]. right. by apply IH.
Qed.

Lemma trim_chars s c : In c (trim s) -> In c s.
Proof. intros H. by apply trimStart_chars, trimEnd_chars. Qed.

Lemma replaceBackslashes_none s c :
  In c (replaceBackslashes s) -> c <> BACKSLASH.
Proof.
  unfold replaceBackslashes. rewrite in_map_iff. intros (d & <- & _).
  destruct (d =? BACKSLASH) eqn:E; [done|]. by apply N.eqb_neq.
Qed.

Lemma replaceBackslashes_fixed s :
  ~ In BACKSLASH s -> replaceBackslashes s = s.
Proof.
  induction s as [|c r IH]; simpl; intros H; [done|].
  destruct (c =? BACKSLASH) eqn:E.
  - apply N.eqb_eq in E. destruct H. by left.
  - rewrite IH; [done|]. intros Hin. apply H. by right.
Qed.

(** ** Lemmas on [normalizePath] *)


Lemma removelast_Forall {A} (P : A -> Prop) (l : list A) :
  List.Forall P l -> List.Forall P (removelast l).
Proof.
  induction l as [|x l IH]; simpl; [done|]. intros H.
  apply List.Forall_cons_iff in H as [Hx Hl].
  destruct l; [constructor|]. constructor; [done|by apply IH].
Qed.

Lemma normalizeStep_kept segments piece :
  ~ In SLASH piece -> ~ In BACKSLASH piece ->
  List.Forall keptSegment segments ->
  List.Forall keptSegment (normalizeStep segments piece).
Proof.
  intros Hs Hb Hall. unfold normalizeStep. cbv zeta.
  destruct (bool_decide (trim piece = [])) eqn:E1; [done|].
  destruct (bool_decide (trim piece = lit ".")) eqn:E2; [done|].
  destruct (bool_decide (trim piece = lit "..")) eqn:E3; simpl.
  - by apply removelast_Forall.
  - apply bool_decide_eq_false in E1, E2, E3.
    apply List.Forall_app. split; [done|]. constructor; [|constructor].
    repeat split; try done.
    + apply trim_idem.
    + intros H. by apply Hs, trim_chars.
    + intros H. by apply Hb, trim_chars.
Qed.

Lemma fold_normalizeStep_kept pieces segments :
  (forall p, In p pieces -> ~ In SLASH p /\ ~ In BACKSLASH p) ->
  List.Forall keptSegment segments ->
  List.Forall keptSegment (fold_left normalizeStep pieces segments).
Proof.
  revert segments. induction pieces as [|p ps IH]; simpl; intros segments H Hall; [done|].
  apply IH; [intros q Hq; apply H; by right|].
  destruct (H p) as [Hs Hb]; [by left|]. by apply normalizeStep_kept.
Qed.

Lemma normalizeSegments_kept path :
  List.Forall keptSegment (normalizeSegments path).
Proof.
  apply fold_normalizeStep_kept; [|constructor].
  intros p Hp. split.
  - by apply (split_no_sep SLASH (replaceBackslashes path)).
  - intros Hin. eapply replaceBackslashes_none; [|reflexivity].
    eapply split_chars; eauto.
Qed.

Lemma normalizeStep_keeps segments t :
  keptSegment t -> normalizeStep segments t = segments ++ [t].
Proof.
  intros (Hne & Htrim & Hdot & Hdots & _). unfold normalizeStep. cbv zeta.
  rewrite Htrim.
  rewrite !bool_decide_eq_false_2 by done. done.
Qed.

Lemma fold_normalizeStep_keeps pieces segments :
  List.Forall keptSegment pieces ->
  fold_left normalizeStep pieces segments = segments ++ pieces.
Proof.
  revert segments. induction pieces as [|p ps IH]; simpl; intros segments H.
  - by rewrite app_nil_r.
  - apply List.Forall_cons_iff in H as [Hp Hps].
    rewrite normalizeStep_keeps by done. rewrite IH by done.
    by rewrite <- app_assoc.
Qed.

Lemma join_chars (sep : jsstring) parts c :
  In c (join sep parts) -> In c sep \/ exists p, In p parts /\ In c p.
Proof.
  induction parts as [|x rest IH]; [done|].
  destruct rest as [|y rest'].
  - simpl. intros H. right. exists x. split; [by left|done].
  - rewrite join_cons by discriminate. rewrite !in_app_iff.
    intros [H|[H|H]].
    + right. exists x. split; [by left|done].
    + by left.
    + destruct (IH H) as [?|(p & Hp & Hc)]; [by left|].
      right. exists p. split; [by right|done].
Qed.

Lemma split_renderPath segments :
  segments <> [] -> List.Forall keptSegment segments ->
  split SLASH (renderPath segments) = [] :: segments.
Proof.
  intros Hne Hall. destruct segments as [|s rest]; [done|].
  unfold renderPath. rewrite lit_slash.
  change ([SLASH] ++ ?z) with (@nil N ++ SLASH :: z).
  rewrite split_app. change (split SLASH []) with [@nil N].
  change ([[]] ++ ?z) with (@nil N :: z). f_equal.
  apply (split_join SLASH); [done|].
  intros x Hx. rewrite List.Forall_forall in Hall. by apply Hall.
Qed.

Lemma renderPath_no_backslash segments :
  List.Forall keptSegment segments -> ~ In BACKSLASH (renderPath segments).
Proof.
  intros Hall. rewrite List.Forall_forall in Hall.
  destruct segments as [|s rest].
  - simpl. intros [H|[]]. discriminate.
  - unfold renderPath. rewrite in_app_iff. intros [H|H].
    + destruct H as [H|[]]. discriminate.
    + apply join_chars in H as [H|(p & Hp & Hc)].
      * destruct H as [H|[]]. discriminate.
      * by apply (Hall p Hp).
Qed.

Lemma normalizeSegments_renderPath segments :
  List.Forall keptSegment segments ->
  normalizeSegments (renderPath segments) = segments.
Proof.
  intros Hall. unfold normalizeSegments.
  rewrite replaceBackslashes_fixed by by apply renderPath_no_backslash.
  destruct segments as [|s rest]; [done|].
  rewrite split_renderPath by done.
  change (fold_left normalizeStep ([] :: ?l) [])
    with (fold_left normalizeStep l (normalizeStep [] [])).
  change (normalizeStep [] []) with (@nil jsstring).
  rewrite fold_normalizeStep_keeps by done. done.
Qed.

Lemma replaceBackslashes_app_slash a b :
  replaceBackslashes (a ++ SLASH :: b)
  = replaceBackslashes a ++ SLASH :: replaceBackslashes b.
Proof. unfold replaceBackslashes. by rewrite map_app. Qed.

Lemma fold_normalizeStep_dotdots n :
  fold_left normalizeStep (repeat (lit "..") n) [] = [].
Proof. induction n as [|n IH]; [done|]. simpl. exact IH. Qed.

Lemma normalizePath_dotdots n :
  normalizePath (join (lit "/") (repeat (lit "..") n)) = lit "/".
Proof.
  unfold normalizePath, normalizeSegments.
  rewrite replaceBackslashes_fixed.
  - destruct n as [|n]; [done|].
    rewrite lit_slash, (split_join SLASH).
    + by rewrite fold_normalizeStep_dotdots.
    + done.
    + intros x Hx. apply repeat_spec in Hx. subst x.
      cbn. intros [H|[H|[]]]; discriminate.
  - intros H. apply join_chars in H as [H|(q & Hq & Hc)].
    + destruct H as [H|[]]. discriminate.
    + apply repeat_spec in Hq. subst q.
      destruct Hc as [H|[H|[]]]; discriminate.
Qed.

(** C6. [normalizePath] is idempotent, and its result is either the root
    ["/"] or a slash followed by segments none of which is empty, [.] or
    [..]; the root is what a path of [..] steps alone normalizes to. *)
Theorem normalizePath_idempotent_clean :
  (forall p, normalizePath (normalizePath p) = normalizePath p)
  /\ (forall p,
        normalizePath p = lit "/"
        \/ exists segments,
             segments <> []
             /\ split SLASH (normalizePath p) = [] :: segments
             /\ List.Forall
                  (fun s => s <> [] /\ s <> lit "." /\ s <> lit "..")
                  segments)
  /\ (forall n, normalizePath (join (lit "/") (repeat (lit "..") n)) = lit "/")
  /\ (forall n, normalizePath (lit "/" ++ join (lit "/") (repeat (lit "..") n)) = lit "/").
Proof.
  split; [|split; [|split]].
  - intros p. unfold normalizePath.
    by rewrite normalizeSegments_renderPath by apply normalizeSegments_kept.
  - intros p. unfold normalizePath.
    pose proof (normalizeSegments_kept p) as Hall.
    destruct (normalizeSegments p) as [|s rest] eqn:E; [by left|].
    right. exists (s :: rest). split; [done|]. split.
    + by apply split_renderPath.
    + eapply List.Forall_impl; [|exact Hall].
      intros t (H1 & _ & H2 & H3 & _). done.
  - intros n. apply normalizePath_dotdots.
  - intros n. unfold normalizePath, normalizeSegments.
    rewrite lit_slash.
    change ([SLASH] ++ ?z) with (@nil N ++ SLASH :: z).
    rewrite replaceBackslashes_app_slash, split_app.
    change (split SLASH (replaceBackslashes [])) with [@nil N].
    change (fold_left normalizeStep ([[]] ++ ?l) [])
      with (fold_left normalizeStep l (normalizeStep [] [])).
    change (normalizeStep [] []) with (@nil jsstring).
    apply (normalizePath_dotdots n).
Qed.

(** ** Parent, leaf name and join *)


Lemma normalizeInto_nil segments : normalizeInto segments [] = segments.
Proof. reflexivity. Qed.

Lemma normalizeInto_app segments a b :
  normalizeInto segments (a ++ SLASH :: b)
  = normalizeInto (normalizeInto segments a) b.
Proof.
  unfold normalizeInto.
  by rewrite replaceBackslashes_app_slash, split_app, fold_left_app.
Qed.

Lemma normalizeInto_join segments parts :
  normalizeInto segments (join [SLASH] parts)
  = fold_left normalizeInto parts segments.
Proof.
  revert segments. induction parts as [|x rest IH]; intros segments; [done|].
  destruct rest as [|y rest']; [done|].
  rewrite join_cons by discriminate.
  change (x ++ [SLASH] ++ ?z) with (x ++ SLASH :: z).
  rewrite normalizeInto_app, IH. done.
Qed.

Lemma fold_normalizeInto_filter parts segments :
  fold_left normalizeInto (filterBoolean parts) segments
  = fold_left normalizeInto parts segments.
Proof.
  revert segments. induction parts as [|x rest IH]; intros segments; [done|].
  destruct x as [|c x]; simpl; apply IH.
Qed.

Lemma normalizeSegments_pieces p :
  normalizeSegments p
  = fold_left normalizeInto (filterBoolean (split SLASH p)) [].
Proof.
  rewrite fold_normalizeInto_filter, <- normalizeInto_join.
  by rewrite join_split.
Qed.

Lemma normalizePath_slash : normalizePath (lit "/") = lit "/".
Proof. reflexivity. Qed.

(** C7. For every path [p] that does not denote the root, the parent and
    the leaf name of [p] exist and joining them gives the normalization
    of [p]. *)
Theorem join_parent_leaf p :
  normalizePath p <> lit "/" ->
  exists parent leaf,
    getParentPath p = Some parent
    /\ getPathLeafName p = Some leaf
    /\ joinPaths parent leaf = normalizePath p.
Proof.
  intros Hroot.
  assert (Hp : p <> lit "/") by (intros ->; by apply Hroot).
  unfold getParentPath, getPathLeafName.
  rewrite bool_decide_eq_false_2 by done.
  destruct (filterBoolean (split SLASH p)) as [|s0 rest0] eqn:Esegs.
  { destruct Hroot. unfold normalizePath.
    by rewrite normalizeSegments_pieces, Esegs. }
  destruct (exists_last (l := s0 :: rest0)) as (init & leaf & Hsnoc); [done|].
  rewrite Hsnoc, removelast_last, last_snoc.
  exists (renderPath init), leaf. split; [done|]. split; [done|].
  unfold joinPaths, normalizePath. f_equal.
  rewrite (normalizeSegments_pieces p), Esegs, Hsnoc, fold_left_app.
  change (normalizeSegments ?q) with (normalizeInto [] q).
  rewrite lit_slash. simpl fold_left.
  destruct init as [|i0 init'].
  - change (renderPath [] ++ [SLASH] ++ leaf)
      with (@nil N ++ SLASH :: (@nil N ++ SLASH :: leaf)).
    by rewrite !normalizeInto_app.
  - unfold renderPath. rewrite lit_slash.
    change (([SLASH] ++ ?j) ++ [SLASH] ++ leaf)
      with (@nil N ++ SLASH :: (j ++ SLASH :: leaf)).
    by rewrite !normalizeInto_app, normalizeInto_join.
Qed.

Lemma join_parent_leaf_witness :
  exists parent leaf,
    getParentPath (lit "/docs/2024/report.csv") = Some parent
    /\ getPathLeafName (lit "/docs/2024/report.csv") = Some leaf
    /\ joinPaths parent leaf = normalizePath (lit "/docs/2024/report.csv").
Proof.
  apply (join_parent_leaf (lit "/docs/2024/report.csv")).
  vm_compute. discriminate.
Defined.

(** ** Extension resolution *)

Lemma lastIndexFrom_absent c s i : ~ In c s -> lastIndexFrom c s i = (-1)%Z.
Proof.
  revert i. induction s as [|d r IH]; simpl; intros i Hc; [done|].
  rewrite IH by (intros Hin; apply Hc; by right). simpl.
  destruct (d =? c) eqn:E; [|done].
  apply N.eqb_eq in E. destruct Hc. by left.
Qed.

Lemma lastIndexFrom_last c a b i :
  (0 <= i)%Z -> ~ In c b ->
  lastIndexFrom c (a ++ c :: b) i = (i + Z.of_nat (length a))%Z.
Proof.
  revert i. induction a as [|d a IH]; intros i Hi Hb.
  - simpl. rewrite lastIndexFrom_absent by done. simpl.
    rewrite N.eqb_refl. lia.
  - change (lastIndexFrom c ((d :: a) ++ c :: b) i) with
      (let later := lastIndexFrom c (a ++ c :: b) (i + 1)%Z in
       if (0 <=? later)%Z then later else if d =? c then i else (-1)%Z).
    rewrite IH by (done || lia). cbv zeta.
    destruct (Z.leb_spec 0 (i + 1 + Z.of_nat (length a))); simpl length; lia.
Qed.

(** The explicit field, lower-cased and trimmed, as [resolveExtension]
    tests it. *)
Definition explicitExtension `{Platform} (rawExtension : JSValue) : jsstring :=
  trim (toLowerCase (asString rawExtension)).

Definition noExplicitExtension `{Platform} (rawExtension : JSValue) : Prop :=
  explicitExtension rawExtension = []
  \/ explicitExtension rawExtension = lit "---"
  \/ explicitExtension rawExtension = lit "%".

Lemma resolveExtension_derived `{Platform} rawExtension name :
  noExplicitExtension rawExtension ->
  resolveExtension rawExtension name
  = let dotIndex := lastIndexOf name DOT in
    if (dotIndex <=? 0)%Z || (Z.of_nat (length name) - 1 <=? dotIndex)%Z
    then None
    else Some (toLowerCase (sliceFrom name (dotIndex + 1))).
Proof.
  unfold noExplicitExtension, explicitExtension, resolveExtension.
  intros [-> | [-> | ->]]; reflexivity.
Qed.

(** C8. The explicit extension field, lower-cased (and trimmed), is the
    result when it is non-empty and not one of the sentinels [---] and [%];
    otherwise the result is the lower-cased text after the last dot of the
    name when that dot is neither its first nor its last character, and
    [null] when the name has no dot, or its last dot is its first or its
    last character. So ["archive.tar.gz"] gives ["gz"], [".bashrc"] and
    ["noext"] give [null], also under a sentinel. *)
Theorem resolveExtension_spec `{Platform} :
  toLowerCase (lit "gz") = lit "gz" ->
  (forall rawExtension name,
     explicitExtension rawExtension <> [] ->
     explicitExtension rawExtension <> lit "---" ->
     explicitExtension rawExtension <> lit "%" ->
     resolveExtension rawExtension name = Some (explicitExtension rawExtension))
  /\ (forall rawExtension stem ext,
        noExplicitExtension rawExtension ->
        stem <> [] -> ext <> [] -> ~ In DOT ext ->
        resolveExtension rawExtension (stem ++ DOT :: ext)
        = Some (toLowerCase ext))
  /\ (forall rawExtension name,
        noExplicitExtension rawExtension ->
        ~ In DOT name \/ (exists rest, name = DOT :: rest /\ ~ In DOT rest)
        \/ (exists stem, name = stem ++ [DOT]) ->
        resolveExtension rawExtension name = None)
  /\ (forall rawExtension,
        noExplicitExtension rawExtension ->
        resolveExtension rawExtension (lit "archive.tar.gz") = Some (lit "gz")
        /\ resolveExtension rawExtension (lit ".bashrc") = None
        /\ resolveExtension rawExtension (lit "noext") = None).
Proof.
  intros Hgz.
  assert (Hsome : forall rawExtension stem ext,
        noExplicitExtension rawExtension ->
        stem <> [] -> ext <> [] -> ~ In DOT ext ->
        resolveExtension rawExtension (stem ++ DOT :: ext)
        = Some (toLowerCase ext)).
  { intros raw stem ext Hraw Hstem Hext Hdot.
    rewrite resolveExtension_derived by done. cbv zeta.
    unfold lastIndexOf. rewrite lastIndexFrom_last by (done || lia).
    rewrite length_app. simpl length.
    destruct stem as [|c stem]; [done|]. destruct ext as [|e ext]; [done|].
    simpl length.
    rewrite (proj2 (Z.leb_gt _ _)) by lia.
    rewrite (proj2 (Z.leb_gt _ _)) by lia.
    simpl orb. cbv iota. unfold sliceFrom. do 2 f_equal.
    replace (Z.to_nat (0 + Z.of_nat (S (length stem)) + 1))
      with (length (c :: stem ++ [DOT])) by (simpl; rewrite length_app; simpl; lia).
    change ((c :: stem) ++ DOT :: e :: ext) with (c :: (stem ++ DOT :: e :: ext)).
    replace (c :: stem ++ DOT :: e :: ext) with ((c :: stem ++ [DOT]) ++ e :: ext)
      by (simpl; by rewrite <- app_assoc).
    by rewrite drop_app_length. }
  assert (Hnone : forall rawExtension name,
        noExplicitExtension rawExtension ->
        ~ In DOT name \/ (exists rest, name = DOT :: rest /\ ~ In DOT rest)
        \/ (exists stem, name = stem ++ [DOT]) ->
        resolveExtension rawExtension name = None).
  { intros raw name Hraw Hname.
    rewrite resolveExtension_derived by done. cbv zeta. unfold lastIndexOf.
    destruct Hname as [Hno | [(rest & -> & Hno) | (stem & ->)]].
    - by rewrite lastIndexFrom_absent.
    - change (DOT :: rest) with ([] ++ DOT :: rest).
      rewrite (lastIndexFrom_last DOT [] rest 0) by (done || lia). done.
    - rewrite (lastIndexFrom_last DOT stem [] 0) by (lia || by intros []).
      rewrite length_app. simpl length.
      rewrite (proj2 (Z.leb_le (Z.of_nat (length stem + 1) - 1) _)) by lia.
      by rewrite orb_true_r. }
  split; [|split; [|split]]; [|exact Hsome|exact Hnone|].
  - intros raw name H1 H2 H3. unfold resolveExtension.
    fold (explicitExtension raw).
    destruct (explicitExtension raw) as [|c e] eqn:E; [done|].
    simpl nonEmpty. rewrite !bool_decide_eq_false_2 by done. done.
  - intros raw Hraw. split; [|split].
    + rewrite <- Hgz.
      apply (Hsome raw (lit "archive.tar") (lit "gz")); try done.
      cbn. intros [?|[?|[]]]; discriminate.
    + apply Hnone; [done|]. right. left. exists (lit "bashrc"). split; [done|].
      cbn. intuition discriminate.
    + apply Hnone; [done|]. left. cbn. intuition discriminate.
Qed.

(** A platform whose case mapping leaves ["gz"] alone. *)
Lemma resolveExtension_spec_witness :
  @resolveExtension Example.platform JUndefined (lit "archive.tar.gz")
  = Some (lit "gz").
Proof.
  refine (proj1 (proj2 (proj2 (proj2
            (@resolveExtension_spec Example.platform _)))
            JUndefined _)).
  - reflexivity.
  - left. reflexivity.
Defined.

(** ** The listing client *)

Lemma asNumber_finite value : is_finite (asNumber value) = true.
Proof.
  destruct value; try reflexivity. simpl.
  destruct (is_finite x) eqn:E; [done|reflexivity].
Qed.

Lemma asNumber_negative value :
  (0 <=? asNumber value)%float = false ->
  exists x, value = JNumber x /\ is_finite x = true /\ asNumber value = x.
Proof.
  destruct value; try (vm_compute; discriminate). simpl.
  destruct (is_finite x) eqn:E; [|vm_compute; discriminate].
  intros _. by exists x.
Qed.

Lemma mapItem_size `{Platform} item kind currentPath rootPath baseUrl password entry :
  mapItem item kind currentPath rootPath baseUrl password = Returned entry ->
  entry_size entry = asNumber (getProp item (lit "sz")).
Proof.
  unfold mapItem. cbv zeta.
  destruct (buildItemHref _ _ _ _ _ _ _) as [href|e]; simpl; [|done].
  by intros [= <-].
Qed.

Lemma mapOutcome_In {A B} (f : A -> Outcome B) items results y :
  mapOutcome f items = Returned results -> In y results ->
  exists x, In x items /\ f x = Returned y.
Proof.
  revert results. induction items as [|x rest IH]; simpl; intros results.
  - intros [= <-] [].
  - destruct (f x) as [y0|e] eqn:Ex; simpl; [|done].
    destruct (mapOutcome f rest) as [ys|e] eqn:Er; simpl; [|done].
    intros [= <-] [<-|Hin].
    + exists x. split; [by left|done].
    + destruct (IH ys eq_refl Hin) as (x' & Hx' & Hf).
      exists x'. split; [by right|done].
Qed.

Lemma insertBy_In {A} (compare : A -> A -> Z) x sorted y :
  In y (insertBy compare x sorted) -> y = x \/ In y sorted.
Proof.
  induction sorted as [|z rest IH]; simpl.
  - intros [<-|[]]. by left.
  - destruct (compare x z <? 0)%Z; simpl.
    + intros [<-|H]; [by left|by right].
    + intros [<-|H]; [right; by left|].
      destruct (IH H) as [->|Hin]; [by left|right; by right].
Qed.

Lemma sortBy_In {A} (compare : A -> A -> Z) items y :
  In y (sortBy compare items) -> In y items.
Proof.
  unfold sortBy.
  assert (Hgen : forall acc, In y (fold_left (fun sorted x => insertBy compare x sorted) items acc)
                        -> In y acc \/ In y items).
  { induction items as [|x rest IH]; simpl; intros acc Hin; [by left|].
    destruct (IH _ Hin) as [Hacc|Hrest]; [|right; by right].
    destruct (insertBy_In _ _ _ _ Hacc) as [->|Hacc']; [right; by left|by left]. }
  intros Hin. by destruct (Hgen [] Hin) as [[]|Hitems].
Qed.

Lemma bindRun_snd `{Platform} {A B} (m : Run A) (k : A -> Run B) :
  snd (m ≫= k)
  = match snd m with
    | Returned a => snd (k a)
    | Thrown e => Thrown e
    end.
Proof.
  unfold mbind, run_bind, bindRun. destruct m as [sent [a|e]]; [|done].
  simpl. by destruct (k a).
Qed.

Lemma bindRun_fst `{Platform} {A B} (m : Run A) (k : A -> Run B) :
  fst (m ≫= k)
  = fst m ++ match snd m with
             | Returned a => fst (k a)
             | Thrown e => []
             end.
Proof.
  unfold mbind, run_bind, bindRun. destruct m as [sent [a|e]]; simpl.
  - by destruct (k a).
  - by rewrite app_nil_r.
Qed.

Lemma lift_snd `{Platform} {A} (o : Outcome A) : snd (lift o) = o.
Proof. reflexivity. Qed.

Lemma lift_fst `{Platform} {A} (o : Outcome A) : fst (lift o) = [].
Proof. reflexivity. Qed.

Lemma await_fetch_fst `{Platform} fetch request :
  fst (await_fetch fetch request) = [request].
Proof. unfold await_fetch. by destruct (fetch request). Qed.

Lemma await_fetch_snd `{Platform} fetch request :
  snd (await_fetch fetch request)
  = match fetch request with
    | Rejects e => Thrown e
    | Resolves r => Returned r
    end.
Proof. unfold await_fetch. by destruct (fetch request). Qed.

(** Rewriting of the outermost bind of a run. *)
Ltac bind_snd :=
  match goal with
  | |- context [snd (@mbind _ _ ?A ?B ?k ?m)] =>
      rewrite (bindRun_snd (A:=A) (B:=B) m k)
  end.

Ltac bind_snd_in Hyp :=
  match type of Hyp with
  | context [snd (@mbind _ _ ?A ?B ?k ?m)] =>
      rewrite (bindRun_snd (A:=A) (B:=B) m k) in Hyp
  end.

Ltac bind_fst :=
  match goal with
  | |- context [fst (@mbind _ _ ?A ?B ?k ?m)] =>
      rewrite (bindRun_fst (A:=A) (B:=B) m k)
  end.

Ltac bind_fst_in Hyp :=
  match type of Hyp with
  | context [fst (@mbind _ _ ?A ?B ?k ?m)] =>
      rewrite (bindRun_fst (A:=A) (B:=B) m k) in Hyp
  end.

Lemma fetchListing_returned `{Platform} env fetch currentPath parentPath rootPath
    baseUrl upstreamPath password publicBaseUrl data :
  snd (fetchListing env fetch currentPath parentPath rootPath baseUrl
         upstreamPath password publicBaseUrl) = Returned data ->
  exists url response payload directories files,
    fetch (listingRequest env url) = Resolves response
    /\ resp_json response = Some payload
    /\ mapOutcome
         (fun item => mapItem item dir currentPath rootPath publicBaseUrl password)
         (asItemArray (getProp payload (lit "dirs"))) = Returned directories
    /\ mapOutcome
         (fun item => mapItem item file currentPath rootPath publicBaseUrl password)
         (asItemArray (getProp payload (lit "files"))) = Returned files
    /\ inv_directories data = sortBy compareByName directories
    /\ inv_files data = sortBy compareByName files.
Proof.
  unfold fetchListing. bind_snd. rewrite lift_snd.
  destruct (buildListingUrl env baseUrl upstreamPath) as [url|e]; [|done].
  cbv beta iota. bind_snd. rewrite lift_snd.
  destruct (buildUploadUrl publicBaseUrl upstreamPath password) as [uploadUrl|e]; [|done].
  cbv beta iota. bind_snd. rewrite await_fetch_snd.
  destruct (fetch (listingRequest env url)) as [e|response] eqn:Efetch; [done|].
  cbv beta iota.
  destruct (resp_ok response) eqn:Eok; simpl negb; cbv iota; [|done].
  bind_snd.
  destruct (resp_json response) as [payload|] eqn:Ejson; [|done].
  intros Hrest.
  destruct payload; try discriminate Hrest;
    change (snd (mret ?p : Run JSValue)) with (Returned p) in Hrest;
    cbv beta iota in Hrest;
    bind_snd_in Hrest; rewrite lift_snd in Hrest;
    (destruct (mapOutcome _ (asItemArray (getProp _ (lit "dirs"))))
      as [directories|e] eqn:Edirs; [|done]);
    cbv beta iota in Hrest; bind_snd_in Hrest; rewrite lift_snd in Hrest;
    (destruct (mapOutcome _ (asItemArray (getProp _ (lit "files"))))
      as [files|e] eqn:Efiles; [|done]);
    injection Hrest as <-;
    eexists url, response, _, directories, files; done.
Qed.

(** X1 (C4, as the code has it). Every entry of a listing comes from a raw item
    of the payload, and its size is the item's [sz] when that is a finite
    number, negative or not, and [0] otherwise: the size is always finite,
    and it is negative only for a raw [sz] that is a negative number. *)
Theorem listing_entry_size `{Platform} env fetch requestedPath requestOrigin
    data entry :
  snd (getInventoryData env fetch requestedPath requestOrigin) = Returned data ->
  In entry (inv_directories data ++ inv_files data) ->
  exists url response payload item,
    fetch (listingRequest env url) = Resolves response
    /\ resp_json response = Some payload
    /\ In item (asItemArray (getProp payload (lit "dirs"))
                ++ asItemArray (getProp payload (lit "files")))
    /\ entry_size entry = asNumber (getProp item (lit "sz"))
    /\ is_finite (entry_size entry) = true
    /\ ((0 <=? entry_size entry)%float = false ->
        getProp item (lit "sz") = JNumber (entry_size entry)).
Proof.
  unfold getInventoryData. cbv zeta.
  destruct (truthy (trim <$> COPYPARTY_BASE_URL env)) as [baseUrl|].
  2:{ simpl. intros [= <-]. by simpl. }
  unfold tryCatch.
  match goal with |- context [fetchListing ?a1 ?a2 ?a3 ?a4 ?a5 ?a6 ?a7 ?a8 ?a9] =>
    pose proof (fetchListing_returned a1 a2 a3 a4 a5 a6 a7 a8 a9) as Hlisting;
    destruct (fetchListing a1 a2 a3 a4 a5 a6 a7 a8 a9) as [sent [listing|err]]
  end.
  2:{ unfold lift, mbind, run_bind, bindRun.
      destruct (buildUploadUrl _ _ _); simpl; [|done].
      intros [= <-]. by simpl. }
  simpl. intros [= <-] Hin.
  destruct (Hlisting listing eq_refl)
    as (url & response & payload & directories & files
        & Hfetch & Hjson & Hdirs & Hfiles & Hd & Hf).
  assert (Hitem : exists item kind currentPath rootPath baseUrl' password,
            In item (asItemArray (getProp payload (lit "dirs"))
                     ++ asItemArray (getProp payload (lit "files")))
            /\ mapItem item kind currentPath rootPath baseUrl' password
               = Returned entry).
  { apply in_app_iff in Hin as [Hin|Hin].
    - rewrite Hd in Hin. apply sortBy_In in Hin.
      destruct (mapOutcome_In _ _ _ _ Hdirs Hin) as (item & Hitem & Hmap).
      exists item. do 5 eexists. split; [|exact Hmap].
      apply in_app_iff. by left.
    - rewrite Hf in Hin. apply sortBy_In in Hin.
      destruct (mapOutcome_In _ _ _ _ Hfiles Hin) as (item & Hitem & Hmap).
      exists item. do 5 eexists. split; [|exact Hmap].
      apply in_app_iff. by right. }
  destruct Hitem as (item & kind & cp & rp & bu & pw & Hitem & Hmap).
  apply mapItem_size in Hmap.
  exists url, response, payload, item.
  repeat split; try done.
  - rewrite Hmap. apply asNumber_finite.
  - rewrite Hmap. intros Hneg.
    destruct (asNumber_negative _ Hneg) as (x & -> & _ & ->). done.
Qed.

Lemma listing_entry_size_witness :
  exists data entry,
    snd (getInventoryData Example.env
           (Example.serving (Example.oneFile "report.csv" 20)) None None)
    = Returned data
    /\ In entry (inv_directories data ++ inv_files data)
    /\ exists url response payload item,
         Example.serving (Example.oneFile "report.csv" 20)
           (listingRequest Example.env url) = Resolves response
         /\ resp_json response = Some payload
         /\ In item (asItemArray (getProp payload (lit "dirs"))
                     ++ asItemArray (getProp payload (lit "files")))
         /\ entry_size entry = asNumber (getProp item (lit "sz"))
         /\ is_finite (entry_size entry) = true
         /\ ((0 <=? entry_size entry)%float = false ->
             getProp item (lit "sz") = JNumber (entry_size entry)).
Proof.
  eexists. eexists. split; [vm_compute; reflexivity|]. split.
  - left. reflexivity.
  - eapply (listing_entry_size Example.env
              (Example.serving (Example.oneFile "report.csv" 20)) None None).
    + vm_compute. reflexivity.
    + left. reflexivity.
Defined.

(** C4 as stated fails: a listing whose file has [sz = -5] gives an entry
    of size [-5]. *)
Lemma listing_negative_size :
  exists data entry,
    snd (getInventoryData Example.env
           (Example.serving (Example.oneFile "broken.bin" (-5))) None None)
    = Returned data
    /\ In entry (inv_files data)
    /\ entry_size entry = (-5)%float
    /\ (0 <=? entry_size entry)%float = false.
Proof.
  eexists. eexists. split; [vm_compute; reflexivity|].
  split; [left; reflexivity|]. split; reflexivity.
Qed.

(** ** The mutation client *)

Lemma normalizeInto_kept segments t :
  keptSegment t -> normalizeInto segments t = segments ++ [t].
Proof.
  intros Hk. pose proof Hk as (_ & _ & _ & _ & Hs & Hb).
  unfold normalizeInto.
  rewrite replaceBackslashes_fixed, split_atom by done.
  simpl. by apply normalizeStep_keeps.
Qed.

Lemma normalizeSegments_normalizePath p :
  normalizeSegments (normalizePath p) = normalizeSegments p.
Proof. apply normalizeSegments_renderPath, normalizeSegments_kept. Qed.

Lemma joinPaths_kept base child :
  keptSegment child ->
  joinPaths base child = renderPath (normalizeSegments base ++ [child]).
Proof.
  intros Hk. unfold joinPaths, normalizePath. f_equal.
  change (normalizeSegments ?q) with (normalizeInto [] q).
  rewrite lit_slash.
  change (base ++ [SLASH] ++ child) with (base ++ SLASH :: child).
  by rewrite normalizeInto_app, normalizeInto_kept.
Qed.

Lemma renderPath_root segments :
  List.Forall keptSegment segments ->
  renderPath segments = lit "/" -> segments = [].
Proof.
  destruct segments as [|s rest]; [done|]. intros Hall.
  apply List.Forall_cons_iff in Hall as [(Hne & _) _].
  unfold renderPath. rewrite lit_slash.
  destruct s as [|c s]; [done|].
  destruct rest; simpl; discriminate.
Qed.

Lemma renderPath_inj a b :
  List.Forall keptSegment a -> List.Forall keptSegment b ->
  renderPath a = renderPath b -> a = b.
Proof.
  intros Ha Hb Heq.
  destruct a as [|x a'], b as [|y b']; [done| | |].
  - symmetry in Heq. by apply renderPath_root in Heq.
  - by apply renderPath_root in Heq.
  - assert (Hsplit : split SLASH (renderPath (x :: a'))
                     = split SLASH (renderPath (y :: b'))) by by rewrite Heq.
    rewrite !split_renderPath in Hsplit by done. by injection Hsplit as -> ->.
Qed.

Lemma includes_unit s c : includes s [c] = false -> ~ In c s.
Proof.
  induction s as [|d s IH]; [by intros _ []|].
  change (includes (d :: s) [c])
    with (((d =? c) && startsWith s []) || includes s [c]).
  destruct (d =? c) eqn:Hd; [by destruct s|]. simpl.
  intros Hs [->|Hin]; [by rewrite N.eqb_refl in Hd|by apply IH].
Qed.

Lemma sanitizeLeafName_kept value label cleaned :
  sanitizeLeafName value label = Returned cleaned -> keptSegment cleaned.
Proof.
  unfold sanitizeLeafName. cbv zeta.
  destruct (trim value) as [|c t] eqn:Et; [done|]. simpl negb. cbv iota.
  destruct (bool_decide (_ = lit ".")) eqn:E1; cbn [orb]; [intros [=]|].
  destruct (bool_decide (_ = lit "..")) eqn:E2; [intros [=]|].
  rewrite lit_slash.
  destruct (includes (c :: t) [SLASH]) eqn:E3; cbn [orb]; [intros [=]|].
  destruct (includes (c :: t) [BACKSLASH]) eqn:E4; [intros [=]|].
  intros [= <-].
  apply bool_decide_eq_false in E1, E2.
  repeat split; try done.
  - rewrite <- Et. apply trim_idem.
  - by apply includes_unit.
  - by apply includes_unit.
Qed.

(** X2 (C2, as the code has it). Deleting, renaming and moving a path that
    denotes the root fail before any request is sent. Creating a directory
    has no check on the root: whenever it sends a request, the folder name
    has passed validation and the path of the new directory, the parent
    joined with that name, is not the root. *)
Theorem mutations_never_touch_root `{Platform} env fetch requestCookie :
  (forall targetPath,
     normalizePath targetPath = lit "/" ->
     exists e,
       deleteInventoryPath env fetch targetPath requestCookie = ([], Thrown e))
  /\ (forall targetPath newName,
        normalizePath targetPath = lit "/" ->
        exists e,
          renameInventoryPath env fetch targetPath newName requestCookie
          = ([], Thrown e))
  /\ (forall targetPath destinationPath,
        normalizePath targetPath = lit "/" ->
        exists e,
          moveInventoryPath env fetch targetPath destinationPath requestCookie
          = ([], Thrown e))
  /\ (forall parentPath folderName,
        fst (createInventoryDirectory env fetch parentPath folderName
               requestCookie) <> [] ->
        exists safeFolderName,
          sanitizeLeafName folderName (lit "Folder name")
          = Returned safeFolderName
          /\ joinPaths (normalizePath parentPath) safeFolderName
             = renderPath (normalizeSegments parentPath ++ [safeFolderName])
          /\ joinPaths (normalizePath parentPath) safeFolderName <> lit "/").
Proof.
  split; [|split; [|split]].
  - intros targetPath Hroot. unfold deleteInventoryPath.
    unfold mbind, run_bind, bindRun, lift, throw.
    destruct (getCopypartyConnection env) as [connection|e]; [|by exists e].
    cbv zeta. rewrite Hroot. rewrite bool_decide_eq_true_2 by done.
    by eexists.
  - intros targetPath newName Hroot. unfold renameInventoryPath.
    unfold mbind, run_bind, bindRun, lift, throw.
    destruct (getCopypartyConnection env) as [connection|e]; [|by exists e].
    cbv zeta. rewrite Hroot. rewrite bool_decide_eq_true_2 by done.
    by eexists.
  - intros targetPath destinationPath Hroot. unfold moveInventoryPath.
    unfold mbind, run_bind, bindRun, lift, throw.
    destruct (getCopypartyConnection env) as [connection|e]; [|by exists e].
    cbv zeta. rewrite Hroot. rewrite bool_decide_eq_true_2 by done.
    by eexists.
  - intros parentPath folderName. unfold createInventoryDirectory.
    unfold mbind, run_bind, bindRun, lift, throw.
    destruct (getCopypartyConnection env) as [connection|e]; [|done].
    destruct (sanitizeLeafName folderName (lit "Folder name"))
      as [safeFolderName|e] eqn:Esafe; [|done].
    intros _. exists safeFolderName.
    pose proof (sanitizeLeafName_kept _ _ _ Esafe) as Hk.
    assert (Hjoin : joinPaths (normalizePath parentPath) safeFolderName
                    = renderPath (normalizeSegments parentPath ++ [safeFolderName])).
    { by rewrite joinPaths_kept, normalizeSegments_normalizePath. }
    split; [done|]. split; [done|].
    rewrite Hjoin. intros Hroot. apply renderPath_root in Hroot.
    + by destruct (normalizeSegments parentPath).
    + apply List.Forall_app. split; [apply normalizeSegments_kept|].
      by constructor.
Qed.

Lemma mutations_never_touch_root_witness :
  exists e,
    deleteInventoryPath Example.env (Example.answering 204) (lit "/docs/..") None
    = ([], Thrown e).
Proof.
  apply (proj1 (mutations_never_touch_root Example.env (Example.answering 204) None)).
  vm_compute. reflexivity.
Defined.

(** C2 as stated fails for [createInventoryDirectory]: given the root as
    the parent path, it sends its [MKCOL] request and returns. *)
Lemma createInventoryDirectory_at_root :
  exists request,
    createInventoryDirectory Example.env (Example.answering 201)
      (lit "/") (lit "incoming") None
    = ([request], Returned tt)
    /\ req_method request = lit "MKCOL"
    /\ url_pathname (req_url request) = lit "/incoming/".
Proof. eexists. split; [vm_compute; reflexivity|]. split; reflexivity. Qed.

(** ** Cookies on the way to the backend *)

(** Every request a run has sent satisfies [P]. *)
Definition sends `{Platform} {A} (P : Request -> Prop) (m : Run A) : Prop :=
  forall request, In request (fst m) -> P request.

Lemma sends_bind `{Platform} {A B} P (m : Run A) (k : A -> Run B) :
  sends P m -> (forall a, snd m = Returned a -> sends P (k a)) ->
  sends P (m ≫= k).
Proof.
  intros Hm Hk request. rewrite bindRun_fst, in_app_iff.
  intros [Hin|Hin]; [by apply Hm|].
  destruct (snd m) as [a|e] eqn:E; [|done]. by apply (Hk a).
Qed.

Lemma sends_nothing `{Platform} {A} P (m : Run A) : fst m = [] -> sends P m.
Proof. intros Hm request. by rewrite Hm. Qed.

Lemma sends_tryCatch `{Platform} {A} P (m : Run A) handler :
  sends P m -> (forall e, sends P (handler e)) -> sends P (tryCatch m handler).
Proof.
  intros Hm Hh request. unfold tryCatch.
  destruct m as [sent [a|e]]; [apply Hm|].
  specialize (Hh e). destruct (handler e) as [sent' o]. simpl.
  rewrite in_app_iff. intros [Hin|Hin]; [by apply Hm|by apply Hh].
Qed.

(** The value of the [Cookie] header for the configured cookie [baseline]
    and the cookie [forwarded] by the endpoint. *)
Definition cookieHeader (baseline forwarded : jsstring) : option jsstring :=
  let merged := mergeCookies baseline forwarded in
  if nonEmpty merged then Some merged else None.

Definition carries `{Platform} (cookie : option jsstring) (request : Request)
  : Prop :=
  req_headers request !! lit "cookie" = cookie.

Lemma fetchCopyparty_cookie `{Platform} (connection : CopypartyConnection)
    (fetch : FetchLike) (url : URL) (verb : jsstring)
    (initHeaders : gmap jsstring jsstring) (requestCookie : option jsstring) :
  initHeaders !! lit "cookie" = None ->
  sends (carries (cookieHeader (conn_cookie connection) (orElse requestCookie [])))
    (fetchCopyparty connection fetch url verb initHeaders requestCookie).
Proof.
  intros Hinit request. unfold fetchCopyparty. cbv zeta.
  rewrite await_fetch_fst. intros [<-|[]].
  unfold carries, cookieHeader. cbv zeta. simpl req_headers.
  destruct (nonEmpty (mergeCookies _ _)).
  - by rewrite lookup_insert_eq.
  - rewrite !lookup_insert_ne by (vm_compute; discriminate).
    rewrite !lookup_delete_ne by (vm_compute; discriminate). done.
Qed.

Lemma getCopypartyConnection_cookie `{Platform} env connection :
  getCopypartyConnection env = Returned connection ->
  conn_cookie connection = orElse (trim <$> COPYPARTY_COOKIE env) [].
Proof.
  unfold getCopypartyConnection.
  destruct (truthy _); [|done]. by intros [= <-].
Qed.

Lemma moveScopedPath_cookie `{Platform} connection fetch sourcePath
    destinationPath requestCookie errorPrefix :
  sends (carries (cookieHeader (conn_cookie connection) (orElse requestCookie [])))
    (moveScopedPath connection fetch sourcePath destinationPath requestCookie
       errorPrefix).
Proof.
  unfold moveScopedPath.
  apply sends_bind; [by apply sends_nothing|]. intros sourceUrl _.
  apply sends_bind; [by apply sends_nothing|]. intros destinationUrl _.
  cbv zeta. apply sends_bind.
  - apply fetchCopyparty_cookie.
    rewrite lookup_insert_ne by (vm_compute; discriminate).
    by rewrite lookup_singleton_ne by (vm_compute; discriminate).
  - intros response _. destruct (resp_ok response); by apply sends_nothing.
Qed.

Lemma mutation_cookies `{Platform} env fetch requestCookie :
  let cookie :=
    cookieHeader (orElse (trim <$> COPYPARTY_COOKIE env) [])
      (orElse requestCookie []) in
  (forall targetPath,
     sends (carries cookie)
       (deleteInventoryPath env fetch targetPath requestCookie))
  /\ (forall targetPath newName,
        sends (carries cookie)
          (renameInventoryPath env fetch targetPath newName requestCookie))
  /\ (forall targetPath destinationPath,
        sends (carries cookie)
          (moveInventoryPath env fetch targetPath destinationPath requestCookie))
  /\ (forall parentPath folderName,
        sends (carries cookie)
          (createInventoryDirectory env fetch parentPath folderName
             requestCookie)).
Proof.
  cbv zeta. split; [|split; [|split]].
  - intros targetPath. unfold deleteInventoryPath.
    apply sends_bind; [by apply sends_nothing|]. intros connection Hc.
    rewrite lift_snd in Hc. apply getCopypartyConnection_cookie in Hc as <-.
    cbv zeta. destruct (bool_decide _); [by apply sends_nothing|].
    apply sends_bind; [by apply sends_nothing|]. intros url _.
    apply sends_bind; [by apply fetchCopyparty_cookie|].
    intros response _. destruct (resp_ok response); by apply sends_nothing.
  - intros targetPath newName. unfold renameInventoryPath.
    apply sends_bind; [by apply sends_nothing|]. intros connection Hc.
    rewrite lift_snd in Hc. apply getCopypartyConnection_cookie in Hc as <-.
    cbv zeta. destruct (bool_decide _); [by apply sends_nothing|].
    apply sends_bind; [by apply sends_nothing|]. intros safeName _.
    destruct (getParentPath _); [|by apply sends_nothing].
    destruct (bool_decide _); [by apply sends_nothing|].
    apply moveScopedPath_cookie.
  - intros targetPath destinationPath. unfold moveInventoryPath.
    apply sends_bind; [by apply sends_nothing|]. intros connection Hc.
    rewrite lift_snd in Hc. apply getCopypartyConnection_cookie in Hc as <-.
    cbv zeta. destruct (bool_decide _); [by apply sends_nothing|].
    destruct (truthy _); [|by apply sends_nothing].
    destruct (bool_decide _); [by apply sends_nothing|].
    apply moveScopedPath_cookie.
  - intros parentPath folderName. unfold createInventoryDirectory.
    apply sends_bind; [by apply sends_nothing|]. intros connection Hc.
    rewrite lift_snd in Hc. apply getCopypartyConnection_cookie in Hc as <-.
    apply sends_bind; [by apply sends_nothing|]. intros safeFolderName _.
    cbv zeta.
    apply sends_bind; [by apply sends_nothing|]. intros url _.
    apply sends_bind; [by apply fetchCopyparty_cookie|].
    intros response _. destruct (resp_ok response); [by apply sends_nothing|].
    destruct (_ || _); by apply sends_nothing.
Qed.

Lemma cookieHeader_baseline baseline :
  cookieHeader baseline [] = if nonEmpty baseline then Some baseline else None.
Proof. by destruct baseline. Qed.

(** X3 (C3, as the code has it). The inbound [Cookie] header is forwarded exactly
    when the backend base URL is configured, both URLs parse, and the
    inbound URL has the protocol and the hostname of the base URL (ports
    are not compared). Every request the endpoint sends to the backend
    carries the configured cookie merged with the forwarded one, and the
    configured cookie alone when none is forwarded. *)
Theorem cookie_forwarding `{Platform} env fetch event :
  let forward :=
    FilesRoute.shouldForwardRequestCookies (FilesRoute.request_url event)
      (trim <$> COPYPARTY_BASE_URL env) in
  let baseline := orElse (trim <$> COPYPARTY_COOKIE env) [] in
  (forward = true <->
   exists baseUrl requestOrigin copypartyOrigin,
     truthy (trim <$> COPYPARTY_BASE_URL env) = Some baseUrl
     /\ newURL (FilesRoute.request_url event) = Some requestOrigin
     /\ newURL baseUrl = Some copypartyOrigin
     /\ url_protocol requestOrigin = url_protocol copypartyOrigin
     /\ url_hostname requestOrigin = url_hostname copypartyOrigin)
  /\ (forall request,
        In request (fst (FilesRoute.POST env fetch event)) ->
        req_headers request !! lit "cookie"
        = if forward
          then cookieHeader baseline
                 (orElse (FilesRoute.request_cookie event) [])
          else if nonEmpty baseline then Some baseline else None).
Proof.
  cbv zeta. split.
  - unfold FilesRoute.shouldForwardRequestCookies.
    destruct (truthy (trim <$> COPYPARTY_BASE_URL env)) as [baseUrl|].
    2:{ split; [done|]. by intros (? & ? & ? & ? & _). }
    destruct (newURL (FilesRoute.request_url event)) as [requestOrigin|].
    2:{ split; [done|]. by intros (? & ? & ? & _ & ? & _). }
    destruct (newURL baseUrl) as [copypartyOrigin|] eqn:Ebase.
    2:{ split; [done|]. intros (? & ? & ? & [= <-] & _ & Hb & _). congruence. }
    rewrite andb_true_iff, !bool_decide_eq_true. split.
    + intros [Hp Hh]. by exists baseUrl, requestOrigin, copypartyOrigin.
    + intros (? & ? & ? & [= <-] & [= <-] & Hb & Hp & Hh).
      rewrite Ebase in Hb. by injection Hb as <-.
  - assert (Hsends :
      sends (carries (cookieHeader (orElse (trim <$> COPYPARTY_COOKIE env) [])
                        (FilesRoute.forwardedCookie env event)))
        (FilesRoute.POST env fetch event)).
    { destruct (mutation_cookies env fetch
                  (Some (FilesRoute.forwardedCookie env event)))
        as (Hdelete & Hrename & Hmove & Hmkdir).
      simpl orElse in Hdelete, Hrename, Hmove, Hmkdir.
      unfold FilesRoute.POST.
      destruct (FilesRoute.request_json event) as [payload|];
        [|by apply sends_nothing].
      assert (Hdispatch : forall payload action,
        sends (carries (cookieHeader (orElse (trim <$> COPYPARTY_COOKIE env) [])
                          (FilesRoute.forwardedCookie env event)))
          (FilesRoute.dispatch env fetch payload action
             (FilesRoute.forwardedCookie env event))).
      { intros p action. unfold FilesRoute.dispatch.
        destruct (bool_decide (action = lit "delete")).
        { destruct (negb _); [by apply sends_nothing|].
          apply sends_bind; [apply Hdelete|intros; by apply sends_nothing]. }
        destruct (bool_decide (action = lit "rename")).
        { destruct (negb _); [by apply sends_nothing|].
          destruct (negb _); [by apply sends_nothing|].
          apply sends_bind; [apply Hrename|intros; by apply sends_nothing]. }
        destruct (bool_decide (action = lit "mkdir")).
        { destruct (negb _); [by apply sends_nothing|].
          destruct (negb _); [by apply sends_nothing|].
          apply sends_bind; [apply Hmkdir|intros; by apply sends_nothing]. }
        destruct (bool_decide (action = lit "move")).
        { destruct (negb _); [by apply sends_nothing|].
          destruct (negb _); [by apply sends_nothing|].
          apply sends_bind; [apply Hmove|intros; by apply sends_nothing]. }
        by apply sends_nothing. }
      destruct payload; try (by apply sends_nothing);
        (apply sends_tryCatch; [apply Hdispatch|intros; by apply sends_nothing]). }
    intros request Hin. specialize (Hsends request Hin).
    unfold carries, FilesRoute.forwardedCookie in Hsends.
    destruct (FilesRoute.shouldForwardRequestCookies _ _); [done|].
    by rewrite cookieHeader_baseline in Hsends.
Qed.

Lemma cookie_forwarding_witness :
  exists request,
    fst (FilesRoute.POST Example.env (Example.answering 204)
           (Example.deleteRequest "http://files.example.com:5173/api/files"))
    = [request]
    /\ req_headers request !! lit "cookie"
       = Some (lit "cppwd=secret; sid=abc").
Proof.
  assert (Hsent : exists request,
            fst (FilesRoute.POST Example.env (Example.answering 204)
                   (Example.deleteRequest
                      "http://files.example.com:5173/api/files")) = [request]).
  { evaluate (fst (FilesRoute.POST Example.env (Example.answering 204)
                     (Example.deleteRequest
                        "http://files.example.com:5173/api/files"))).
    eexists. reflexivity. }
  destruct Hsent as [request Hsent]. exists request. split; [exact Hsent|].
  rewrite (proj2 (cookie_forwarding Example.env (Example.answering 204)
                    (Example.deleteRequest
                       "http://files.example.com:5173/api/files")) request)
    by (rewrite Hsent; by left).
  reflexivity.
Defined.

(** C3 as stated fails in both directions. A request from
    [https://files.example.com] names the host of the backend
    [http://files.example.com:3923], and its cookie is not forwarded: the
    protocols differ. A request from [http://files.example.com:5173] is of
    another origin than the backend, by its port, and its cookie is sent to
    the backend. *)
Lemma cookie_forwarding_not_by_host :
  (exists requestOrigin copypartyOrigin request,
     newURL (lit "https://files.example.com/api/files") = Some requestOrigin
     /\ newURL (lit "http://files.example.com:3923") = Some copypartyOrigin
     /\ url_hostname requestOrigin = url_hostname copypartyOrigin
     /\ fst (FilesRoute.POST Example.env (Example.answering 204)
               (Example.deleteRequest "https://files.example.com/api/files"))
        = [request]
     /\ req_headers request !! lit "cookie" = Some (lit "cppwd=secret"))
  /\ (exists requestOrigin copypartyOrigin request,
        newURL (lit "http://files.example.com:5173/api/files") = Some requestOrigin
        /\ newURL (lit "http://files.example.com:3923") = Some copypartyOrigin
        /\ url_host requestOrigin <> url_host copypartyOrigin
        /\ fst (FilesRoute.POST Example.env (Example.answering 204)
                  (Example.deleteRequest "http://files.example.com:5173/api/files"))
           = [request]
        /\ req_headers request !! lit "cookie"
           = Some (lit "cppwd=secret; sid=abc")).
Proof.
  split.
  - evaluate (fst (FilesRoute.POST Example.env (Example.answering 204)
                     (Example.deleteRequest "https://files.example.com/api/files"))).
    eexists _, _, _. split; [reflexivity|]. split; [reflexivity|].
    split; [reflexivity|]. split; [reflexivity|]. reflexivity.
  - evaluate (fst (FilesRoute.POST Example.env (Example.answering 204)
                     (Example.deleteRequest
                        "http://files.example.com:5173/api/files"))).
    eexists _, _, _. split; [reflexivity|]. split; [reflexivity|].
    split; [discriminate|]. split; [reflexivity|]. reflexivity.
Qed.

(** ** Failures of the listing request *)

(** The request failed: [fetch] rejected (network error, or the abort at
    the deadline), the status is not a success, or the body is not JSON. *)
Definition failed (outcome : FetchOutcome) : Prop :=
  match outcome with
  | Rejects _ => True
  | Resolves response =>
      resp_ok response = false \/ resp_json response = None
  end.

Definition failureMessage `{Platform} (outcome : FetchOutcome) : jsstring :=
  match outcome with
  | Rejects e => resolveErrorMessage e
  | Resolves response =>
      if negb (resp_ok response)
      then lit "Copyparty responded with HTTP "
           ++ decimal (resp_status response) ++ lit "."
      else lit "Copyparty did not return JSON. Verify `?ls` access and credentials."
  end.

Lemma fetchListing_runs `{Platform} env fetch currentPath parentPath rootPath
    baseUrl upstreamPath password publicBaseUrl :
  let run :=
    fetchListing env fetch currentPath parentPath rootPath baseUrl
      upstreamPath password publicBaseUrl in
  fst run = []
  \/ exists url uploadUrl,
       buildUploadUrl publicBaseUrl upstreamPath password = Returned uploadUrl
       /\ fst run = [listingRequest env url]
       /\ ((exists data, snd run = Returned data /\ inv_configured data = true
                         /\ ~ failed (fetch (listingRequest env url)))
           \/ (exists e, snd run = Thrown e
                 /\ (failed (fetch (listingRequest env url)) ->
                     resolveErrorMessage e
                     = failureMessage (fetch (listingRequest env url))))).
Proof.
  cbv zeta. unfold fetchListing.
  destruct (buildListingUrl env baseUrl upstreamPath) as [url|e] eqn:Eurl;
    [|left; by bind_fst].
  destruct (buildUploadUrl publicBaseUrl upstreamPath password)
    as [uploadUrl|e] eqn:Eupload.
  2:{ left. bind_fst. rewrite lift_fst, lift_snd. cbv beta iota.
      by bind_fst. }
  right. exists url, uploadUrl. split; [done|].
  bind_fst. bind_snd. rewrite lift_fst, lift_snd. cbv beta iota.
  bind_fst. bind_snd. rewrite lift_fst, lift_snd. cbv beta iota.
  bind_fst. bind_snd. rewrite await_fetch_fst, await_fetch_snd.
  destruct (fetch (listingRequest env url)) as [e|response] eqn:Efetch.
  { split; [done|]. right. by exists e. }
  cbv beta iota.
  destruct (resp_ok response) eqn:Eok; simpl negb; cbv iota.
  2:{ split; [done|]. right. eexists. split; [reflexivity|]. intros _.
      unfold failureMessage. by rewrite Eok. }
  destruct (resp_json response) as [payload|] eqn:Ejson.
  2:{ bind_fst. bind_snd. split; [done|]. right. eexists.
      split; [reflexivity|]. intros _. unfold failureMessage. by rewrite Eok. }
  assert (Hnot : ~ failed (Resolves response)).
  { simpl. rewrite Eok, Ejson. by intros [|]. }
  bind_fst. bind_snd.
  match goal with
  | |- context [fst ?g ++ _] =>
      match g with
      | match payload with _ => _ end => set (guard := g)
      end
  end.
  assert (Hguard : guard = throw (typeError (lit "Cannot read properties of null"))
                   \/ guard = mret payload).
  { subst guard. destruct payload; auto. }
  clearbody guard. destruct Hguard as [-> | ->].
  { split; [done|]. right. eexists. split; [reflexivity|].
    intros Hf. by destruct Hnot. }
  change (fst (mret payload : Run JSValue)) with (@nil Request).
  change (snd (mret payload : Run JSValue)) with (Returned payload).
  cbv beta iota.
  bind_fst. bind_snd. rewrite lift_fst, lift_snd.
  destruct (mapOutcome _ (asItemArray (getProp payload (lit "dirs"))))
    as [directories|e].
  2:{ split; [done|]. right. eexists. split; [reflexivity|].
      intros Hf. by destruct Hnot. }
  cbv beta iota.
  bind_fst. bind_snd. rewrite lift_fst, lift_snd.
  destruct (mapOutcome _ (asItemArray (getProp payload (lit "files"))))
    as [files|e].
  2:{ split; [done|]. right. eexists. split; [reflexivity|].
      intros Hf. by destruct Hnot. }
  split; [done|]. left. eexists. split; [reflexivity|]. done.
Qed.


(** X4 (C9). Without a configured backend the result is [configured: false]
    with no error and no request. Once the listing request has been sent,
    [getInventoryData] returns a result whatever happens, and when the
    request failed (rejection, status that is not a success, body that is
    not JSON) the result has [configured: true], no directories, no files,
    [totalBytes] 0 and the message of the failure; for the abort at the
    deadline that message is ["Copyparty request timed out."], which no
    failure of status or of body produces. *)
Theorem listing_failures_absorbed `{Platform} env fetch requestedPath
    requestOrigin :
  let run := getInventoryData env fetch requestedPath requestOrigin in
  (truthy (trim <$> COPYPARTY_BASE_URL env) = None ->
   exists data,
     run = ([], Returned data)
     /\ inv_configured data = false /\ inv_error data = None
     /\ inv_directories data = [] /\ inv_files data = []
     /\ inv_totalBytes data = 0%float)
  /\ (forall request,
        In request (fst run) ->
        exists data,
          snd run = Returned data
          /\ inv_configured data = true
          /\ (failed (fetch request) ->
              inv_directories data = [] /\ inv_files data = []
              /\ inv_totalBytes data = 0%float
              /\ inv_error data = Some (failureMessage (fetch request))))
  /\ (forall message,
        failureMessage (Rejects (ErrorObject true (lit "AbortError") message))
        = lit "Copyparty request timed out.")
  /\ (forall response,
        failureMessage (Resolves response)
        <> lit "Copyparty request timed out.").
Proof.
  cbv zeta. split; [|split; [|split]].
  - intros Hnone. unfold getInventoryData. cbv zeta. rewrite Hnone.
    eexists. split; [reflexivity|]. done.
  - intros request. unfold getInventoryData. cbv zeta.
    destruct (truthy (trim <$> COPYPARTY_BASE_URL env)) as [baseUrl|]; [|done].
    match goal with |- context [fetchListing ?a1 ?a2 ?a3 ?a4 ?a5 ?a6 ?a7 ?a8 ?a9] =>
      pose proof (fetchListing_runs a1 a2 a3 a4 a5 a6 a7 a8 a9) as Hruns;
      cbv zeta in Hruns;
      destruct (fetchListing a1 a2 a3 a4 a5 a6 a7 a8 a9) as [sent outcome]
    end.
    simpl fst in Hruns. simpl snd in Hruns.
    destruct Hruns as [-> | (url & uploadUrl & Hupload & -> & Hout)].
    + unfold tryCatch. destruct outcome as [data|e]; [done|].
      unfold mbind, run_bind, bindRun, lift.
      destruct (buildUploadUrl _ _ _); [|done]. done.
    + destruct Hout as [(data & -> & Hconf & Hnot) | (e & -> & Hmsg)].
      * simpl. intros [<-|[]]. exists data. done.
      * unfold tryCatch, mbind, run_bind, bindRun, lift. rewrite Hupload.
        simpl. intros [<-|[]]. eexists. split; [reflexivity|].
        split; [done|]. intros Hfailed. simpl. by rewrite Hmsg.
  - intros message. reflexivity.
  - intros response. unfold failureMessage.
    destruct (negb (resp_ok response)).
    + intros Heq.
      apply (f_equal (fun s => nth 12 s 0)) in Heq. discriminate Heq.
    + vm_compute. discriminate.
Qed.

Lemma listing_failures_absorbed_witness :
  exists request data,
    getInventoryData Example.env (Example.answering 503) None None
    = ([request], Returned data)
    /\ inv_configured data = true
    /\ inv_directories data = [] /\ inv_files data = []
    /\ inv_totalBytes data = 0%float
    /\ inv_error data = Some (lit "Copyparty responded with HTTP 503.").
Proof.
  assert (Hsent : exists request,
            fst (getInventoryData Example.env (Example.answering 503) None None)
            = [request]).
  { evaluate (fst (getInventoryData Example.env (Example.answering 503)
                     None None)).
    eexists. reflexivity. }
  destruct Hsent as [request Hsent].
  destruct (proj1 (proj2 (listing_failures_absorbed Example.env
                            (Example.answering 503) None None)) request)
    as (data & Hdata & Hconf & Hfailed).
  { rewrite Hsent. by left. }
  destruct Hfailed as (Hd & Hf & Ht & He); [left; reflexivity|].
  exists request, data. split.
  - rewrite (surjective_pairing (getInventoryData _ _ _ _)).
    by rewrite Hsent, Hdata.
  - repeat split; try done; rewrite He; reflexivity.
Defined.

Import Page.

(** ** Unique file names *)


Lemma to_uint_not_Nil n : Nat.to_uint n <> Decimal.Nil.
Proof.
  intros Hnil. pose proof (Unsigned.of_to n) as Hn. rewrite Hnil in Hn.
  simpl in Hn. subst n. discriminate Hnil.
Qed.

Lemma lit_inj s t : lit s = lit t -> s = t.
Proof.
  unfold lit. intros Heq.
  rewrite <- (string_of_list_ascii_of_string s),
          <- (string_of_list_ascii_of_string t).
  f_equal. revert Heq.
  generalize (list_ascii_of_string s) (list_ascii_of_string t).
  induction l as [|a l IH]; intros [|b l']; simpl; try done.
  intros [= Hab Hl]. f_equal; [|by apply IH].
  by rewrite <- (ascii_N_embedding a), <- (ascii_N_embedding b), Hab.
Qed.

Lemma decimal_inj a b : decimal a = decimal b -> a = b.
Proof.
  unfold decimal. intros Heq. apply lit_inj in Heq.
  apply Unsigned.to_uint_inj.
  pose proof (NilZero.usu _ (to_uint_not_Nil a)) as Ha.
  pose proof (NilZero.usu _ (to_uint_not_Nil b)) as Hb.
  rewrite Heq in Ha. rewrite Ha in Hb. by injection Hb.
Qed.

Lemma numberedName_inj stem ext a b :
  numberedName stem ext a = numberedName stem ext b -> a = b.
Proof.
  unfold numberedName. intros Heq.
  apply app_inv_head in Heq. apply app_inv_head in Heq.
  rewrite !app_assoc in Heq. apply app_inv_tail in Heq.
  apply app_inv_tail in Heq. by apply decimal_inj.
Qed.

(** The loop of [makeUniqueFileName] ends: among [size reservedNames + 1]
    numbered names one is free. *)
Lemma firstFreeIndex_bounded (stem ext : jsstring)
    (reservedNames : gset jsstring) (fuel index : nat) (taken : gset jsstring) :
  (forall k, (index <= k)%nat ->
     numberedName stem ext k ∈ reservedNames ->
     numberedName stem ext k ∈ taken) ->
  (size taken < fuel)%nat ->
  exists k,
    firstFreeIndex fuel stem ext reservedNames index = Some k
    /\ (index <= k)%nat
    /\ (numberedName stem ext k ∉ reservedNames)
    /\ forall j, (index <= j < k)%nat -> numberedName stem ext j ∈ reservedNames.
Proof.
  revert index taken. induction fuel as [|fuel IH]; intros index taken Htaken Hsize;
    [lia|].
  simpl. destruct (bool_decide (numberedName stem ext index ∈ reservedNames)) eqn:E.
  - apply bool_decide_eq_true in E.
    destruct (IH (S index) (taken ∖ {[numberedName stem ext index]}))
      as (k & Hk & Hle & Hfree & Hbelow).
    + intros k Hk Hin. apply elem_of_difference. split.
      * apply Htaken; [lia|done].
      * rewrite elem_of_singleton. intros Heq.
        apply numberedName_inj in Heq. lia.
    + assert (Hin : numberedName stem ext index ∈ taken) by by apply Htaken.
      assert (Hsz : size taken
                    = (size ({[numberedName stem ext index]} : gset jsstring)
                       + size (taken ∖ {[numberedName stem ext index]}))%nat).
      { rewrite <- size_union by set_solver. f_equal.
        apply set_eq. intros x. rewrite elem_of_union, elem_of_difference,
          elem_of_singleton.
        destruct (decide (x = numberedName stem ext index)); naive_solver. }
      rewrite size_singleton in Hsz. lia.
    + exists k. split; [done|]. split; [lia|]. split; [done|].
      intros j Hj. destruct (decide (j = index)) as [->|Hne]; [done|].
      apply Hbelow. lia.
  - apply bool_decide_eq_false in E. exists index.
    split; [done|]. split; [lia|]. split; [done|]. intros j Hj. lia.
Qed.

Lemma firstFreeIndex_total (stem ext : jsstring)
    (reservedNames : gset jsstring) (index : nat) :
  exists k,
    firstFreeIndex (S (size reservedNames)) stem ext reservedNames index = Some k
    /\ (index <= k)%nat
    /\ (numberedName stem ext k ∉ reservedNames)
    /\ forall j, (index <= j < k)%nat -> numberedName stem ext j ∈ reservedNames.
Proof. apply (firstFreeIndex_bounded _ _ _ _ _ reservedNames); [done|lia]. Qed.

Lemma splitFileName_app name :
  fst (splitFileName name) ++ snd (splitFileName name) = name.
Proof.
  unfold splitFileName. cbv zeta. destruct (_ || _); simpl.
  - apply app_nil_r.
  - unfold sliceTo, sliceFrom. apply take_drop.
Qed.

(** What [makeUniqueFileName] returns and how it leaves the set. *)
Lemma makeUniqueFileName_spec (baseName : jsstring)
    (reservedNames : gset jsstring) :
  let stem := fst (splitFileName baseName) in
  let ext := snd (splitFileName baseName) in
  let name := fst (makeUniqueFileName baseName reservedNames) in
  (name ∉ reservedNames)
  /\ snd (makeUniqueFileName baseName reservedNames) = {[name]} ∪ reservedNames
  /\ (baseName ∉ reservedNames -> name = baseName)
  /\ (baseName ∈ reservedNames ->
      exists index,
        (2 <= index)%nat
        /\ name = numberedName stem ext index
        /\ forall j, (2 <= j < index)%nat ->
             numberedName stem ext j ∈ reservedNames).
Proof.
  cbv zeta. unfold makeUniqueFileName.
  destruct (bool_decide (baseName ∈ reservedNames)) eqn:E; simpl negb; cbv iota.
  - apply bool_decide_eq_true in E.
    destruct (splitFileName baseName) as [stem ext]. cbn [fst snd].
    cbv beta iota.
    destruct (firstFreeIndex_total stem ext reservedNames 2)
      as (k & -> & Hle & Hfree & Hbelow).
    cbn [fst snd]. split; [done|]. split; [done|]. split; [done|].
    intros _. by exists k.
  - apply bool_decide_eq_false in E. simpl.
    split; [done|]. split; [done|]. split; [done|]. done.
Qed.

(** ** Names that survive normalization *)

Lemma trimEnd_snoc i c : isWhiteSpace c = false -> trimEnd (i ++ [c]) = i ++ [c].
Proof.
  intros Hc. induction i as [|x i IH]; simpl; [by rewrite Hc|].
  rewrite IH. by destruct i.
Qed.

Lemma trimEnd_last u :
  trimEnd u = [] \/ exists i c, trimEnd u = i ++ [c] /\ isWhiteSpace c = false.
Proof.
  induction u as [|x r IH]; simpl; [by left|].
  destruct IH as [-> | (i & c & -> & Hc)].
  - destruct (isWhiteSpace x) eqn:Ex; [by left|].
    right. by exists [], x.
  - right. exists (x :: i), c. split; [|done]. by destruct i.
Qed.

(** A trimmed, non-empty text starts and ends with a character that is not
    white space, and conversely. *)
Lemma trim_edges s c r i l :
  s = c :: r -> s = i ++ [l] ->
  isWhiteSpace c = false -> isWhiteSpace l = false -> trim s = s.
Proof.
  intros Hs Hl Hc Hw. unfold trim.
  rewrite (trimStart_fixed s) by (subst s; done).
  rewrite Hl. by apply trimEnd_snoc.
Qed.

Lemma edges_trim s :
  trim s = s -> s <> [] ->
  (exists c r, s = c :: r /\ isWhiteSpace c = false)
  /\ (exists i l, s = i ++ [l] /\ isWhiteSpace l = false).
Proof.
  intros Htrim Hne. split.
  - destruct s as [|c r]; [done|]. exists c, r. split; [done|].
    pose proof (trimEnd_head _ (trimStart_head (c :: r))) as Hhead.
    fold (trim (c :: r)) in Hhead. by rewrite Htrim in Hhead.
  - destruct (trimEnd_last (trimStart s)) as [Hnil | (i & l & Hil & Hl)].
    + unfold trim in Htrim. rewrite Hnil in Htrim. by subst s.
    + exists i, l. split; [|done]. unfold trim in Htrim. by rewrite <- Htrim.
Qed.

Lemma digits_of_uint d c :
  In c (lit (NilEmpty.string_of_uint d)) -> 48 <= c <= 57.
Proof.
  induction d as [|d IH|d IH|d IH|d IH|d IH|d IH|d IH|d IH|d IH|d IH];
    simpl; [done|..];
    (intros [<-|Hin]; [vm_compute; split; discriminate|by apply IH]).
Qed.

Lemma decimal_digits n c : In c (decimal n) -> 48 <= c <= 57.
Proof.
  unfold decimal, NilZero.string_of_uint.
  destruct (Nat.to_uint n) eqn:E; try (rewrite <- E; apply digits_of_uint).
  simpl. intros [<-|[]]. vm_compute. split; discriminate.
Qed.

Lemma splitFileName_stem name :
  name <> [] -> fst (splitFileName name) <> [].
Proof.
  intros Hne. unfold splitFileName. cbv zeta.
  destruct (lastIndexOf name DOT <=? 0)%Z eqn:E; cbn [orb fst]; [done|].
  destruct (Z.of_nat (length name) - 1 <=? lastIndexOf name DOT)%Z;
    cbn [fst]; [done|].
  apply Z.leb_gt in E. unfold sliceTo.
  destruct name as [|c r]; [done|].
  destruct (Z.to_nat (lastIndexOf (c :: r) DOT)) eqn:En; [lia|]. done.
Qed.

Lemma numberedName_kept (baseName : jsstring) (index : nat) :
  keptSegment baseName ->
  keptSegment (numberedName (fst (splitFileName baseName))
                 (snd (splitFileName baseName)) index).
Proof.
  intros (Hne & Htrim & _ & _ & Hslash & Hback).
  pose proof (splitFileName_app baseName) as Happ.
  pose proof (splitFileName_stem baseName Hne) as Hstem.
  destruct (splitFileName baseName) as [stem ext]. simpl fst in *. simpl snd in *.
  destruct (edges_trim _ Htrim Hne) as ((c & r & Hc & Hcw) & (i & l & Hl & Hlw)).
  assert (Hchars : forall x, In x (numberedName stem ext index) ->
            In x baseName \/ x = 32 \/ x = 40 \/ x = 41 \/ 48 <= x <= 57).
  { intros x. unfold numberedName. rewrite !in_app_iff, <- Happ, in_app_iff.
    intros [?|[Hx|[Hx|[Hx|?]]]]; [by left; left| | | |by left; right].
    - destruct Hx as [<-|[<-|[]]]; auto.
    - right. right. right. right. by apply (decimal_digits index).
    - destruct Hx as [<-|[]]; auto. }
  assert (Hparen : In 40 (numberedName stem ext index)).
  { unfold numberedName. rewrite !in_app_iff. right. left. right. by left. }
  destruct stem as [|s0 stem']; [done|].
  assert (Hs0 : s0 = c) by (rewrite Hc in Happ; by injection Happ).
  repeat split.
  - done.
  - assert (Hlast : exists i' l', numberedName (s0 :: stem') ext index = i' ++ [l']
                                  /\ isWhiteSpace l' = false).
    { destruct ext as [|e0 ext'] using rev_ind.
      - exists ((s0 :: stem') ++ lit " (" ++ decimal index), 41. split; [|done].
        unfold numberedName. by rewrite app_nil_r, <- !app_assoc.
      - clear IHext'. exists ((s0 :: stem') ++ lit " (" ++ decimal index ++ lit ")" ++ ext'), e0.
        split.
        + unfold numberedName. by rewrite <- !app_assoc.
        + rewrite Hl, app_assoc in Happ.
          apply app_inj_tail in Happ as [_ ->]. done. }
    destruct Hlast as (i' & l' & Hi' & Hl').
    eapply trim_edges; [reflexivity|exact Hi'| |exact Hl'].
    by rewrite Hs0.
  - intros Heq. rewrite Heq in Hparen.
    destruct Hparen as [?|[]]; discriminate.
  - intros Heq. rewrite Heq in Hparen.
    destruct Hparen as [?|[?|[]]]; discriminate.
  - intros Hin. destruct (Hchars _ Hin) as [?|[?|[?|[?|[? ?]]]]];
      [done|discriminate|discriminate|discriminate|].
    unfold SLASH in *. lia.
  - intros Hin. destruct (Hchars _ Hin) as [?|[?|[?|[?|[? ?]]]]];
      [done|discriminate|discriminate|discriminate|].
    unfold BACKSLASH in *. lia.
Qed.

(** ** Target names within one call of [enqueueUploads] *)

Lemma normalizeUploadRelativePath_segments path :
  exists segments,
    normalizeUploadRelativePath path = join (lit "/") segments
    /\ List.Forall keptSegment segments.
Proof.
  exists (normalizeSegments path). split; [done|]. apply normalizeSegments_kept.
Qed.

Lemma join_nil_inv (segments : list jsstring) :
  List.Forall keptSegment segments ->
  join (lit "/") segments = [] -> segments = [].
Proof.
  destruct segments as [|s rest]; [done|]. intros Hall.
  apply List.Forall_cons_iff in Hall as [(Hne & _) _].
  destruct s as [|c s]; [done|]. destruct rest; discriminate.
Qed.

(** The file name of a relative path is empty or a segment that
    normalization keeps. *)
Lemma splitUploadRelativePath_fileName path :
  snd (splitUploadRelativePath path) = []
  \/ keptSegment (snd (splitUploadRelativePath path)).
Proof.
  unfold splitUploadRelativePath. cbv zeta.
  destruct (normalizeUploadRelativePath_segments path)
    as (segments & -> & Hall).
  destruct (nonEmpty (join (lit "/") segments)) eqn:E; cbn [negb]; cbv iota;
    [|by left].
  right. cbn [snd].
  assert (Hne : segments <> []) by (by intros ->).
  rewrite lit_slash, split_join; [|done|].
  - destruct (exists_last Hne) as (init & x & ->).
    rewrite last_snoc. cbn [orElse].
    apply List.Forall_app in Hall as [_ Hx].
    by apply List.Forall_cons_iff in Hx as [Hx _].
  - intros x Hx. rewrite List.Forall_forall in Hall.
    by destruct (Hall x Hx) as (_ & _ & _ & _ & Hs & _).
Qed.

Lemma keptSegment_trim t : keptSegment t -> trim t = t.
Proof. by intros (_ & Ht & _). Qed.

Lemma makeUniqueFileName_kept (baseName : jsstring)
    (reservedNames : gset jsstring) :
  keptSegment baseName ->
  keptSegment (fst (makeUniqueFileName baseName reservedNames)).
Proof.
  intros Hk. unfold makeUniqueFileName.
  destruct (negb _); [done|].
  pose proof (numberedName_kept baseName) as Hn.
  destruct (splitFileName baseName) as [stem ext]. cbn [fst snd] in Hn.
  destruct (firstFreeIndex _ _ _ _ _); [apply Hn; done|done].
Qed.

(** What [getReservedNames] hands out: the set of the map at [path], the
    map itself changed at most there, and only when it held none. *)
Lemma getReservedNames_spec `{Platform}
    (existing reserved : gmap jsstring (gset jsstring)) (path : jsstring) :
  let names := fst (getReservedNames existing reserved path) in
  let reserved' := snd (getReservedNames existing reserved path) in
  reserved' !! path = Some names
  /\ (forall other, other <> path -> reserved' !! other = reserved !! other)
  /\ (forall held, reserved !! path = Some held -> names = held).
Proof.
  cbv zeta. unfold getReservedNames.
  destruct (reserved !! path) as [held|] eqn:E; cbn [fst snd].
  - split; [done|]. split; [done|]. by intros ? [= <-].
  - split; [by rewrite lookup_insert_eq|]. split; [|done].
    intros other Hne. by rewrite lookup_insert_ne.
Qed.

(** What the strategy decides for a candidate that is not skipped. *)
Lemma resolveTarget_spec `{Platform} (strategy : ConflictStrategy)
    (sourceName : jsstring) (reservedNames : gset jsstring)
    (existsOnServer sameDestination : bool) :
  let hasConflict := bool_decide (sourceName ∈ reservedNames) in
  (strategy = skip -> hasConflict = false) ->
  let result :=
    resolveTarget strategy sourceName reservedNames hasConflict existsOnServer
      sameDestination in
  let targetName := fst (fst result) in
  let replaceExisting := snd (fst result) in
  (targetName ∈ snd result)
  /\ (reservedNames ⊆ snd result)
  /\ (replaceExisting = false -> targetName ∉ reservedNames)
  /\ (replaceExisting = true -> targetName = sourceName)
  /\ (keptSegment sourceName -> keptSegment targetName).
Proof.
  cbv zeta. intros Hskip.
  pose proof (makeUniqueFileName_spec sourceName reservedNames) as Hu.
  pose proof (makeUniqueFileName_kept sourceName reservedNames) as Hk.
  cbv zeta in Hu. destruct Hu as (Hfree & Hset & _).
  assert (Hrenamed :
    let result :=
      (let '(targetName, reserved') := makeUniqueFileName sourceName reservedNames in
       (targetName, false, reserved')) in
    (fst (fst result) ∈ snd result)
    /\ (reservedNames ⊆ snd result)
    /\ (snd (fst result) = false -> fst (fst result) ∉ reservedNames)
    /\ (snd (fst result) = true -> fst (fst result) = sourceName)
    /\ (keptSegment sourceName -> keptSegment (fst (fst result)))).
  { cbv zeta. destruct (makeUniqueFileName sourceName reservedNames)
      as [name reserved']. cbn [fst snd] in *. subst reserved'.
    split; [set_solver|]. split; [set_solver|]. done. }
  cbv zeta in Hrenamed.
  unfold resolveTarget. destruct strategy.
  - exact Hrenamed.
  - destruct (existsOnServer && sameDestination).
    { cbn [fst snd]. split; [set_solver|]. split; [set_solver|]. done. }
    destruct (bool_decide (sourceName ∈ reservedNames)) eqn:E.
    { exact Hrenamed. }
    apply bool_decide_eq_false in E. cbn [fst snd].
    split; [set_solver|]. split; [set_solver|]. done.
  - specialize (Hskip eq_refl). apply bool_decide_eq_false in Hskip.
    cbn [fst snd]. split; [set_solver|]. split; [set_solver|]. done.
Qed.

(** The items made so far by the loop of [enqueueUploads]: those of the
    batches pushed, then those of the batch being filled. *)
Definition created (st : EnqueueState) : list TransferItem :=
  concat (pushed st) ++ batchItems st.

(** An item as [enqueueUploads] makes it. *)
Definition wellMade (item : TransferItem) : Prop :=
  keptSegment (item_targetName item)
  /\ item_targetPath item
     = joinNormalizedPaths (item_destinationPath item) (item_targetName item)
  /\ item_status item = queued
  /\ item_loaded item = 0%Z /\ item_progress item = 0%Z
  /\ item_error item = None /\ item_xhr item = false.

Definition reservedIn (reserved : gmap jsstring (gset jsstring))
    (item : TransferItem) : Prop :=
  exists names,
    reserved !! item_destinationPath item = Some names
    /\ item_targetName item ∈ names.

(** No two items that go to the same directory without replacing a file
    there have the same target name. *)
Definition distinctTargets (items : list TransferItem) : Prop :=
  forall i j a b,
    (i < j)%nat -> items !! i = Some a -> items !! j = Some b ->
    item_destinationPath a = item_destinationPath b ->
    item_replaceExisting a = false -> item_replaceExisting b = false ->
    item_targetName a <> item_targetName b.

Definition enqueueInvariant (st : EnqueueState) : Prop :=
  List.Forall (reservedIn (reservedNamesByDestination st)) (created st)
  /\ List.Forall wellMade (created st)
  /\ distinctTargets (created st).

Section EnqueueLoop.
Context `{Platform}.
Variables (inventory : Inventory) (createTransferId : nat -> jsstring)
  (strategy : ConflictStrategy) (normalizedDestinationPath : jsstring)
  (existing : gmap jsstring (gset jsstring)) (total : nat).

(** One turn of the loop leaves the state alone, or only seeds a set of
    reserved names, or makes one item whose name it reserves at the item's
    destination, a name that was free there unless the item replaces a
    file. *)
Lemma enqueueStep_cases (st : EnqueueState) (index : nat)
    (candidate : UploadCandidate) :
  let st' :=
    enqueueStep inventory createTransferId strategy normalizedDestinationPath
      existing total st index candidate in
  st' = st
  \/ (exists path,
        created st' = created st
        /\ reservedNamesByDestination st'
           = snd (getReservedNames existing (reservedNamesByDestination st) path))
  \/ (exists item names',
        let path := item_destinationPath item in
        let names :=
          fst (getReservedNames existing (reservedNamesByDestination st) path) in
        created st' = created st ++ [item]
        /\ reservedNamesByDestination st'
           = <[path := names']>
               (snd (getReservedNames existing (reservedNamesByDestination st) path))
        /\ (item_targetName item ∈ names')
        /\ (names ⊆ names')
        /\ (item_replaceExisting item = false -> item_targetName item ∉ names)
        /\ wellMade item).
Proof.
  cbv zeta. unfold enqueueStep. cbv zeta.
  pose proof (splitUploadRelativePath_fileName
                (normalizeUploadRelativePath (cand_relativePath candidate)))
    as HfileName.
  destruct (splitUploadRelativePath
              (normalizeUploadRelativePath (cand_relativePath candidate)))
    as [directory fileName]. cbn [snd] in HfileName.
  destruct (nonEmpty (trim fileName)) eqn:Ename; cbn [negb]; cbv iota;
    [|by left].
  assert (Hkept : keptSegment fileName).
  { destruct HfileName as [->|Hk]; [discriminate Ename|done]. }
  rewrite (keptSegment_trim _ Hkept).
  set (path := if nonEmpty directory
               then joinNormalizedPaths normalizedDestinationPath directory
               else normalizedDestinationPath).
  destruct (getReservedNames existing (reservedNamesByDestination st) path)
    as [names reserved] eqn:Eget.
  destruct (bool_decide (fileName ∈ names) && bool_decide (strategy = skip))
    eqn:Eskip.
  { right. left. exists path. rewrite Eget. split; reflexivity. }
  right. right.
  pose proof (resolveTarget_spec strategy fileName names
                (bool_decide (fileName ∈ orElse (existing !! path) ∅))
                (bool_decide (path = normalizedDestinationPath))) as Hres.
  cbv zeta in Hres.
  destruct (resolveTarget strategy fileName names
              (bool_decide (fileName ∈ names))
              (bool_decide (fileName ∈ orElse (existing !! path) ∅))
              (bool_decide (path = normalizedDestinationPath)))
    as [[targetName replaceExisting] names'].
  cbn [fst snd] in Hres.
  destruct Hres as (Hin & Hsub & Hfree & _ & Hk).
  { intros Hs. destruct (bool_decide (fileName ∈ names)); [|done].
    by rewrite (bool_decide_eq_true_2 _ Hs) in Eskip. }
  match goal with
  | |- context [batchItems st ++ [?made]] => exists made, names'
  end.
  cbn [item_destinationPath item_targetName item_replaceExisting].
  fold path. rewrite Eget. cbn [fst snd].
  split.
  { unfold created. cbn [pushed batchItems].
    destruct (_ || _); cbn [pushed batchItems].
    - rewrite concat_app. cbn [concat]. by rewrite !app_nil_r, app_assoc.
    - by rewrite app_assoc. }
  split; [done|]. split; [done|]. split; [done|]. split; [done|].
  unfold wellMade. cbn. split; [by apply Hk|]. done.
Qed.

Lemma enqueueStep_invariant (st : EnqueueState) (index : nat)
    (candidate : UploadCandidate) :
  enqueueInvariant st ->
  enqueueInvariant
    (enqueueStep inventory createTransferId strategy normalizedDestinationPath
       existing total st index candidate).
Proof.
  intros (Hreserved & Hmade & Hdistinct).
  destruct (enqueueStep_cases st index candidate)
    as [-> | [(path & Hcreated & Hmap) | (item & names' & Hstep)]];
    [done| |].
  - destruct (getReservedNames_spec existing (reservedNamesByDestination st) path)
      as (Hat & Hother & Hheld).
    unfold enqueueInvariant. rewrite Hcreated, Hmap.
    split; [|done].
    eapply List.Forall_impl; [|exact Hreserved].
    intros a (held & Ha & Hin). exists held. split; [|done].
    destruct (decide (item_destinationPath a = path)) as [Heq|Hne].
    + rewrite Heq in *. rewrite Hat. f_equal. by apply Hheld.
    + by rewrite Hother.
  - cbv zeta in Hstep.
    destruct Hstep as (Hcreated & Hmap & Hin & Hsub & Hfree & Hwell).
    destruct (getReservedNames_spec existing (reservedNamesByDestination st)
                (item_destinationPath item)) as (Hat & Hother & Hheld).
    assert (Hold : forall a, In a (created st) ->
              item_destinationPath a = item_destinationPath item ->
              item_targetName a
              ∈ fst (getReservedNames existing (reservedNamesByDestination st)
                       (item_destinationPath item))).
    { intros a Ha Heq. rewrite List.Forall_forall in Hreserved.
      destruct (Hreserved a Ha) as (held & Hlook & Hmem).
      rewrite Heq in Hlook. by rewrite (Hheld held Hlook). }
    unfold enqueueInvariant. rewrite Hcreated, Hmap.
    split; [|split].
    + apply List.Forall_app. split.
      * rewrite List.Forall_forall. intros a Ha.
        destruct (decide (item_destinationPath a = item_destinationPath item))
          as [Heq|Hne].
        -- exists names'. rewrite Heq, lookup_insert_eq. split; [done|].
           apply Hsub. by apply Hold.
        -- rewrite List.Forall_forall in Hreserved.
           destruct (Hreserved a Ha) as (held & Hlook & Hmem).
           exists held. split; [|done].
           by rewrite lookup_insert_ne, Hother.
      * constructor; [|constructor]. exists names'.
        by rewrite lookup_insert_eq.
    + apply List.Forall_app. split; [done|]. by constructor.
    + intros i j a b Hij Ha Hb Hdest Hra Hrb.
      apply lookup_app_Some in Hb as [Hb | [Hlen Hb]].
      * apply lookup_app_Some in Ha as [Ha | [Hlen Ha]].
        -- by apply (Hdistinct i j a b).
        -- apply lookup_lt_Some in Hb. lia.
      * assert (b = item) as ->.
        { destruct (j - length (created st))%nat; [by injection Hb|].
          by destruct n. }
        apply lookup_app_Some in Ha as [Ha | [Hlen' Ha]].
        -- intros Hname. apply (Hfree Hrb). rewrite <- Hname.
           apply Hold; [|done]. apply list_elem_of_In.
           by eapply list_elem_of_lookup_2.
        -- assert (j = length (created st)).
           { apply lookup_lt_Some in Hb. simpl in Hb. lia. }
           lia.
Qed.

Lemma enqueueLoop_invariant (candidates : list UploadCandidate)
    (st : EnqueueState) (index : nat) :
  enqueueInvariant st ->
  enqueueInvariant
    (enqueueLoop inventory createTransferId strategy normalizedDestinationPath
       existing total st index candidates).
Proof.
  revert st index. induction candidates as [|c rest IH]; intros st index Hinv;
    [done|].
  simpl. apply IH. by apply enqueueStep_invariant.
Qed.

End EnqueueLoop.

Lemma enqueueUploads_invariant `{Platform} (forgeUploadsEnabled : bool)
    (inventory : Inventory) (createTransferId : nat -> jsstring)
    (candidates : list UploadCandidate) (strategy : ConflictStrategy)
    (destinationPath : jsstring) :
  let items :=
    concat (enqueueUploads forgeUploadsEnabled inventory createTransferId
              candidates strategy destinationPath) in
  List.Forall wellMade items /\ distinctTargets items.
Proof.
  cbv zeta. unfold enqueueUploads.
  destruct forgeUploadsEnabled; cbn [negb]; cbv iota.
  2:{ split; [constructor|]. by intros i j a b _ Ha. }
  cbv zeta.
  match goal with
  | |- context [pushed ?final] =>
      assert (Hinv : enqueueInvariant final);
      [|destruct Hinv as (_ & Hmade & Hdistinct); unfold created in *;
        set (st := final) in *; clearbody st]
  end.
  { apply enqueueLoop_invariant. split; [constructor|].
    split; [constructor|]. by intros i j a b _ Ha. }
  split.
  - by apply List.Forall_app in Hmade as [Hmade _].
  - intros i j a b Hij Ha Hb. apply (Hdistinct i j a b Hij).
    + by apply lookup_app_l_Some.
    + by apply lookup_app_l_Some.
Qed.

(** X5 (C10). Within one call of [enqueueUploads], under every strategy, two
    items pushed on the queue for the same destination directory, neither
    replacing an existing file, have different target names and different
    target paths. *)
Theorem enqueued_targets_distinct `{Platform} (forgeUploadsEnabled : bool)
    (inventory : Inventory) (createTransferId : nat -> jsstring)
    (candidates : list UploadCandidate) (strategy : ConflictStrategy)
    (destinationPath : jsstring) (i j : nat) (a b : TransferItem) :
  let items :=
    concat (enqueueUploads forgeUploadsEnabled inventory createTransferId
              candidates strategy destinationPath) in
  i <> j -> items !! i = Some a -> items !! j = Some b ->
  item_destinationPath a = item_destinationPath b ->
  item_replaceExisting a = false -> item_replaceExisting b = false ->
  item_targetName a <> item_targetName b
  /\ item_targetPath a <> item_targetPath b.
Proof.
  cbv zeta. intros Hij Ha Hb Hdest Hra Hrb.
  destruct (enqueueUploads_invariant forgeUploadsEnabled inventory
              createTransferId candidates strategy destinationPath)
    as (Hmade & Hdistinct).
  assert (Hnames : item_targetName a <> item_targetName b).
  { destruct (Nat.lt_total i j) as [Hlt|[->|Hlt]]; [|done|].
    - by apply (Hdistinct i j a b).
    - intros Heq. by apply (Hdistinct j i b a). }
  split; [done|].
  rewrite List.Forall_forall in Hmade.
  destruct (Hmade a) as (Hka & -> & _).
  { apply list_elem_of_In. by eapply list_elem_of_lookup_2. }
  destruct (Hmade b) as (Hkb & -> & _).
  { apply list_elem_of_In. by eapply list_elem_of_lookup_2. }
  change (joinNormalizedPaths ?d ?n) with (joinPaths d n).
  rewrite !joinPaths_kept by done. rewrite Hdest. intros Heq.
  apply renderPath_inj in Heq.
  - apply app_inv_head in Heq. by injection Heq.
  - apply List.Forall_app. split; [apply normalizeSegments_kept|by constructor].
  - apply List.Forall_app. split; [apply normalizeSegments_kept|by constructor].
Qed.

Lemma enqueued_targets_distinct_witness :
  exists a b,
    concat (enqueueUploads true Example.inventory decimal
              [Example.photo; Example.photo] rename (lit "/")) = [a; b]
    /\ item_targetName a <> item_targetName b
    /\ item_targetPath a <> item_targetPath b.
Proof.
  assert (Hitems : exists a b,
    concat (enqueueUploads true Example.inventory decimal
              [Example.photo; Example.photo] rename (lit "/")) = [a; b]
    /\ item_destinationPath a = item_destinationPath b
    /\ item_replaceExisting a = false /\ item_replaceExisting b = false).
  { evaluate (concat (enqueueUploads true Example.inventory decimal
                        [Example.photo; Example.photo] rename (lit "/"))).
    eexists _, _. repeat split; reflexivity. }
  destruct Hitems as (a & b & Hitems & Hdest & Hra & Hrb).
  exists a, b. split; [exact Hitems|].
  apply (enqueued_targets_distinct true Example.inventory decimal
           [Example.photo; Example.photo] rename (lit "/") 0 1 a b);
    [lia|by rewrite Hitems|by rewrite Hitems|done|done|done].
Defined.

(** X6. Every item [enqueueUploads] pushes on the queue is [queued], with
    nothing loaded, no progress, no error and no transport; its target name
    is one clean path segment (trimmed, non-empty, neither [.] nor [..],
    free of separators) and its target path is its destination directory
    joined with that name, which is the destination's segments followed by
    the name. *)
Theorem enqueued_items_wellformed `{Platform} (forgeUploadsEnabled : bool)
    (inventory : Inventory) (createTransferId : nat -> jsstring)
    (candidates : list UploadCandidate) (strategy : ConflictStrategy)
    (destinationPath : jsstring) (item : TransferItem) :
  In item
    (concat (enqueueUploads forgeUploadsEnabled inventory createTransferId
               candidates strategy destinationPath)) ->
  item_status item = queued
  /\ item_loaded item = 0%Z /\ item_progress item = 0%Z
  /\ item_error item = None /\ item_xhr item = false
  /\ keptSegment (item_targetName item)
  /\ item_targetPath item
     = joinNormalizedPaths (item_destinationPath item) (item_targetName item)
  /\ item_targetPath item
     = renderPath (normalizeSegments (item_destinationPath item)
                   ++ [item_targetName item]).
Proof.
  intros Hin.
  destruct (enqueueUploads_invariant forgeUploadsEnabled inventory
              createTransferId candidates strategy destinationPath)
    as (Hmade & _).
  rewrite List.Forall_forall in Hmade.
  destruct (Hmade item Hin) as (Hk & Hpath & Hs & Hl & Hp & He & Hx).
  do 7 (split; [done|]).
  rewrite Hpath. change (joinNormalizedPaths ?d ?n) with (joinPaths d n).
  by apply joinPaths_kept.
Qed.

Lemma enqueued_items_wellformed_witness :
  exists item,
    In item
      (concat (enqueueUploads true Example.inventory decimal
                 [Example.photo] rename (lit "/")))
    /\ item_status item = queued
    /\ item_targetPath item
       = joinNormalizedPaths (item_destinationPath item) (item_targetName item).
Proof.
  assert (Hitems : exists item,
    concat (enqueueUploads true Example.inventory decimal
              [Example.photo] rename (lit "/")) = [item]).
  { evaluate (concat (enqueueUploads true Example.inventory decimal
                        [Example.photo] rename (lit "/"))).
    eexists. reflexivity. }
  destruct Hitems as (item & Hitems). exists item.
  assert (Hin : In item
    (concat (enqueueUploads true Example.inventory decimal
               [Example.photo] rename (lit "/")))).
  { rewrite Hitems. by left. }
  split; [exact Hin|].
  destruct (enqueued_items_wellformed true Example.inventory decimal
              [Example.photo] rename (lit "/") item Hin)
    as (Hs & _ & _ & _ & _ & _ & Hp & _).
  by split.
Defined.
(** ** The transfer queue *)

Definition terminal (status : TransferStatus) : Prop :=
  status = complete \/ status = error.

(** The status an item has while the asynchronous work started for it is
    suspended at [task]. *)
Definition statusDuring (task : Task) (status : TransferStatus) : Prop :=
  match task with
  | AwaitFinalized => terminal status
  | _ => status = uploading
  end.

(** [queued] comes before [uploading], which comes before [complete] and
    [error]; nothing comes after these two. *)
Definition advances (before after : TransferStatus) : Prop :=
  match before, after with
  | queued, _ => True
  | uploading, queued => False
  | uploading, _ => True
  | complete, complete => True
  | error, error => True
  | _, _ => False
  end.

(** The fields of an item that say which transfer it is. *)
Definition sameTransfer (a b : TransferItem) : Prop :=
  item_id a = item_id b
  /\ item_file a = item_file b
  /\ item_sourceName a = item_sourceName b
  /\ item_targetName a = item_targetName b
  /\ item_targetPath a = item_targetPath b
  /\ item_destinationPath a = item_destinationPath b
  /\ item_uploadUrl a = item_uploadUrl b
  /\ item_name a = item_name b
  /\ item_size a = item_size b
  /\ item_replaceExisting a = item_replaceExisting b.

Definition evolves (s s' : QueueState) : Prop :=
  forall r item,
    heap s !! r = Some item ->
    exists item',
      heap s' !! r = Some item'
      /\ sameTransfer item item'
      /\ advances (item_status item) (item_status item').

(** What holds of the queue between two turns of the event loop:
    an item is [uploading] only while work for it is suspended; the work
    suspended is for an item of the status its stage asks for;
    [activeUploads] counts the suspended work, and is within the limit. *)
Record queueInvariant (limit : Z) (s : QueueState) : Prop := {
  inv_uploading :
    forall r item,
      heap s !! r = Some item -> item_status item = uploading ->
      is_Some (tasks s !! r);
  inv_task :
    forall r task,
      tasks s !! r = Some task ->
      exists item,
        heap s !! r = Some item /\ statusDuring task (item_status item);
  inv_active : activeUploads s = Z.of_nat (size (tasks s));
  inv_limit : (activeUploads s <= Z.max 0 limit)%Z
}.

(** The queue never leaves a slot free while it holds an entry. *)
Definition saturated (limit : Z) (s : QueueState) : Prop :=
  (limit <= activeUploads s)%Z \/ uploadQueue s = [].

Lemma advances_refl status : advances status status.
Proof. by destruct status. Qed.

Lemma advances_trans a b c : advances a b -> advances b c -> advances a c.
Proof. by destruct a, b, c. Qed.

Lemma advances_terminal a b : terminal a -> advances a b -> b = a.
Proof. by intros [-> | ->]; destruct b. Qed.

Lemma sameTransfer_refl item : sameTransfer item item.
Proof. by repeat split. Qed.

Lemma sameTransfer_trans a b c :
  sameTransfer a b -> sameTransfer b c -> sameTransfer a c.
Proof.
  unfold sameTransfer. intros Hab Hbc.
  destruct Hab as (?&?&?&?&?&?&?&?&?&?), Hbc as (?&?&?&?&?&?&?&?&?&?).
  repeat split; congruence.
Qed.

Lemma evolves_refl s : evolves s s.
Proof.
  intros r item Hr. exists item.
  split; [done|]. split; [apply sameTransfer_refl|apply advances_refl].
Qed.

Lemma evolves_trans s1 s2 s3 : evolves s1 s2 -> evolves s2 s3 -> evolves s1 s3.
Proof.
  intros H12 H23 r item Hr.
  destruct (H12 r item Hr) as (item2 & Hr2 & Hsame2 & Hadv2).
  destruct (H23 r item2 Hr2) as (item3 & Hr3 & Hsame3 & Hadv3).
  exists item3. split; [done|].
  split; [by eapply sameTransfer_trans|by eapply advances_trans].
Qed.

Lemma evolves_core s s' : heap s' = heap s -> evolves s s'.
Proof. intros Hh r item Hr. rewrite Hh. by apply evolves_refl. Qed.

Lemma evolves_mutate r f s :
  (forall item,
     heap s !! r = Some item ->
     sameTransfer item (f item)
     /\ advances (item_status item) (item_status (f item))) ->
  evolves s (mutate r f s).
Proof.
  intros Hf r' item Hr. cbn [heap mutate]. rewrite list_lookup_alter.
  destruct (decide (r = r')) as [->|Hne].
  - rewrite Hr. exists (f item). split; [done|]. by apply Hf.
  - exists item. split; [done|].
    split; [apply sameTransfer_refl|apply advances_refl].
Qed.

Lemma evolves_kept r f s :
  (forall item, sameTransfer item (f item)
                /\ item_status (f item) = item_status item) ->
  evolves s (mutate r f s).
Proof.
  intros Hf. apply evolves_mutate. intros item _.
  destruct (Hf item) as [Hsame ->]. split; [done|apply advances_refl].
Qed.

Lemma evolves_pruned s : evolves s (pruneFinishedTransferHistory s).
Proof.
  unfold pruneFinishedTransferHistory. cbv zeta.
  destruct (_ =? _)%nat; [apply evolves_refl|by apply evolves_core].
Qed.

Lemma statusOf_Some s r status :
  statusOf s r = Some status ->
  exists item, heap s !! r = Some item /\ item_status item = status.
Proof.
  unfold statusOf. destruct (heap s !! r) as [item|]; [|done].
  intros [= <-]. by exists item.
Qed.

Lemma evolves_startUpload r s :
  statusOf s r = Some queued -> evolves s (startUpload r s).
Proof.
  intros Hq. apply statusOf_Some in Hq as (item & Hr & Hq).
  unfold startUpload.
  apply evolves_trans with (mutate r markStarted s).
  - apply evolves_mutate. intros item' Hr'.
    assert (item' = item) as -> by congruence.
    rewrite Hq. split; [by repeat split|done].
  - by apply evolves_core.
Qed.

Lemma evolves_drainQueue limit queue s : evolves s (drainQueue limit queue s).
Proof.
  revert s. induction queue as [|next rest IH]; intros s; cbn [drainQueue].
  - by apply evolves_core.
  - destruct (activeUploads s <? limit)%Z; [|by apply evolves_core].
    destruct (statusOf s next) as [[]|] eqn:E; try apply IH.
    eapply evolves_trans; [by apply evolves_startUpload|apply IH].
Qed.

Lemma evolves_finishUpload limit r s : evolves s (finishUpload limit r s).
Proof.
  unfold finishUpload. cbv zeta.
  match goal with
  | |- evolves _ (if _ then setNeedsInventoryRefresh false ?s' else ?s') =>
      assert (Hs' : evolves s s')
  end.
  { eapply evolves_trans; [|apply evolves_pruned].
    eapply evolves_trans; [|apply evolves_drainQueue].
    apply evolves_trans with (mutate r (setXhr false) s);
      [|by apply evolves_core].
    apply evolves_kept. intros item. by repeat split. }
  destruct (_ && _); [|done].
  eapply evolves_trans; [exact Hs'|by apply evolves_core].
Qed.

(** *** The invariant *)

Lemma invariant_core limit s s' :
  heap s' = heap s -> tasks s' = tasks s ->
  activeUploads s' = activeUploads s ->
  queueInvariant limit s -> queueInvariant limit s'.
Proof.
  intros Hh Ht Ha [Hu Htask Hact Hlim].
  split; rewrite ?Hh, ?Ht, ?Ha; done.
Qed.

(** A change to the item and the task at [r] alone. *)
Lemma invariant_at limit r s s' :
  queueInvariant limit s ->
  (forall r', r' <> r -> heap s' !! r' = heap s !! r') ->
  (forall r', r' <> r -> tasks s' !! r' = tasks s !! r') ->
  activeUploads s' = Z.of_nat (size (tasks s')) ->
  (activeUploads s' <= Z.max 0 limit)%Z ->
  match tasks s' !! r, heap s' !! r with
  | Some task, Some item => statusDuring task (item_status item)
  | Some _, None => False
  | None, Some item => item_status item <> uploading
  | None, None => True
  end ->
  queueInvariant limit s'.
Proof.
  intros [Hu Htask _ _] Hheap Htasks Hact Hlim Hr. split; [| |done|done].
  - intros r' item Hitem Hup. destruct (decide (r' = r)) as [->|Hne].
    + rewrite Hitem in Hr. destruct (tasks s' !! r); [done|]. by destruct Hr.
    + rewrite Htasks by done. rewrite Hheap in Hitem by done. by eapply Hu.
  - intros r' task Ht. destruct (decide (r' = r)) as [->|Hne].
    + rewrite Ht in Hr. destruct (heap s' !! r) as [item|]; [|done].
      by exists item.
    + rewrite Htasks in Ht by done. rewrite Hheap by done. by apply Htask.
Qed.

Lemma invariant_kept limit r f s :
  (forall item, item_status (f item) = item_status item) ->
  queueInvariant limit s -> queueInvariant limit (mutate r f s).
Proof.
  intros Hf Hinv. apply (invariant_at limit r s); try done.
  - intros r' Hne. cbn [heap mutate]. by rewrite list_lookup_alter_ne.
  - apply Hinv.
  - apply Hinv.
  - cbn [heap tasks mutate]. rewrite list_lookup_alter_eq.
    destruct (tasks s !! r) as [task|] eqn:Et.
    + destruct (inv_task _ _ Hinv r task Et) as (item & -> & Hst).
      cbn. by rewrite Hf.
    + destruct (heap s !! r) as [item|] eqn:Eh; cbn; [|done].
      rewrite Hf. intros Hup.
      destruct (inv_uploading _ _ Hinv r item Eh Hup) as [? ?]. congruence.
Qed.

(** The work for [r] moves from one stage to the next. *)
Lemma invariant_retask limit r (task' : Task) s s' :
  queueInvariant limit s ->
  is_Some (tasks s !! r) ->
  heap s' = heap s \/ (exists f, heap s' = alter f r (heap s)) ->
  tasks s' = <[r := task']> (tasks s) ->
  activeUploads s' = activeUploads s ->
  (forall item, heap s' !! r = Some item ->
                statusDuring task' (item_status item)) ->
  queueInvariant limit s'.
Proof.
  intros Hinv Hsome Hheap Htasks Hact Hst.
  apply (invariant_at limit r s); try done.
  - intros r' Hne. destruct Hheap as [->|(f & ->)]; [done|].
    by rewrite list_lookup_alter_ne.
  - intros r' Hne. rewrite Htasks. by rewrite lookup_insert_ne.
  - rewrite Hact, Htasks, map_size_insert_Some by done. apply Hinv.
  - rewrite Hact. apply Hinv.
  - rewrite Htasks, lookup_insert_eq.
    destruct Hsome as [task Et].
    destruct (inv_task _ _ Hinv r task Et) as (item & Hr & _).
    destruct (heap s' !! r) as [item'|] eqn:Er; [by apply Hst|].
    destruct Hheap as [Hh|(f & Hh)]; rewrite Hh in Er.
    + congruence.
    + rewrite list_lookup_alter_eq, Hr in Er. done.
Qed.

Lemma invariant_startUpload limit r s :
  queueInvariant limit s ->
  statusOf s r = Some queued ->
  (activeUploads s < limit)%Z ->
  queueInvariant limit (startUpload r s).
Proof.
  intros Hinv Hq Hlt. apply statusOf_Some in Hq as (item & Hr & Hq).
  assert (Hnone : tasks s !! r = None).
  { destruct (tasks s !! r) as [task|] eqn:Et; [|done].
    destruct (inv_task _ _ Hinv r task Et) as (item' & Hr' & Hst).
    assert (item' = item) as -> by congruence.
    rewrite Hq in Hst. destruct task; cbn in Hst; try done.
    by destruct Hst. }
  apply (invariant_at limit r s); try done.
  - intros r' Hne. cbn [heap startUpload setTask mutate].
    by rewrite list_lookup_alter_ne.
  - intros r' Hne. cbn [tasks startUpload setTask]. by rewrite lookup_insert_ne.
  - cbn [activeUploads tasks startUpload setTask setActiveUploads mutate].
    rewrite map_size_insert_None by done.
    rewrite (inv_active _ _ Hinv). lia.
  - cbn [activeUploads tasks startUpload setTask setActiveUploads mutate]. lia.
  - cbn [heap tasks startUpload setTask mutate setActiveUploads].
    rewrite lookup_insert_eq, list_lookup_alter_eq, Hr. done.
Qed.

Lemma invariant_drainQueue limit queue s :
  queueInvariant limit s -> queueInvariant limit (drainQueue limit queue s).
Proof.
  revert s. induction queue as [|next rest IH]; intros s Hinv;
    cbn [drainQueue].
  - by apply (invariant_core limit s).
  - destruct (activeUploads s <? limit)%Z eqn:Elt;
      [|by apply (invariant_core limit s)].
    apply Z.ltb_lt in Elt.
    destruct (statusOf s next) as [[]|] eqn:E; try by apply IH.
    apply IH. by apply invariant_startUpload.
Qed.

Lemma invariant_pruned limit s :
  queueInvariant limit s ->
  queueInvariant limit (pruneFinishedTransferHistory s).
Proof.
  intros Hinv. unfold pruneFinishedTransferHistory. cbv zeta.
  destruct (_ =? _)%nat; [done|by apply (invariant_core limit s)].
Qed.

(** [finishUpload] for an item whose status has been settled. *)
Lemma invariant_finishUpload limit r s s0 :
  queueInvariant limit s ->
  is_Some (tasks s !! r) ->
  heap s0 = heap s \/ (exists f, heap s0 = alter f r (heap s)) ->
  tasks s0 = tasks s ->
  activeUploads s0 = activeUploads s ->
  (forall item, heap s0 !! r = Some item -> item_status item <> uploading) ->
  queueInvariant limit (finishUpload limit r s0).
Proof.
  intros Hinv Hsome Hheap Htasks Hact Hst.
  unfold finishUpload. cbv zeta.
  match goal with
  | |- queueInvariant _ (if _ then setNeedsInventoryRefresh false ?s' else ?s') =>
      assert (Hs' : queueInvariant limit s')
  end.
  { apply invariant_pruned. apply invariant_drainQueue.
    apply (invariant_at limit r s); try done.
    - intros r' Hne. cbn [heap setActiveUploads setTask mutate].
      rewrite list_lookup_alter_ne by done.
      destruct Hheap as [->|(f & ->)]; [done|].
      by rewrite list_lookup_alter_ne.
    - intros r' Hne. cbn [tasks setActiveUploads setTask mutate].
      rewrite Htasks. by rewrite lookup_delete_ne.
    - cbn [activeUploads tasks setActiveUploads setTask mutate].
      rewrite Htasks, Hact, map_size_delete_Some by done.
      rewrite (inv_active _ _ Hinv). lia.
    - cbn [activeUploads tasks setActiveUploads setTask mutate].
      rewrite Hact. pose proof (inv_limit _ _ Hinv). lia.
    - cbn [heap tasks setActiveUploads setTask mutate].
      rewrite lookup_delete_eq, list_lookup_alter_eq.
      destruct (heap s0 !! r) as [item|] eqn:Er; cbn; [|done].
      by apply Hst. }
  destruct (_ && _); [|done].
  by eapply invariant_core; [| | |exact Hs'].
Qed.

Lemma invariant_settled limit r message s :
  queueInvariant limit s ->
  is_Some (tasks s !! r) ->
  queueInvariant limit (finishUpload limit r (mutate r (markFailed message) s)).
Proof.
  intros Hinv Hsome. apply (invariant_finishUpload limit r s); try done.
  - right. by eexists.
  - cbn [heap mutate]. rewrite list_lookup_alter_eq.
    intros item. destruct (heap s !! r); cbn; [|done]. by intros [= <-].
Qed.

Lemma invariant_beginTransport `{Platform} limit r item s :
  queueInvariant limit s ->
  tasks s !! r = Some AwaitEnsure \/ tasks s !! r = Some AwaitDelete ->
  queueInvariant limit (beginTransport r item s).
Proof.
  intros Hinv Htask.
  assert (Hsome : exists task,
            tasks s !! r = Some task /\ task <> AwaitFinalized).
  { destruct Htask as [Ht|Ht]; eexists; (split; [exact Ht|done]). }
  destruct Hsome as (task & Ht & Hne).
  destruct (inv_task _ _ Hinv r task Ht) as (held & Hr & Hst).
  assert (Hup : item_status held = uploading) by (by destruct task).
  unfold beginTransport. destruct (newURL _).
  - apply (invariant_retask limit r AwaitXhr s); try done.
    + right. by eexists.
    + cbn [heap setTask mutate]. rewrite list_lookup_alter_eq, Hr.
      by intros ? [= <-].
  - apply (invariant_retask limit r Rejected s); try done.
    + by left.
    + cbn [heap setTask]. rewrite Hr. by intros ? [= <-].
Qed.

Lemma evolves_beginTransport `{Platform} r item s :
  evolves s (beginTransport r item s).
Proof.
  unfold beginTransport. destruct (newURL _); [|by apply evolves_core].
  apply evolves_trans with (mutate r (setXhr true) s); [|by apply evolves_core].
  apply evolves_kept. intros held. by repeat split.
Qed.

Lemma evolves_failed limit r task message s :
  queueInvariant limit s ->
  tasks s !! r = Some task -> task <> AwaitFinalized ->
  evolves s (mutate r (markFailed message) s).
Proof.
  intros Hinv Ht Hne. apply evolves_mutate. intros item Hr.
  destruct (inv_task _ _ Hinv r task Ht) as (held & Hr' & Hst).
  assert (held = item) as -> by congruence.
  assert (Hup : item_status item = uploading) by (by destruct task).
  rewrite Hup. split; [by repeat split|done].
Qed.

Lemma evolves_completed limit r task s :
  queueInvariant limit s ->
  tasks s !! r = Some task -> task <> AwaitFinalized ->
  evolves s (mutate r markComplete s).
Proof.
  intros Hinv Ht Hne. apply evolves_mutate. intros item Hr.
  destruct (inv_task _ _ Hinv r task Ht) as (held & Hr' & Hst).
  assert (held = item) as -> by congruence.
  assert (Hup : item_status item = uploading) by (by destruct task).
  rewrite Hup. split; [by repeat split|done].
Qed.

Lemma invariant_pushed limit batch s :
  queueInvariant limit s -> freshBatch batch ->
  queueInvariant limit
    {| heap := heap s ++ batch; tasks := tasks s;
       transferItems := transferItems s ++ seq (length (heap s)) (length batch);
       uploadQueue := uploadQueue s ++ seq (length (heap s)) (length batch);
       activeUploads := activeUploads s;
       needsInventoryRefresh := needsInventoryRefresh s |}.
Proof.
  intros [Hu Htask Hact Hlim] Hfresh. split; cbn; [| |done|done].
  - intros r item Hr Hup.
    destruct (decide (r < length (heap s))%nat) as [Hlt|Hge].
    + rewrite lookup_app_l in Hr by done. by eapply Hu.
    + rewrite lookup_app_r in Hr by lia.
      apply list_elem_of_lookup_2, list_elem_of_In in Hr.
      unfold freshBatch in Hfresh. rewrite List.Forall_forall in Hfresh.
      rewrite (Hfresh item Hr) in Hup. done.
  - intros r task Ht. destruct (Htask r task Ht) as (item & Hr & Hst).
    exists item. split; [|done].
    rewrite lookup_app_l; [done|]. by eapply lookup_lt_Some.
Qed.

Lemma evolves_pushed batch refs s :
  evolves s
    {| heap := heap s ++ batch; tasks := tasks s;
       transferItems := transferItems s ++ refs;
       uploadQueue := uploadQueue s ++ refs;
       activeUploads := activeUploads s;
       needsInventoryRefresh := needsInventoryRefresh s |}.
Proof.
  intros r item Hr. exists item. cbn.
  split; [|split; [apply sameTransfer_refl|apply advances_refl]].
  rewrite lookup_app_l; [done|]. by eapply lookup_lt_Some.
Qed.

Section Transitions.
Context `{Platform}.
Variable limit : Z.

Lemma cancelTransfer_sound (itemId : jsstring) (s : QueueState) :
  queueInvariant limit s ->
  queueInvariant limit (cancelTransfer limit itemId s)
  /\ evolves s (cancelTransfer limit itemId s).
Proof.
  intros Hinv. unfold cancelTransfer.
  destruct (List.find _ _) as [r|]; [|split; [done|apply evolves_refl]].
  destruct (heap s !! r) as [item|] eqn:Er; [|split; [done|apply evolves_refl]].
  destruct (item_status item) eqn:Es; try (split; [done|apply evolves_refl]).
  - assert (Hnone : tasks s !! r = None).
    { destruct (tasks s !! r) as [task|] eqn:Et; [|done].
      destruct (inv_task _ _ Hinv r task Et) as (item' & Hr' & Hst).
      assert (item' = item) as -> by congruence.
      rewrite Es in Hst. destruct task; cbn in Hst; try done.
      by destruct Hst. }
    split.
    + apply (invariant_at limit r s); try done.
      * intros r' Hne. cbn [heap mutate setUploadQueue].
        by rewrite list_lookup_alter_ne.
      * apply Hinv.
      * apply Hinv.
      * cbn [heap tasks mutate setUploadQueue].
        rewrite Hnone, list_lookup_alter_eq, Er. done.
    + eapply evolves_trans; [|apply evolves_mutate].
      * by apply evolves_core.
      * cbn [heap setUploadQueue]. intros item' Hr'.
        assert (item' = item) as -> by congruence.
        rewrite Es. split; [by repeat split|done].
  - destruct (item_xhr item); [|split; [done|apply evolves_refl]].
    destruct (tasks s !! r) as [[]|] eqn:Et;
      try (split; [done|apply evolves_refl]).
    split.
    + by apply invariant_settled.
    + eapply evolves_trans; [|apply evolves_finishUpload].
      by eapply evolves_failed.
Qed.

Lemma step_sound (s : QueueState) (event : Event) :
  queueInvariant limit s -> wellFormed event ->
  queueInvariant limit (step limit s event)
  /\ evolves s (step limit s event).
Proof.
  intros Hinv Hwf.
  assert (Hstay : queueInvariant limit s /\ evolves s s)
    by (split; [done|apply evolves_refl]).
  destruct event as [batch| |r result|r result|r computable loaded progress
                     |r status|r|r result|r|itemId|itemId|];
    cbn [step]; cbv zeta.
  - (* PushBatch *)
    split.
    + apply invariant_pruned, invariant_drainQueue.
      by apply invariant_pushed.
    + eapply evolves_trans; [|apply evolves_pruned].
      eapply evolves_trans; [|apply evolves_drainQueue].
      apply evolves_pushed.
  - (* ProcessQueue *)
    split; [by apply invariant_drainQueue|apply evolves_drainQueue].
  - (* EnsureSettled *)
    destruct (tasks s !! r) as [[]|] eqn:Et; try exact Hstay.
    destruct (heap s !! r) as [item|] eqn:Er; try exact Hstay.
    destruct (negb (action_ok result)).
    + split; [by apply invariant_settled|].
      eapply evolves_trans; [|apply evolves_finishUpload].
      by eapply evolves_failed.
    + destruct (item_replaceExisting item).
      * split; [|by apply evolves_core].
        apply (invariant_retask limit r AwaitDelete s); try done.
        -- by left.
        -- destruct (inv_task _ _ Hinv r _ Et) as (held & Hr & Hst).
           cbn [heap setTask]. intros item' Hr'.
           assert (item' = held) as -> by congruence. exact Hst.
      * split; [apply invariant_beginTransport; auto
               |apply evolves_beginTransport].
  - (* DeleteSettled *)
    destruct (tasks s !! r) as [[]|] eqn:Et; try exact Hstay.
    destruct (heap s !! r) as [item|] eqn:Er; try exact Hstay.
    destruct (negb (action_ok result) && _).
    + split; [by apply invariant_settled|].
      eapply evolves_trans; [|apply evolves_finishUpload].
      by eapply evolves_failed.
    + split; [apply invariant_beginTransport; auto
             |apply evolves_beginTransport].
  - (* XhrProgress *)
    destruct (tasks s !! r) as [[]|] eqn:Et; try exact Hstay.
    destruct computable; try exact Hstay.
    split; [by apply invariant_kept|].
    apply evolves_kept. intros item. by repeat split.
  - (* XhrLoad *)
    destruct (tasks s !! r) as [[]|] eqn:Et; try exact Hstay.
    destruct (heap s !! r) as [item|] eqn:Er; try exact Hstay.
    destruct (_ && _).
    + unfold finalizeUploadedItem. cbv zeta.
      assert (Hdone :
        queueInvariant limit
          (setTask r (Some AwaitFinalized) (mutate r markComplete s))
        /\ evolves s
             (setTask r (Some AwaitFinalized) (mutate r markComplete s))).
      { split.
        - apply (invariant_retask limit r AwaitFinalized s); try done.
          + right. by eexists.
          + cbn [heap setTask mutate]. rewrite list_lookup_alter_eq, Er.
            intros ? [= <-]. by left.
        - eapply evolves_trans; [by eapply evolves_completed|].
          by apply evolves_core. }
      destruct (getParentInventoryPath _); [|exact Hdone].
      destruct (_ && _); [|exact Hdone].
      split; [|by apply evolves_core].
      apply (invariant_retask limit r AwaitMove s); try done.
      * by left.
      * destruct (inv_task _ _ Hinv r _ Et) as (held & Hr & Hst).
        cbn [heap setTask]. intros item' Hr'.
        assert (item' = held) as -> by congruence. exact Hst.
    + split; [by apply invariant_settled|].
      eapply evolves_trans; [|apply evolves_finishUpload].
      by eapply evolves_failed.
  - (* XhrError *)
    destruct (tasks s !! r) as [[]|] eqn:Et; try exact Hstay.
    split; [by apply invariant_settled|].
    eapply evolves_trans; [|apply evolves_finishUpload].
    by eapply evolves_failed.
  - (* MoveSettled *)
    destruct (tasks s !! r) as [[]|] eqn:Et; try exact Hstay.
    destruct (inv_task _ _ Hinv r _ Et) as (held & Hr & Hst).
    destruct (negb (action_ok result)).
    + split.
      * apply (invariant_retask limit r AwaitFinalized s); try done.
        -- right. by eexists.
        -- cbn [heap setTask mutate]. rewrite list_lookup_alter_eq, Hr.
           intros ? [= <-]. by right.
      * eapply evolves_trans; [by eapply evolves_failed|].
        by apply evolves_core.
    + split.
      * apply (invariant_retask limit r AwaitFinalized s); try done.
        -- right. by eexists.
        -- cbn [heap setTask mutate]. rewrite list_lookup_alter_eq, Hr.
           intros ? [= <-]. by left.
      * eapply evolves_trans; [by eapply evolves_completed|].
        by apply evolves_core.
  - (* LoadResumed *)
    destruct (tasks s !! r) as [[]|] eqn:Et; try exact Hstay.
    destruct (inv_task _ _ Hinv r _ Et) as (held & Hr & Hst).
    split.
    + apply (invariant_finishUpload limit r s); try done.
      * by left.
      * cbn [heap setNeedsInventoryRefresh]. intros item Hr'.
        assert (item = held) as -> by congruence.
        by destruct Hst as [-> | ->].
    + eapply evolves_trans; [|apply evolves_finishUpload].
      by apply evolves_core.
  - (* CancelTransfer *)
    by apply cancelTransfer_sound.
  - (* DismissTransfer *)
    split; [by apply (invariant_core limit s)|by apply evolves_core].
  - (* ClearFinishedTransfers *)
    split; [by apply (invariant_core limit s)|by apply evolves_core].
Qed.

Lemma steps_sound (events : list Event) (s : QueueState) :
  queueInvariant limit s -> List.Forall wellFormed events ->
  queueInvariant limit (fold_left (step limit) events s)
  /\ evolves s (fold_left (step limit) events s).
Proof.
  revert s. induction events as [|event events IH]; intros s Hinv Hwf;
    cbn [fold_left].
  - split; [done|apply evolves_refl].
  - apply List.Forall_cons_iff in Hwf as [Hevent Hwf].
    destruct (step_sound s event Hinv Hevent) as [Hinv' Hev].
    destruct (IH _ Hinv' Hwf) as [Hinv'' Hev'].
    split; [done|by eapply evolves_trans].
Qed.

Lemma initialState_invariant : queueInvariant limit initialState.
Proof.
  split; cbn; try done; lia.
Qed.

Lemma run_invariant (events : list Event) :
  List.Forall wellFormed events -> queueInvariant limit (run limit events).
Proof.
  intros Hwf. by apply steps_sound; [apply initialState_invariant|].
Qed.

(** *** Saturation *)

Lemma saturated_core (s s' : QueueState) :
  uploadQueue s' = uploadQueue s -> activeUploads s' = activeUploads s ->
  saturated limit s -> saturated limit s'.
Proof. unfold saturated. by intros -> ->. Qed.

Lemma saturated_drainQueue (queue : list nat) (s : QueueState) :
  saturated limit (drainQueue limit queue s).
Proof.
  revert s. induction queue as [|next rest IH]; intros s; cbn [drainQueue].
  - by right.
  - destruct (activeUploads s <? limit)%Z eqn:Elt.
    + destruct (statusOf s next) as [[]|]; apply IH.
    + left. cbn. by apply Z.ltb_ge.
Qed.

Lemma saturated_pruned (s : QueueState) :
  saturated limit s -> saturated limit (pruneFinishedTransferHistory s).
Proof.
  unfold pruneFinishedTransferHistory. cbv zeta.
  destruct (_ =? _)%nat; [done|by apply saturated_core].
Qed.

Lemma saturated_finishUpload (r : nat) (s : QueueState) :
  saturated limit (finishUpload limit r s).
Proof.
  unfold finishUpload. cbv zeta.
  match goal with
  | |- saturated _ (if _ then setNeedsInventoryRefresh false ?s' else ?s') =>
      assert (Hs' : saturated limit s')
  end.
  { apply saturated_pruned, saturated_drainQueue. }
  destruct (_ && _); [|done]. by eapply saturated_core; [| |exact Hs'].
Qed.

Lemma removeFirstWithId_nil (s : QueueState) (itemId : jsstring) :
  removeFirstWithId s itemId [] = [].
Proof. done. Qed.

Lemma step_saturated (s : QueueState) (event : Event) :
  saturated limit s -> saturated limit (step limit s event).
Proof.
  intros Hsat.
  destruct event as [batch| |r result|r result|r computable loaded progress
                     |r status|r|r result|r|itemId|itemId|];
    cbn [step]; cbv zeta.
  - apply saturated_pruned, saturated_drainQueue.
  - apply saturated_drainQueue.
  - destruct (tasks s !! r) as [[]|]; try done.
    destruct (heap s !! r) as [item|]; try done.
    destruct (negb _); [apply saturated_finishUpload|].
    destruct (item_replaceExisting item); [by eapply saturated_core|].
    unfold beginTransport. by destruct (newURL _); eapply saturated_core.
  - destruct (tasks s !! r) as [[]|]; try done.
    destruct (heap s !! r) as [item|]; try done.
    destruct (negb _ && _); [apply saturated_finishUpload|].
    unfold beginTransport. by destruct (newURL _); eapply saturated_core.
  - destruct (tasks s !! r) as [[]|]; try done.
    destruct computable; [by eapply saturated_core|done].
  - destruct (tasks s !! r) as [[]|]; try done.
    destruct (heap s !! r) as [item|]; try done.
    destruct (_ && _); [|apply saturated_finishUpload].
    unfold finalizeUploadedItem. cbv zeta.
    destruct (getParentInventoryPath _); [|by eapply saturated_core].
    by destruct (_ && _); eapply saturated_core.
  - destruct (tasks s !! r) as [[]|]; try done.
    apply saturated_finishUpload.
  - destruct (tasks s !! r) as [[]|]; try done.
    by destruct (negb _); eapply saturated_core.
  - destruct (tasks s !! r) as [[]|]; try done.
    apply saturated_finishUpload.
  - unfold cancelTransfer.
    destruct (List.find _ _) as [r|]; [|done].
    destruct (heap s !! r) as [item|]; [|done].
    destruct (item_status item); try done.
    + destruct Hsat as [Hfull|Hempty]; [by left|right].
      cbn. by rewrite Hempty.
    + destruct (item_xhr item); [|done].
      destruct (tasks s !! r) as [[]|]; try done.
      apply saturated_finishUpload.
  - by eapply saturated_core.
  - by eapply saturated_core.
Qed.

Lemma run_saturated (events : list Event) : saturated limit (run limit events).
Proof.
  unfold run.
  assert (Hinit : saturated limit initialState) by (by right).
  revert Hinit. generalize initialState.
  induction events as [|event events IH]; intros s Hsat; cbn [fold_left];
    [done|].
  by apply IH, step_saturated.
Qed.

End Transitions.

(** As many references as there are items that satisfy [P], when every
    such item has its reference in [refs]. *)
Lemma count_bounded (P : TransferItem -> bool) (items : list TransferItem)
    (refs : gset nat) :
  (forall r item, items !! r = Some item -> P item = true -> r ∈ refs) ->
  (length (List.filter P items) <= size refs)%nat.
Proof.
  revert refs. induction items as [|x items IH] using rev_ind; intros refs Hin.
  - cbn. lia.
  - rewrite List.filter_app, length_app. cbn [List.filter].
    destruct (P x) eqn:Ex; cbn [length].
    + assert (Hx : length items ∈ refs).
      { apply (Hin _ x); [|done]. by rewrite lookup_app_r, Nat.sub_diag. }
      specialize (IH (refs ∖ {[length items]})).
      rewrite size_difference, size_singleton in IH by set_solver.
      assert (size refs <> 0)%nat.
      { intros Hz. apply size_empty_inv in Hz. set_solver. }
      enough (length (List.filter P items) <= size refs - 1)%nat by lia.
      apply IH. intros r item Hr HP.
      assert (r < length items)%nat by (by eapply lookup_lt_Some).
      apply elem_of_difference. split.
      * apply (Hin r item); [|done]. by rewrite lookup_app_l.
      * rewrite elem_of_singleton. lia.
    + rewrite Nat.add_0_r. apply IH. intros r item Hr HP.
      apply (Hin r item); [|done].
      rewrite lookup_app_l; [done|]. by eapply lookup_lt_Some.
Qed.

Lemma uploadingCount_bounded `{Platform} (limit : Z) (s : QueueState) :
  queueInvariant limit s ->
  (Z.of_nat (uploadingCount s) <= activeUploads s)%Z.
Proof.
  intros Hinv. rewrite (inv_active _ _ Hinv), <- size_dom.
  apply inj_le. unfold uploadingCount. apply count_bounded.
  intros r item Hr Hup. apply bool_decide_eq_true in Hup.
  apply elem_of_dom. by eapply inv_uploading.
Qed.
(** *** What the queue guarantees *)

(** Four uploads of one file, pushed on the queue as one batch. *)
Definition fourPhotos : list Event :=
  [ PushBatch
      (concat (enqueueUploads true Example.inventory decimal
                 [Example.photo; Example.photo; Example.photo; Example.photo]
                 rename (lit "/"))) ].

Lemma fourPhotos_wellFormed : List.Forall wellFormed fourPhotos.
Proof.
  unfold fourPhotos. constructor; [|constructor]. cbn [wellFormed].
  evaluate (concat (enqueueUploads true Example.inventory decimal
                      [Example.photo; Example.photo; Example.photo;
                       Example.photo] rename (lit "/"))).
  repeat constructor.
Defined.

Lemma uploadConcurrencyLimit_positive (mobile : bool) :
  Z.max 0 (uploadConcurrencyLimit mobile) = uploadConcurrencyLimit mobile.
Proof. by destruct mobile. Qed.

(** X7 (C1). Whatever batches are pushed and whatever events follow, in any
    order, the items whose status is [uploading] are never more than
    [activeUploads], which is the number of uploads whose asynchronous work
    has not ended and never exceeds [uploadConcurrencyLimit]: 1 on a mobile
    client, 3 otherwise. *)
Theorem uploads_within_limit `{Platform} (mobile : bool)
    (events : list Event) :
  List.Forall wellFormed events ->
  (Z.of_nat (uploadingCount (run (uploadConcurrencyLimit mobile) events))
   <= activeUploads (run (uploadConcurrencyLimit mobile) events))%Z
  /\ (activeUploads (run (uploadConcurrencyLimit mobile) events)
      <= uploadConcurrencyLimit mobile)%Z
  /\ activeUploads (run (uploadConcurrencyLimit mobile) events)
     = Z.of_nat (size (tasks (run (uploadConcurrencyLimit mobile) events))).
Proof.
  intros Hwf.
  pose proof (run_invariant (uploadConcurrencyLimit mobile) events Hwf) as Hinv.
  split; [by eapply uploadingCount_bounded|]. split; [|apply Hinv].
  pose proof (inv_limit _ _ Hinv) as Hlim.
  by rewrite uploadConcurrencyLimit_positive in Hlim.
Qed.

Lemma uploads_within_limit_witness :
  (Z.of_nat (uploadingCount (run (uploadConcurrencyLimit false) fourPhotos))
   <= 3)%Z.
Proof.
  destruct (uploads_within_limit false fourPhotos fourPhotos_wellFormed)
    as (Hcount & Hactive & _).
  eapply Z.le_trans; [exact Hcount|exact Hactive].
Defined.

(** X8. The queue never leaves a slot free while it holds an entry: after
    any events, if [uploadQueue] is not empty then [activeUploads] equals
    [uploadConcurrencyLimit]. *)
Theorem queue_never_idles `{Platform} (mobile : bool) (events : list Event) :
  List.Forall wellFormed events ->
  uploadQueue (run (uploadConcurrencyLimit mobile) events) <> [] ->
  activeUploads (run (uploadConcurrencyLimit mobile) events)
  = uploadConcurrencyLimit mobile.
Proof.
  intros Hwf Hqueue.
  pose proof (run_invariant (uploadConcurrencyLimit mobile) events Hwf) as Hinv.
  pose proof (inv_limit _ _ Hinv) as Hlim.
  rewrite uploadConcurrencyLimit_positive in Hlim.
  destruct (run_saturated (uploadConcurrencyLimit mobile) events)
    as [Hfull|Hempty]; [lia|done].
Qed.

Lemma queue_never_idles_witness :
  activeUploads (run (uploadConcurrencyLimit false) fourPhotos) = 3%Z.
Proof.
  apply (queue_never_idles false fourPhotos fourPhotos_wellFormed).
  evaluate (uploadQueue (run (uploadConcurrencyLimit false) fourPhotos)).
  discriminate.
Defined.

(** X9. An item once on the queue stays at its reference and stays the
    same transfer (id, file, names, paths, upload URL, size,
    [replaceExisting]); its status only moves forward, from [queued] to
    [uploading] to [complete] or [error], and a status of [complete] or
    [error] never changes again. *)
Theorem transfer_status_advances `{Platform} (limit : Z)
    (before after : list Event) (r : nat) (item : TransferItem) :
  List.Forall wellFormed before -> List.Forall wellFormed after ->
  heap (run limit before) !! r = Some item ->
  exists item',
    heap (run limit (before ++ after)) !! r = Some item'
    /\ sameTransfer item item'
    /\ advances (item_status item) (item_status item')
    /\ (terminal (item_status item) -> item_status item' = item_status item).
Proof.
  intros Hbefore Hafter Hr.
  pose proof (run_invariant limit before Hbefore) as Hinv.
  destruct (steps_sound limit after (run limit before) Hinv Hafter)
    as [_ Hev].
  destruct (Hev r item Hr) as (item' & Hr' & Hsame & Hadv).
  exists item'. unfold run. rewrite fold_left_app.
  split; [done|]. split; [done|]. split; [done|].
  intros Hterm. by apply advances_terminal.
Qed.

Lemma transfer_status_advances_witness :
  exists item item',
    heap (run 3 fourPhotos) !! 3%nat = Some item
    /\ heap (run 3 (fourPhotos ++ [CancelTransfer (decimal 3)])) !! 3%nat
       = Some item'
    /\ item_status item = queued
    /\ item_status item' = error
    /\ item_targetPath item' = item_targetPath item.
Proof.
  assert (Hitem : exists item,
            heap (run 3 fourPhotos) !! 3%nat = Some item
            /\ item_status item = queued).
  { evaluate (heap (run 3 fourPhotos) !! 3%nat).
    eexists. split; reflexivity. }
  destruct Hitem as (item & Hr & Hq).
  destruct (transfer_status_advances 3 fourPhotos
              [CancelTransfer (decimal 3)] 3 item fourPhotos_wellFormed)
    as (item' & Hr' & Hsame & _); [by repeat constructor|exact Hr|].
  assert (Hcanceled : exists canceled,
            heap (run 3 (fourPhotos ++ [CancelTransfer (decimal 3)])) !! 3%nat
            = Some canceled
            /\ item_status canceled = error).
  { evaluate (heap (run 3 (fourPhotos ++ [CancelTransfer (decimal 3)]))
                !! 3%nat).
    eexists. split; reflexivity. }
  destruct Hcanceled as (canceled & Hc & He).
  assert (canceled = item') as -> by congruence.
  exists item, item'.
  split; [exact Hr|]. split; [exact Hr'|]. split; [exact Hq|].
  split; [exact He|]. symmetry. apply Hsame.
Defined.

(** *** The history of finished transfers *)

Definition activeRef (s : QueueState) (r : nat) : bool :=
  match statusOf s r with
  | Some status => isTransferActive status
  | None => false
  end.

Definition finishedRef (s : QueueState) (r : nat) : bool :=
  match statusOf s r with
  | Some status => negb (isTransferActive status)
  | None => false
  end.

Lemma sublist_rev_rev {A} (l1 l2 : list A) :
  l1 `sublist_of` l2 -> rev l1 `sublist_of` rev l2.
Proof.
  induction 1 as [|x l1 l2 _ IH|x l1 l2 _ IH]; cbn [rev].
  - constructor.
  - by apply sublist_app.
  - by apply sublist_inserts_r.
Qed.

Lemma sublist_same_length {A} (l1 l2 : list A) :
  l1 `sublist_of` l2 -> length l1 = length l2 -> l1 = l2.
Proof.
  induction 1 as [|x l1 l2 _ IH|x l1 l2 Hsub _]; cbn [length]; intros Hlen.
  - done.
  - f_equal. apply IH. lia.
  - apply sublist_length in Hsub. lia.
Qed.

Lemma pruneReversed_sublist (s : QueueState) (newestFirst : list nat)
    (finishedCount : nat) :
  pruneReversed s newestFirst finishedCount `sublist_of` newestFirst.
Proof.
  revert finishedCount.
  induction newestFirst as [|r older IH]; intros n; cbn [pruneReversed].
  - constructor.
  - destruct (statusOf s r) as [status|]; [|by constructor].
    destruct (isTransferActive status); [by constructor|].
    destruct (_ <=? _)%nat; by constructor.
Qed.

Lemma pruneReversed_active (s : QueueState) (newestFirst : list nat)
    (finishedCount r : nat) :
  r ∈ newestFirst -> activeRef s r = true ->
  r ∈ pruneReversed s newestFirst finishedCount.
Proof.
  revert finishedCount.
  induction newestFirst as [|r' older IH]; intros n Hin Hactive;
    cbn [pruneReversed].
  - by apply elem_of_nil in Hin.
  - apply elem_of_cons in Hin as [<-|Hin].
    + unfold activeRef in Hactive.
      destruct (statusOf s r) as [status|]; [|done].
      rewrite Hactive. by left.
    + destruct (statusOf s r') as [status|]; [|by apply IH].
      destruct (isTransferActive status); [right; by apply IH|].
      destruct (_ <=? _)%nat; [by apply IH|right; by apply IH].
Qed.

Lemma pruneReversed_finished (s : QueueState) (newestFirst : list nat)
    (finishedCount : nat) :
  (length (List.filter (finishedRef s)
             (pruneReversed s newestFirst finishedCount))
   <= MAX_FINISHED_TRANSFER_ITEMS - finishedCount)%nat.
Proof.
  revert finishedCount.
  induction newestFirst as [|r older IH]; intros n; cbn [pruneReversed].
  - cbn. lia.
  - destruct (statusOf s r) as [status|] eqn:Es; [|apply IH].
    destruct (isTransferActive status) eqn:Ea.
    + cbn [List.filter]. unfold finishedRef at 1. rewrite Es, Ea. cbn [negb].
      apply IH.
    + destruct (_ <=? _)%nat eqn:Efull; [apply IH|].
      apply Nat.leb_gt in Efull.
      cbn [List.filter]. unfold finishedRef at 1. rewrite Es, Ea.
      cbn [negb length]. specialize (IH (S n)). lia.
Qed.

(** X10. Pruning the history touches nothing but [transferItems]; what it
    leaves is what was there, in the same order, less some entries; no
    entry of a [queued] or [uploading] item is dropped; and at most 260
    entries of finished items remain. *)
Theorem prune_keeps_active_bounds_finished (s : QueueState) :
  heap (pruneFinishedTransferHistory s) = heap s
  /\ tasks (pruneFinishedTransferHistory s) = tasks s
  /\ uploadQueue (pruneFinishedTransferHistory s) = uploadQueue s
  /\ activeUploads (pruneFinishedTransferHistory s) = activeUploads s
  /\ transferItems (pruneFinishedTransferHistory s)
     `sublist_of` transferItems s
  /\ (forall r,
        r ∈ transferItems s -> activeRef s r = true ->
        r ∈ transferItems (pruneFinishedTransferHistory s))
  /\ (length (List.filter (finishedRef s)
                (transferItems (pruneFinishedTransferHistory s)))
      <= MAX_FINISHED_TRANSFER_ITEMS)%nat.
Proof.
  set (next := rev (pruneReversed s (rev (transferItems s)) 0)).
  assert (Hsub : next `sublist_of` transferItems s).
  { pose proof (sublist_rev_rev _ _
                  (pruneReversed_sublist s (rev (transferItems s)) 0)) as Hrev.
    by rewrite rev_involutive in Hrev. }
  assert (Hactive : forall r,
            r ∈ transferItems s -> activeRef s r = true -> r ∈ next).
  { intros r Hin Ha. apply list_elem_of_In. unfold next. apply -> in_rev.
    apply list_elem_of_In, pruneReversed_active; [|done].
    apply list_elem_of_In. apply -> in_rev. by apply list_elem_of_In. }
  assert (Hcount : (length (List.filter (finishedRef s) next)
                    <= MAX_FINISHED_TRANSFER_ITEMS)%nat).
  { unfold next. rewrite List.filter_rev, length_rev.
    pose proof (pruneReversed_finished s (rev (transferItems s)) 0). lia. }
  assert (Hnext : transferItems (pruneFinishedTransferHistory s) = next
                  /\ heap (pruneFinishedTransferHistory s) = heap s
                  /\ tasks (pruneFinishedTransferHistory s) = tasks s
                  /\ uploadQueue (pruneFinishedTransferHistory s)
                     = uploadQueue s
                  /\ activeUploads (pruneFinishedTransferHistory s)
                     = activeUploads s).
  { unfold pruneFinishedTransferHistory. cbv zeta. fold next.
    destruct (length next =? length (transferItems s))%nat eqn:Elen;
      [|done].
    apply Nat.eqb_eq in Elen. split; [|done].
    symmetry. by apply sublist_same_length. }
  destruct Hnext as (-> & Hheap & Htasks & Hqueue & Hact).
  done.
Qed.
(** ** More of the path algebra *)

Lemma fold_normalizeInto_kept (kept segments : list jsstring) :
  List.Forall keptSegment kept ->
  fold_left normalizeInto kept segments = segments ++ kept.
Proof.
  revert segments. induction kept as [|t kept IH]; intros segments Hall;
    cbn [fold_left].
  - by rewrite app_nil_r.
  - apply List.Forall_cons_iff in Hall as [Ht Hall].
    rewrite normalizeInto_kept, IH by done. by rewrite <- app_assoc.
Qed.

Lemma normalizeInto_joined (kept segments : list jsstring) :
  List.Forall keptSegment kept ->
  normalizeInto segments (join (lit "/") kept) = segments ++ kept.
Proof.
  intros Hall. rewrite lit_slash, normalizeInto_join.
  by apply fold_normalizeInto_kept.
Qed.

Lemma normalizeInto_renderPath (kept segments : list jsstring) :
  List.Forall keptSegment kept ->
  normalizeInto segments (renderPath kept) = segments ++ kept.
Proof.
  intros Hall. destruct kept as [|t kept].
  - by rewrite app_nil_r.
  - unfold renderPath. rewrite lit_slash.
    change ([SLASH] ++ ?z) with (@nil N ++ SLASH :: z).
    rewrite normalizeInto_app, normalizeInto_nil, <- lit_slash.
    by apply normalizeInto_joined.
Qed.

Lemma joinPaths_rendered (base : jsstring) (kept : list jsstring) :
  List.Forall keptSegment kept ->
  joinPaths base (renderPath kept) = renderPath (normalizeSegments base ++ kept).
Proof.
  intros Hall. unfold joinPaths, normalizePath. f_equal.
  change (normalizeSegments ?q) with (normalizeInto [] q).
  rewrite lit_slash.
  change (base ++ [SLASH] ++ ?z) with (base ++ SLASH :: z).
  by rewrite normalizeInto_app, normalizeInto_renderPath.
Qed.

(** X11. The path a request is scoped to never leaves the configured root:
    whatever the target path holds, [..] included, the root joined with the
    normalized target is the root's segments followed by the target's. *)
Theorem scoped_path_under_root (rootPath targetPath : jsstring) :
  joinPaths (normalizePath rootPath) (normalizePath targetPath)
  = renderPath (normalizeSegments rootPath ++ normalizeSegments targetPath)
  /\ normalizeSegments
       (joinPaths (normalizePath rootPath) (normalizePath targetPath))
     = normalizeSegments rootPath ++ normalizeSegments targetPath
  /\ List.Forall keptSegment
       (normalizeSegments rootPath ++ normalizeSegments targetPath).
Proof.
  assert (Hall : List.Forall keptSegment
                   (normalizeSegments rootPath ++ normalizeSegments targetPath)).
  { apply List.Forall_app. split; apply normalizeSegments_kept. }
  assert (Hjoin : joinPaths (normalizePath rootPath) (normalizePath targetPath)
                  = renderPath (normalizeSegments rootPath
                                ++ normalizeSegments targetPath)).
  { unfold normalizePath at 2.
    rewrite joinPaths_rendered by apply normalizeSegments_kept.
    by rewrite normalizeSegments_normalizePath. }
  split; [done|]. split; [|done].
  rewrite Hjoin. by apply normalizeSegments_renderPath.
Qed.

(** X12. The URL [buildScopedUrl] gives is the base URL with its path set
    to the segments of the base URL's own path, then those of the root,
    then those of the target, and with the password when there is one. *)
Theorem scoped_url_under_root `{Platform} (connection : CopypartyConnection)
    (targetPath : jsstring) (url : URL) :
  buildScopedUrl connection targetPath = Returned url ->
  exists base,
    newURL (conn_baseUrl connection) = Some base
    /\ url
       = setPassword
           (url_setPathname base
              (renderPath
                 (normalizeSegments (url_pathname base)
                  ++ normalizeSegments (conn_rootPath connection)
                  ++ normalizeSegments targetPath)))
           (conn_password connection).
Proof.
  unfold buildScopedUrl, constructURL. cbv zeta.
  destruct (newURL (conn_baseUrl connection)) as [base|]; [|done].
  intros [= <-]. exists base. split; [done|]. do 2 f_equal.
  unfold normalizePath at 1.
  rewrite (joinPaths_rendered (conn_rootPath connection))
    by apply normalizeSegments_kept.
  rewrite joinPaths_rendered; [done|].
  apply List.Forall_app. split; apply normalizeSegments_kept.
Qed.

Lemma scoped_url_under_root_witness :
  exists url,
    buildScopedUrl
      {| conn_baseUrl := lit "http://files.example.com:3923";
         conn_rootPath := lit "/srv"; conn_password := [];
         conn_cookie := []; conn_timeoutMs := 8000 |}
      (lit "/a/../../etc") = Returned url
    /\ url_pathname url = lit "/srv/etc".
Proof.
  assert (Hurl : exists url,
    buildScopedUrl
      {| conn_baseUrl := lit "http://files.example.com:3923";
         conn_rootPath := lit "/srv"; conn_password := [];
         conn_cookie := []; conn_timeoutMs := 8000 |}
      (lit "/a/../../etc") = Returned url).
  { evaluate (buildScopedUrl
      {| conn_baseUrl := lit "http://files.example.com:3923";
         conn_rootPath := lit "/srv"; conn_password := [];
         conn_cookie := []; conn_timeoutMs := 8000 |}
      (lit "/a/../../etc")).
    eexists. reflexivity. }
  destruct Hurl as (url & Hurl). exists url. split; [exact Hurl|].
  destruct (scoped_url_under_root _ _ _ Hurl) as (base & Hbase & ->).
  assert (base = Example.simpleURL "http:" "files.example.com" "3923" "/")
    as ->.
  { apply (inj Some). rewrite <- Hbase. reflexivity. }
  reflexivity.
Defined.

(** X13. Splitting undoes joining: for a name that is one clean segment, the
    parent of [joinPaths base name] is the normalized [base], its leaf name
    is [name], and it is not the root. *)
Theorem parent_leaf_of_join (base name : jsstring) :
  keptSegment name ->
  getParentPath (joinPaths base name) = Some (normalizePath base)
  /\ getPathLeafName (joinPaths base name) = Some name
  /\ joinPaths base name <> lit "/".
Proof.
  intros Hk. rewrite joinPaths_kept by done.
  assert (Hall : List.Forall keptSegment (normalizeSegments base ++ [name])).
  { apply List.Forall_app. split; [apply normalizeSegments_kept|].
    by constructor. }
  assert (Hne : normalizeSegments base ++ [name] <> [])
    by (by destruct (normalizeSegments base)).
  assert (Hroot : renderPath (normalizeSegments base ++ [name]) <> lit "/").
  { intros Hroot. by apply renderPath_root in Hroot. }
  assert (Hfilter : filterBoolean
                      (split SLASH
                         (renderPath (normalizeSegments base ++ [name])))
                    = normalizeSegments base ++ [name]).
  { rewrite split_renderPath by done. cbn [filterBoolean List.filter nonEmpty].
    unfold filterBoolean. change (List.filter nonEmpty ([] :: ?l))
      with (List.filter nonEmpty l).
    apply List.forallb_filter_id. apply List.forallb_forall.
    intros t Ht. rewrite List.Forall_forall in Hall.
    destruct (Hall t Ht) as (Hnil & _). by destruct t. }
  split; [|split; [|done]].
  - unfold getParentPath. rewrite bool_decide_eq_false_2 by done.
    rewrite Hfilter, removelast_last. done.
  - unfold getPathLeafName. rewrite Hfilter. apply last_snoc.
Qed.

Lemma parent_leaf_of_join_witness :
  getParentPath (joinPaths (lit "/docs/./drafts/..") (lit "report.txt"))
  = Some (lit "/docs")
  /\ getPathLeafName (joinPaths (lit "/docs/./drafts/..") (lit "report.txt"))
     = Some (lit "report.txt").
Proof.
  assert (Hk : keptSegment (lit "report.txt")).
  { repeat split; try discriminate.
    - intros Hin. vm_compute in Hin. intuition discriminate.
    - intros Hin. vm_compute in Hin. intuition discriminate. }
  destruct (parent_leaf_of_join (lit "/docs/./drafts/..") (lit "report.txt") Hk)
    as (Hparent & Hleaf & _).
  split; [|exact Hleaf]. rewrite Hparent. reflexivity.
Defined.

(** ** Leaf names *)

Lemma includes_absent (s : jsstring) (c : N) :
  ~ In c s -> includes s [c] = false.
Proof.
  induction s as [|d s IH]; [done|]. intros Hin.
  change (includes (d :: s) [c])
    with (((d =? c) && startsWith s []) || includes s [c]).
  rewrite IH by (intros H; apply Hin; by right).
  destruct (d =? c) eqn:Hd; [|done].
  apply N.eqb_eq in Hd. destruct Hin. by left.
Qed.

(** X14. [sanitizeLeafName] returns exactly when the trimmed value is one
    clean path segment (not empty, not [.] or [..], free of both slashes),
    and then returns it trimmed; otherwise it throws. *)
Theorem sanitizeLeafName_spec `{Platform} (value label cleaned : jsstring) :
  sanitizeLeafName value label = Returned cleaned
  <-> cleaned = trim value /\ keptSegment cleaned.
Proof.
  split.
  - intros Hret. split; [|by eapply sanitizeLeafName_kept].
    revert Hret. unfold sanitizeLeafName. cbv zeta.
    destruct (negb _); [done|]. destruct (_ || _); [done|].
    destruct (_ || _); [done|]. by intros [= <-].
  - intros [-> (Hne & _ & Hdot & Hdots & Hslash & Hback)].
    unfold sanitizeLeafName. cbv zeta.
    destruct (trim value) as [|c t] eqn:Et; [done|]. cbn [nonEmpty negb].
    rewrite !bool_decide_eq_false_2 by done. cbn [orb].
    rewrite lit_slash, !includes_absent by done. done.
Qed.

(** ** Error messages *)

Lemma startsWith_app (a b : jsstring) : startsWith (a ++ b) a = true.
Proof.
  induction a as [|c a IH]; [by destruct b|].
  cbn. by rewrite N.eqb_refl, IH.
Qed.

Lemma includes_start (s needle : jsstring) :
  startsWith s needle = true -> includes s needle = true.
Proof. intros Hs. destruct s; cbn [includes]; by rewrite Hs. Qed.

Lemma includes_app (a b c : jsstring) : includes (a ++ b ++ c) b = true.
Proof.
  induction a as [|d a IH].
  - change ([] ++ b ++ c) with (b ++ c). apply includes_start, startsWith_app.
  - change (includes ((d :: a) ++ b ++ c) b)
      with (startsWith (d :: a ++ b ++ c) b || includes (a ++ b ++ c) b).
    rewrite IH. apply orb_true_r.
Qed.

(** X15. Whatever the response, the message [buildHttpErrorMessage] makes
    begins with the prefix, then [: HTTP ] and the status in decimal; so it
    includes [HTTP ] followed by that status, which is what the upload
    queue looks for ([HTTP 404]) after a delete. *)
Theorem buildHttpErrorMessage_status `{Platform} (prefix : jsstring)
    (response : Response) :
  (exists rest,
     buildHttpErrorMessage prefix response
     = prefix ++ lit ": HTTP " ++ decimal (resp_status response) ++ rest)
  /\ includes (buildHttpErrorMessage prefix response)
       (lit "HTTP " ++ decimal (resp_status response)) = true.
Proof.
  assert (Hrest : exists rest,
            buildHttpErrorMessage prefix response
            = prefix ++ lit ": HTTP " ++ decimal (resp_status response)
              ++ rest).
  { unfold buildHttpErrorMessage. cbv zeta.
    destruct (negb _); [by eexists|].
    destruct (resp_status response =? 401)%nat eqn:E401; cbn [andb].
    - apply Nat.eqb_eq in E401. rewrite E401.
      destruct (includes _ _).
      + eexists. f_equal.
      + cbn [Nat.eqb andb]. by eexists.
    - destruct (resp_status response =? 422)%nat eqn:E422; cbn [andb].
      + apply Nat.eqb_eq in E422. rewrite E422.
        destruct (includes _ _).
        * eexists. f_equal.
        * by eexists.
      + by eexists. }
  split; [exact Hrest|]. destruct Hrest as (rest & ->).
  change (lit ": HTTP ") with (lit ": " ++ lit "HTTP ").
  rewrite <- !app_assoc.
  rewrite (app_assoc prefix (lit ": ")).
  rewrite (app_assoc (lit "HTTP ") (decimal (resp_status response)) rest).
  apply includes_app.
Qed.

(** ** File names *)

Lemma last_occurrence (c : N) (s : jsstring) :
  In c s -> exists a b, s = a ++ c :: b /\ ~ In c b.
Proof.
  induction s as [|d s IH]; [done|]. intros Hin.
  destruct (in_dec N.eq_dec c s) as [Hs|Hs].
  - destruct (IH Hs) as (a & b & -> & Hb). by exists (d :: a), b.
  - destruct Hin as [->|Hin]; [|done]. by exists [], s.
Qed.

(** X16. [splitFileName] cuts a name in two parts that give the name back
    when put together. The extension is empty, or it is the last dot of the
    name with what follows it, that being non-empty and free of dots; the
    stem is empty only for the empty name. A name whose only dot is its
    first or its last character has no extension. *)
Theorem splitFileName_spec (name : jsstring) :
  fst (splitFileName name) ++ snd (splitFileName name) = name
  /\ (name <> [] -> fst (splitFileName name) <> [])
  /\ (snd (splitFileName name) = []
      \/ exists rest,
           snd (splitFileName name) = DOT :: rest
           /\ rest <> [] /\ ~ In DOT rest)
  /\ (forall rest, ~ In DOT rest ->
        splitFileName (DOT :: rest) = (DOT :: rest, [])
        /\ splitFileName (rest ++ [DOT]) = (rest ++ [DOT], [])).
Proof.
  split; [apply splitFileName_app|]. split; [apply splitFileName_stem|].
  split.
  - unfold splitFileName. cbv zeta.
    destruct (lastIndexOf name DOT <=? 0)%Z eqn:Elow; cbn [orb];
      [by left|].
    destruct (Z.of_nat (length name) - 1 <=? lastIndexOf name DOT)%Z
      eqn:Ehigh; [by left|].
    right. cbn [snd]. apply Z.leb_gt in Elow, Ehigh.
    destruct (in_dec N.eq_dec DOT name) as [Hin|Hout].
    + destruct (last_occurrence DOT name Hin) as (a & b & -> & Hb).
      unfold lastIndexOf in *.
      rewrite lastIndexFrom_last in * by done.
      rewrite length_app in Ehigh. cbn [length] in Ehigh.
      exists b. unfold sliceFrom.
      replace (Z.to_nat (0 + Z.of_nat (length a))) with (length a) by lia.
      rewrite drop_app_length. split; [done|]. split; [|done].
      intros ->. cbn [length] in Ehigh. lia.
    + unfold lastIndexOf in Elow.
      rewrite lastIndexFrom_absent in Elow by done. lia.
  - intros rest Hrest. unfold splitFileName, lastIndexOf. cbv zeta. split.
    + change (DOT :: rest) with ([] ++ DOT :: rest).
      rewrite lastIndexFrom_last by done. done.
    + change (rest ++ [DOT]) with (rest ++ DOT :: []).
      rewrite lastIndexFrom_last; [|done|apply in_nil].
      rewrite length_app. cbn [length].
      destruct (_ <=? 0)%Z; [done|].
      rewrite (proj2 (Z.leb_le _ _)) by lia. done.
Qed.

(** ** Relative paths of uploads *)

Lemma normalizeSegments_joined (kept : list jsstring) :
  List.Forall keptSegment kept ->
  normalizeSegments (join (lit "/") kept) = kept.
Proof.
  intros Hall. change (normalizeSegments ?q) with (normalizeInto [] q).
  by rewrite normalizeInto_joined.
Qed.

Lemma normalizeUploadRelativePath_idempotent (path : jsstring) :
  normalizeUploadRelativePath (normalizeUploadRelativePath path)
  = normalizeUploadRelativePath path.
Proof.
  assert (Hnorm : forall q, normalizeUploadRelativePath q
                            = join (lit "/") (normalizeSegments q)) by done.
  rewrite !Hnorm.
  by rewrite normalizeSegments_joined by apply normalizeSegments_kept.
Qed.

(** A relative path that is not empty once normalized has a file name, and
    that is a clean segment. *)
Lemma splitUploadRelativePath_named (path : jsstring) :
  normalizeUploadRelativePath path <> [] ->
  keptSegment (snd (splitUploadRelativePath path)).
Proof.
  intros Hne. destruct (splitUploadRelativePath_fileName path) as [Hnil|Hk];
    [|done].
  revert Hnil. unfold splitUploadRelativePath. cbv zeta.
  destruct (normalizeUploadRelativePath_segments path)
    as (segments & Hsegs & Hall).
  rewrite Hsegs in *.
  destruct (nonEmpty (join (lit "/") segments)) eqn:E; cbn [negb]; cbv iota.
  2:{ by destruct (join (lit "/") segments). }
  cbn [snd].
  assert (Hsome : segments <> []) by (by intros ->).
  rewrite lit_slash, split_join; [|done|].
  - destruct (exists_last Hsome) as (init & x & ->).
    rewrite last_snoc. cbn [orElse]. intros ->.
    apply List.Forall_app in Hall as [_ Hx].
    apply List.Forall_cons_iff in Hx as [(Hx & _) _]. done.
  - intros x Hx. rewrite List.Forall_forall in Hall.
    by destruct (Hall x Hx) as (_ & _ & _ & _ & Hs & _).
Qed.

(** X17. Normalizing the relative path of an upload is idempotent, and
    the path splits at its last segment: the file name is that segment, a
    clean one, and the directory is the segments before it, joined; the
    path of no segment at all gives an empty directory and an empty name. *)
Theorem splitUploadRelativePath_spec (path : jsstring) :
  normalizeUploadRelativePath (normalizeUploadRelativePath path)
  = normalizeUploadRelativePath path
  /\ (normalizeSegments path = [] ->
      splitUploadRelativePath path = ([], []))
  /\ (forall directories fileName,
        normalizeSegments path = directories ++ [fileName] ->
        splitUploadRelativePath path = (join (lit "/") directories, fileName)
        /\ keptSegment fileName
        /\ List.Forall keptSegment directories).
Proof.
  pose proof (normalizeSegments_kept path) as Hall.
  assert (Hnorm : normalizeUploadRelativePath path
                  = join (lit "/") (normalizeSegments path)) by done.
  split; [|split].
  - apply normalizeUploadRelativePath_idempotent.
  - intros Hnil. unfold splitUploadRelativePath. cbv zeta.
    by rewrite Hnorm, Hnil.
  - intros directories fileName Hsegs. rewrite Hsegs in Hall.
    apply List.Forall_app in Hall as [Hdirs Hfile].
    apply List.Forall_cons_iff in Hfile as [Hfile _].
    split; [|done].
    unfold splitUploadRelativePath. cbv zeta. rewrite Hnorm, Hsegs.
    assert (Hne : nonEmpty (join (lit "/") (directories ++ [fileName]))
                  = true).
    { destruct (join (lit "/") (directories ++ [fileName])) eqn:E; [|done].
      apply join_nil_inv in E.
      - by destruct directories.
      - apply List.Forall_app. split; [done|by constructor]. }
    rewrite Hne. cbn [negb]. rewrite lit_slash, split_join.
    + by rewrite removelast_last, last_snoc.
    + by destruct directories.
    + intros x Hx. apply in_app_iff in Hx as [Hx|[<-|[]]].
      * rewrite List.Forall_forall in Hdirs.
        by destruct (Hdirs x Hx) as (_ & _ & _ & _ & Hs & _).
      * by destruct Hfile as (_ & _ & _ & _ & Hs & _).
Qed.
(** ** What a mutation asks of the backend *)

(** The headers [fetchCopyparty] forces on a request, and its deadline. *)
Definition pinned `{Platform} (timeoutMs : Z) (request : Request) : Prop :=
  req_headers request !! lit "origin"
  = Some (url_protocol (req_url request) ++ lit "//"
          ++ url_host (req_url request))
  /\ req_headers request !! lit "referer"
     = Some ((url_protocol (req_url request) ++ lit "//"
              ++ url_host (req_url request)) ++ lit "/")
  /\ req_timeoutMs request = timeoutMs.

(** A run that sent nothing, or sent one request that satisfies [P] and
    settled as the backend answered it: returned on a status from 200 to
    299, threw on any other, and threw what the transport threw. *)
Definition answered `{Platform} (fetch : FetchLike) (P : Request -> Prop)
    (m : Run unit) : Prop :=
  fst m = []
  \/ exists request,
       fst m = [request] /\ P request
       /\ match fetch request with
          | Rejects e => snd m = Thrown e
          | Resolves response =>
              if resp_ok response then snd m = Returned tt
              else exists e, snd m = Thrown e
          end.

Lemma answered_lift `{Platform} {A} (fetch : FetchLike) (P : Request -> Prop)
    (o : Outcome A) (k : A -> Run unit) :
  (forall a, o = Returned a -> answered fetch P (k a)) ->
  answered fetch P (lift o ≫= k).
Proof.
  intros Hk. destruct o as [a|e]; [|by left].
  specialize (Hk a eq_refl). unfold mbind, run_bind, bindRun, lift.
  by destruct (k a).
Qed.

Lemma answered_fetchCopyparty `{Platform} (fetch : FetchLike)
    (P : Request -> Prop) (connection : CopypartyConnection) (url : URL)
    (verb : jsstring) (initHeaders : gmap jsstring jsstring)
    (requestCookie : option jsstring) (k : Response -> Run unit) :
  (forall request,
     req_method request = verb -> req_url request = url ->
     pinned (conn_timeoutMs connection) request -> P request) ->
  (forall response,
     fst (k response) = []
     /\ if resp_ok response then snd (k response) = Returned tt
        else exists e, snd (k response) = Thrown e) ->
  answered fetch P
    (fetchCopyparty connection fetch url verb initHeaders requestCookie ≫= k).
Proof.
  intros HP Hk. right. unfold fetchCopyparty. cbv zeta.
  match goal with
  | |- context [await_fetch fetch ?r] => set (request := r)
  end.
  exists request. split; [|split].
  - rewrite bindRun_fst, await_fetch_fst, await_fetch_snd.
    destruct (fetch request) as [e|response]; [done|].
    by rewrite (proj1 (Hk response)).
  - apply HP; [done|done|]. unfold pinned, request. cbn.
    split; [|split; [|done]].
    + destruct (nonEmpty _);
        rewrite ?(lookup_insert_ne _ (lit "cookie"))
          by (vm_compute; discriminate);
        rewrite (lookup_insert_ne _ (lit "referer"))
          by (vm_compute; discriminate);
        by rewrite lookup_insert_eq.
    + destruct (nonEmpty _);
        rewrite ?(lookup_insert_ne _ (lit "cookie"))
          by (vm_compute; discriminate);
        by rewrite lookup_insert_eq.
  - rewrite bindRun_snd, await_fetch_snd.
    destruct (fetch request) as [e|response]; [done|].
    apply (Hk response).
Qed.

Lemma getCopypartyConnection_timeout `{Platform} (env : Env)
    (connection : CopypartyConnection) :
  getCopypartyConnection env = Returned connection ->
  conn_timeoutMs connection
  = orElse (parsePositiveNumber (COPYPARTY_TIMEOUT_MS env)) DEFAULT_TIMEOUT_MS
  /\ (0 < conn_timeoutMs connection)%Z.
Proof.
  unfold getCopypartyConnection. destruct (truthy _); [|done].
  intros [= <-]. cbn. split; [done|].
  unfold parsePositiveNumber. destruct (truthy _); [|done].
  destruct (parseInt10 _) as [parsed|]; [|done].
  destruct (0 <? parsed)%Z eqn:E; [|done]. by apply Z.ltb_lt in E.
Qed.

(** What the requests of the mutation client have in common. *)
Definition mutationRequest `{Platform} (env : Env) (request : Request) : Prop :=
  In (req_method request) [lit "DELETE"; lit "MOVE"; lit "MKCOL"]
  /\ pinned
       (orElse (parsePositiveNumber (COPYPARTY_TIMEOUT_MS env))
          DEFAULT_TIMEOUT_MS)
       request
  /\ (0 < req_timeoutMs request)%Z.

Lemma mutationRequest_intro `{Platform} (env : Env)
    (connection : CopypartyConnection) (verb : jsstring) (request : Request) :
  getCopypartyConnection env = Returned connection ->
  In verb [lit "DELETE"; lit "MOVE"; lit "MKCOL"] ->
  req_method request = verb ->
  pinned (conn_timeoutMs connection) request ->
  mutationRequest env request.
Proof.
  intros Hc Hverb Hm Hp.
  destruct (getCopypartyConnection_timeout env connection Hc) as [Ht Hpos].
  destruct Hp as (Ho & Hr & Htime).
  split; [by rewrite Hm|]. split.
  - split; [done|]. split; [done|]. by rewrite Htime.
  - by rewrite Htime.
Qed.

Lemma settle_ok `{Platform} (response : Response) (e : JSError) :
  fst ((if resp_ok response then mret tt else throw e) : Run unit) = []
  /\ if resp_ok response
     then snd ((if resp_ok response then mret tt else throw e) : Run unit)
          = Returned tt
     else exists e',
            snd ((if resp_ok response then mret tt else throw e) : Run unit)
            = Thrown e'.
Proof. destruct (resp_ok response); [done|]. split; [done|by eexists]. Qed.

Lemma moveScopedPath_answered `{Platform} (env : Env) (fetch : FetchLike)
    (connection : CopypartyConnection) (sourcePath destinationPath : jsstring)
    (requestCookie : option jsstring) (errorPrefix : jsstring) :
  getCopypartyConnection env = Returned connection ->
  answered fetch (mutationRequest env)
    (moveScopedPath connection fetch sourcePath destinationPath requestCookie
       errorPrefix).
Proof.
  intros Hc. unfold moveScopedPath.
  apply answered_lift. intros sourceUrl _.
  apply answered_lift. intros destinationUrl _. cbv zeta.
  apply answered_fetchCopyparty.
  - intros request Hm _ Hp.
    apply (mutationRequest_intro env connection (lit "MOVE")); try done.
    right. by left.
  - intros response. apply settle_ok.
Qed.

Lemma mutations_answered `{Platform} (env : Env) (fetch : FetchLike)
    (requestCookie : option jsstring) :
  (forall targetPath,
     answered fetch (mutationRequest env)
       (deleteInventoryPath env fetch targetPath requestCookie))
  /\ (forall targetPath newName,
        answered fetch (mutationRequest env)
          (renameInventoryPath env fetch targetPath newName requestCookie))
  /\ (forall targetPath destinationPath,
        answered fetch (mutationRequest env)
          (moveInventoryPath env fetch targetPath destinationPath
             requestCookie))
  /\ (forall parentPath folderName,
        answered fetch (mutationRequest env)
          (createInventoryDirectory env fetch parentPath folderName
             requestCookie)).
Proof.
  split; [|split; [|split]].
  - intros targetPath. unfold deleteInventoryPath.
    apply answered_lift. intros connection Hc. cbv zeta.
    destruct (bool_decide _); [by left|].
    apply answered_lift. intros url _.
    apply answered_fetchCopyparty.
    + intros request Hm _ Hp.
      apply (mutationRequest_intro env connection (lit "DELETE")); try done.
      by left.
    + intros response. apply settle_ok.
  - intros targetPath newName. unfold renameInventoryPath.
    apply answered_lift. intros connection Hc. cbv zeta.
    destruct (bool_decide _); [by left|].
    apply answered_lift. intros safeName _.
    destruct (getParentPath _); [|by left].
    destruct (bool_decide _); [by left|].
    by apply moveScopedPath_answered.
  - intros targetPath destinationPath. unfold moveInventoryPath.
    apply answered_lift. intros connection Hc. cbv zeta.
    destruct (bool_decide _); [by left|].
    destruct (truthy _); [|by left].
    destruct (bool_decide _); [by left|].
    by apply moveScopedPath_answered.
  - intros parentPath folderName. unfold createInventoryDirectory.
    apply answered_lift. intros connection Hc.
    apply answered_lift. intros safeFolderName _. cbv zeta.
    apply answered_lift. intros url _.
    apply answered_fetchCopyparty.
    + intros request Hm _ Hp.
      apply (mutationRequest_intro env connection (lit "MKCOL")); try done.
      right. right. by left.
    + intros response. destruct (resp_ok response); [done|].
      split; [by destruct (_ || _)|]. destruct (_ || _); by eexists.
Qed.

(** X18. Deleting, renaming, moving and creating a directory each send at
    most one request. When one is sent, the operation returns exactly when
    the backend answers it with a status from 200 to 299; on any other
    status it throws, and when the transport fails it throws what the
    transport threw. *)
Theorem mutations_report_backend `{Platform} (env : Env) (fetch : FetchLike)
    (requestCookie : option jsstring) :
  (forall targetPath,
     answered fetch (fun _ => True)
       (deleteInventoryPath env fetch targetPath requestCookie))
  /\ (forall targetPath newName,
        answered fetch (fun _ => True)
          (renameInventoryPath env fetch targetPath newName requestCookie))
  /\ (forall targetPath destinationPath,
        answered fetch (fun _ => True)
          (moveInventoryPath env fetch targetPath destinationPath
             requestCookie))
  /\ (forall parentPath folderName,
        answered fetch (fun _ => True)
          (createInventoryDirectory env fetch parentPath folderName
             requestCookie)).
Proof.
  assert (Hweaken : forall m,
            answered fetch (mutationRequest env) m ->
            answered fetch (fun _ => True) m).
  { intros m [Hnone|(request & Hsent & _ & Hsettled)]; [by left|].
    right. by exists request. }
  destruct (mutations_answered env fetch requestCookie)
    as (Hdelete & Hrename & Hmove & Hmkdir).
  split; [|split; [|split]]; intros; by apply Hweaken.
Qed.

Lemma requests_of_answered `{Platform} (fetch : FetchLike)
    (P : Request -> Prop) (m : Run unit) (request : Request) :
  answered fetch P m -> In request (fst m) -> P request.
Proof.
  intros [Hnone|(sent & Hsent & HP & _)] Hin.
  - by rewrite Hnone in Hin.
  - rewrite Hsent in Hin. by destruct Hin as [<-|[]].
Qed.


(** ** The answers of the action endpoint *)

Lemma dispatch_returned `{Platform} (env : Env) (fetch : FetchLike)
    (payload : JSValue) (action requestCookie : jsstring)
    (response : FilesRoute.JsonResponse) :
  snd (FilesRoute.dispatch env fetch payload action requestCookie)
  = Returned response ->
  response = FilesRoute.success
  \/ (exists message, response = FilesRoute.failure message 400
                      /\ fst (FilesRoute.dispatch env fetch payload action
                                requestCookie) = []).
Proof.
  assert (Hop : forall (m : Run unit),
            snd (m ≫= (fun _ => mret FilesRoute.success)) = Returned response ->
            response = FilesRoute.success).
  { intros m. rewrite bindRun_snd. destruct (snd m); [|done].
    by intros [= <-]. }
  unfold FilesRoute.dispatch.
  repeat match goal with
         | |- context [if bool_decide ?P then _ else _] =>
             destruct (bool_decide P)
         | |- context [if negb ?b then _ else _] => destruct (negb b)
         end;
    try (intros [= <-]; right; by eexists);
    intros Hret; left; by eapply Hop.
Qed.

Lemma dispatch_sends `{Platform} (env : Env) (fetch : FetchLike)
    (payload : JSValue) (action requestCookie : jsstring) :
  (length (fst (FilesRoute.dispatch env fetch payload action requestCookie))
   <= 1)%nat.
Proof.
  assert (Hop : forall (m : Run unit),
            answered fetch (mutationRequest env) m ->
            (length (fst (m ≫= (fun _ => mret FilesRoute.success))) <= 1)%nat).
  { intros m Hm. rewrite bindRun_fst.
    assert (Htail : match snd m with
                    | Returned a =>
                        fst ((fun _ : unit => mret FilesRoute.success) a
                             : Run FilesRoute.JsonResponse)
                    | Thrown _ => []
                    end = []) by (by destruct (snd m)).
    rewrite Htail, app_nil_r.
    destruct Hm as [->|(request & -> & _)]; cbn; lia. }
  destruct (mutations_answered env fetch (Some requestCookie))
    as (Hdelete & Hrename & Hmove & Hmkdir).
  unfold FilesRoute.dispatch.
  repeat match goal with
         | |- context [if bool_decide ?P then _ else _] =>
             destruct (bool_decide P)
         | |- context [if negb ?b then _ else _] => destruct (negb b)
         end;
    try (cbn; lia); apply Hop; auto.
Qed.

(** X20. The endpoint returns an answer exactly when the body is not the
    JSON [null]; on [null] it throws a [TypeError] outside its [try]. An
    answer is [ok] with status 200, or not [ok] with an error message and
    status 400 or 502. At most one request goes to the backend, and none
    when the body is not JSON. *)
Theorem POST_answers `{Platform} (env : Env) (fetch : FetchLike)
    (event : FilesRoute.RequestEvent) :
  ((exists response,
      snd (FilesRoute.POST env fetch event) = Returned response)
   <-> FilesRoute.request_json event <> Some JNull
       /\ FilesRoute.request_json event <> Some JUndefined)
  /\ (forall response,
        snd (FilesRoute.POST env fetch event) = Returned response ->
        response = FilesRoute.success
        \/ exists message,
             response = FilesRoute.failure message 400
             \/ response = FilesRoute.failure message 502)
  /\ (length (fst (FilesRoute.POST env fetch event)) <= 1)%nat
  /\ (FilesRoute.request_json event = None ->
      FilesRoute.POST env fetch event
      = ([], Returned (FilesRoute.failure (lit "Invalid JSON body.") 400))).
Proof.
  assert (Htry : forall payload,
    let m :=
      tryCatch
        (FilesRoute.dispatch env fetch payload
           (FilesRoute.asString (getProp payload (lit "action")))
           (FilesRoute.forwardedCookie env event))
        (fun error =>
           mret
             (FilesRoute.failure (FilesRoute.resolveErrorMessage error)
                (if FilesRoute.isLikelyClientError
                      (FilesRoute.resolveErrorMessage error)
                 then 400%nat else 502%nat))) in
    (exists response, snd m = Returned response)
    /\ (forall response,
          snd m = Returned response ->
          response = FilesRoute.success
          \/ exists message,
               response = FilesRoute.failure message 400
               \/ response = FilesRoute.failure message 502)
    /\ (length (fst m) <= 1)%nat).
  { intros payload. cbv zeta.
    pose proof (dispatch_returned env fetch payload
                  (FilesRoute.asString (getProp payload (lit "action")))
                  (FilesRoute.forwardedCookie env event)) as Hret.
    pose proof (dispatch_sends env fetch payload
                  (FilesRoute.asString (getProp payload (lit "action")))
                  (FilesRoute.forwardedCookie env event)) as Hsent.
    destruct (FilesRoute.dispatch env fetch payload _ _)
      as [sent [response|e]]; cbn [tryCatch fst snd] in *.
    - split; [by eexists|]. split; [|done].
      intros ? [= <-]. destruct (Hret response eq_refl) as [->|(m & -> & _)];
        [by left|right; exists m; by left].
    - unfold mret, run_ret. rewrite app_nil_r. cbn [fst snd].
      split; [by eexists|]. split; [|done].
      intros ? [= <-]. right. eexists.
      destruct (FilesRoute.isLikelyClientError _); [by left|by right]. }
  unfold FilesRoute.POST.
  destruct (FilesRoute.request_json event) as [payload|].
  2:{ split; [|split; [|split]]; try done.
      - split; [done|]. intros _. by eexists.
      - intros ? [= <-]. right. eexists. by left.
      - cbn. lia. }
  destruct payload as [| |b|x|s|items|fields].
  1,2: (split; [|split; [|split]];
        [ split; [by intros (? & ?)|intros [? ?]; congruence]
        | done | cbn; lia | done ]).
  all: (match goal with
        | |- context [tryCatch (FilesRoute.dispatch _ _ ?p _ _) _] =>
            destruct (Htry p) as (Hsome & Hshape & Hsent)
        end;
        split; [|split; [|split]];
        [ split; [intros _; split; discriminate|by intros _]
        | done | done | done ]).
Qed.

(** ** The entries of a listing *)

Lemma mapItem_shape `{Platform} (item : JSValue) (kind : EntryKind)
    (currentPath rootPath baseUrl password : jsstring)
    (entry : InventoryEntry) :
  mapItem item kind currentPath rootPath baseUrl password = Returned entry ->
  entry_kind entry = kind
  /\ entry_name entry <> []
  /\ entry_nextPath entry
     = match kind with
       | dir => Some (joinPaths currentPath (entry_name entry))
       | file => None
       end.
Proof.
  unfold mapItem. cbv zeta.
  match goal with
  | |- context [buildItemHref ?a ?b ?c ?d ?name ?k ?p] =>
      assert (Hname : name <> []);
      [|destruct (buildItemHref a b c d name k p)]
  end.
  - destruct (nonEmpty (cleanItemName (asString (getProp item (lit "name")))))
      eqn:Eraw.
    + by destruct (cleanItemName (asString (getProp item (lit "name")))).
    + destruct (nonEmpty
                  (cleanItemName
                     (extractNameFromHref (asString (getProp item (lit "href"))))))
        eqn:Einferred; [|done].
      by destruct (cleanItemName
                     (extractNameFromHref
                        (asString (getProp item (lit "href"))))).
  - cbn. intros [= <-]. cbn. done.
  - done.
Qed.

Lemma mapOutcome_shape {A B} (f : A -> Outcome B) (P : B -> Prop)
    (items : list A) (results : list B) :
  (forall x y, f x = Returned y -> P y) ->
  mapOutcome f items = Returned results ->
  length results = length items /\ List.Forall P results.
Proof.
  intros Hf. revert results.
  induction items as [|x items IH]; intros results; cbn [mapOutcome].
  - by intros [= <-].
  - unfold mbind, outcome_bind, bindOutcome.
    destruct (f x) as [y|] eqn:Ey; [|done].
    destruct (mapOutcome f items) as [ys|]; [|done].
    intros [= <-]. destruct (IH ys eq_refl) as [Hlen Hall].
    split; [cbn; by rewrite Hlen|]. constructor; [by eapply Hf|done].
Qed.

Lemma insertBy_Permutation {A} (compare : A -> A -> Z) (x : A)
    (sorted : list A) :
  Permutation (insertBy compare x sorted) (x :: sorted).
Proof.
  induction sorted as [|y rest IH]; cbn [insertBy]; [done|].
  destruct (_ <? 0)%Z; [done|]. rewrite IH. apply perm_swap.
Qed.

Lemma sortBy_Permutation {A} (compare : A -> A -> Z) (items : list A) :
  Permutation (sortBy compare items) items.
Proof.
  unfold sortBy.
  assert (Hgen : forall sorted,
            Permutation
              (fold_left (fun sorted x => insertBy compare x sorted) items
                 sorted)
              (sorted ++ items)).
  { induction items as [|x items IH]; intros sorted; cbn [fold_left].
    - by rewrite app_nil_r.
    - rewrite IH, insertBy_Permutation. apply Permutation_middle. }
  apply (Hgen []).
Qed.



(** ** Names made unique *)

(** X22. [makeUniqueFileName] always ends, with a name that was not
    reserved, and it reserves that name and no other. A base name that is
    free is kept; one that is taken gets the smallest index from 2 on
    whose numbered name, the index in parentheses between stem and
    extension, is free. The name made from a clean path segment is one. *)
Theorem makeUniqueFileName_fresh (baseName : jsstring)
    (reservedNames : gset jsstring) :
  fst (makeUniqueFileName baseName reservedNames) ∉ reservedNames
  /\ snd (makeUniqueFileName baseName reservedNames)
     = {[fst (makeUniqueFileName baseName reservedNames)]} ∪ reservedNames
  /\ (baseName ∉ reservedNames ->
      fst (makeUniqueFileName baseName reservedNames) = baseName)
  /\ (baseName ∈ reservedNames ->
      exists index,
        (2 <= index)%nat
        /\ fst (makeUniqueFileName baseName reservedNames)
           = fst (splitFileName baseName) ++ lit " (" ++ decimal index
             ++ lit ")" ++ snd (splitFileName baseName)
        /\ forall j, (2 <= j < index)%nat ->
             numberedName (fst (splitFileName baseName))
               (snd (splitFileName baseName)) j ∈ reservedNames)
  /\ (keptSegment baseName ->
      keptSegment (fst (makeUniqueFileName baseName reservedNames))).
Proof.
  destruct (makeUniqueFileName_spec baseName reservedNames)
    as (Hfresh & Hset & Hfree & Htaken).
  split; [done|]. split; [done|]. split; [done|]. split; [done|].
  apply makeUniqueFileName_kept.
Qed.
(** ** From picked files to the queue *)

(** X23. Every candidate made from the picked files has the file of one of
    them and, as its relative path, the normalized [webkitRelativePath] of
    that file, or its name when it has none. The path is not empty and
    normalizing it again changes nothing; its last segment is a clean file
    name, so [enqueueUploads] never passes such a candidate over as
    nameless. *)
Theorem candidates_from_files (files : list PickedFile)
    (candidate : UploadCandidate) :
  In candidate (buildUploadCandidatesFromFiles files) ->
  (exists picked,
     In picked files
     /\ cand_file candidate = picked_file picked
     /\ trim (file_name (picked_file picked)) <> []
     /\ cand_relativePath candidate
        = normalizeUploadRelativePath
            (if nonEmpty (picked_webkitRelativePath picked)
             then picked_webkitRelativePath picked
             else file_name (picked_file picked)))
  /\ cand_relativePath candidate <> []
  /\ normalizeUploadRelativePath (cand_relativePath candidate)
     = cand_relativePath candidate
  /\ keptSegment
       (snd (splitUploadRelativePath
               (normalizeUploadRelativePath (cand_relativePath candidate))))
  /\ trim (snd (splitUploadRelativePath
                  (normalizeUploadRelativePath (cand_relativePath candidate))))
     <> [].
Proof.
  intros Hin.
  assert (Hpicked : exists picked,
            In picked files
            /\ cand_file candidate = picked_file picked
            /\ trim (file_name (picked_file picked)) <> []
            /\ cand_relativePath candidate
               = normalizeUploadRelativePath
                   (if nonEmpty (picked_webkitRelativePath picked)
                    then picked_webkitRelativePath picked
                    else file_name (picked_file picked))
            /\ cand_relativePath candidate <> []).
  { induction files as [|picked rest IH]; [done|].
    cbn [buildUploadCandidatesFromFiles] in Hin. cbv zeta in Hin.
    assert (Hrest : In candidate (buildUploadCandidatesFromFiles rest) ->
              exists picked',
                In picked' (picked :: rest)
                /\ cand_file candidate = picked_file picked'
                /\ trim (file_name (picked_file picked')) <> []
                /\ cand_relativePath candidate
                   = normalizeUploadRelativePath
                       (if nonEmpty (picked_webkitRelativePath picked')
                        then picked_webkitRelativePath picked'
                        else file_name (picked_file picked'))
                /\ cand_relativePath candidate <> []).
    { intros Hr. destruct (IH Hr) as (picked' & Hp & Hrest).
      exists picked'. split; [by right|done]. }
    destruct (bool_decide (trim (file_name (picked_file picked)) = []))
      eqn:Ename; [by apply Hrest|].
    apply bool_decide_eq_false in Ename.
    destruct (nonEmpty (normalizeUploadRelativePath _)) eqn:Epath;
      cbn [negb] in Hin; [|by apply Hrest].
    destruct Hin as [<-|Hin]; [|by apply Hrest].
    exists picked. cbn [cand_file cand_relativePath].
    split; [by left|]. split; [done|]. split; [done|]. split; [done|].
    intros Hnil. by rewrite Hnil in Epath. }
  destruct Hpicked as (picked & Hp & Hfile & Hname & Hpath & Hne).
  assert (Hfixed : normalizeUploadRelativePath (cand_relativePath candidate)
                   = cand_relativePath candidate).
  { rewrite Hpath. apply normalizeUploadRelativePath_idempotent. }
  assert (Hkept : keptSegment
                    (snd (splitUploadRelativePath
                            (normalizeUploadRelativePath
                               (cand_relativePath candidate))))).
  { apply splitUploadRelativePath_named. by rewrite !Hfixed. }
  split; [by exists picked|]. split; [done|]. split; [done|].
  split; [done|]. rewrite (keptSegment_trim _ Hkept). apply Hkept.
Qed.

(** A file whose name is blank and a file picked with its directory. *)
Definition pickedAlbum : list PickedFile :=
  [ {| picked_file := {| file_name := lit " "; file_size := 1;
                         file_lastModified := 0 |};
       picked_webkitRelativePath := [] |};
    {| picked_file := {| file_name := lit "a.txt"; file_size := 2;
                         file_lastModified := 0 |};
       picked_webkitRelativePath := lit "album/./a.txt" |} ].

Lemma candidates_from_files_witness :
  exists candidate,
    buildUploadCandidatesFromFiles pickedAlbum = [candidate]
    /\ cand_relativePath candidate = lit "album/a.txt"
    /\ cand_relativePath candidate <> [].
Proof.
  eexists. split; [reflexivity|]. split; [reflexivity|].
  refine (proj1 (proj2 (candidates_from_files pickedAlbum _ _))).
  left. reflexivity.
Defined.

(** *** Duplicates *)

Lemma dedupeFrom_spec (seen : gset jsstring)
    (candidates : list UploadCandidate) :
  dedupeFrom seen candidates `sublist_of` candidates
  /\ NoDup (map candidateKey (dedupeFrom seen candidates))
  /\ (forall candidate,
        In candidate (dedupeFrom seen candidates) ->
        candidateKey candidate ∉ seen)
  /\ (forall candidate,
        In candidate candidates ->
        candidateKey candidate ∈ seen
        \/ In (candidateKey candidate)
             (map candidateKey (dedupeFrom seen candidates))).
Proof.
  revert seen.
  induction candidates as [|c rest IH]; intros seen; cbn [dedupeFrom].
  - split; [done|]. split; [constructor|]. split; [done|done].
  - cbv zeta. destruct (bool_decide (candidateKey c ∈ seen)) eqn:Eseen.
    + apply bool_decide_eq_true in Eseen.
      destruct (IH seen) as (Hsub & Hnodup & Hfresh & Hall).
      split; [by constructor|]. split; [done|]. split; [done|].
      intros c' [<-|Hin]; [by left|by apply Hall].
    + apply bool_decide_eq_false in Eseen.
      destruct (IH ({[candidateKey c]} ∪ seen))
        as (Hsub & Hnodup & Hfresh & Hall).
      split; [by constructor|]. split; [|split].
      * cbn [map]. apply NoDup_cons. split; [|done].
        rewrite list_elem_of_In, in_map_iff. intros (c' & Hkey & Hin).
        apply (Hfresh c' Hin). rewrite Hkey. set_solver.
      * intros c' [<-|Hin]; [done|].
        specialize (Hfresh c' Hin). set_solver.
      * intros c' [<-|Hin]; [right; by left|].
        destruct (Hall c' Hin) as [Hseen|Hkept]; [|right; by right].
        apply elem_of_union in Hseen as [Hkey|Hseen]; [|by left].
        apply elem_of_singleton in Hkey. right. left. done.
Qed.

Lemma dedupeFrom_fixed (seen : gset jsstring)
    (candidates : list UploadCandidate) :
  NoDup (map candidateKey candidates) ->
  (forall candidate, In candidate candidates -> candidateKey candidate ∉ seen) ->
  dedupeFrom seen candidates = candidates.
Proof.
  revert seen.
  induction candidates as [|c rest IH]; intros seen Hnodup Hfresh; [done|].
  cbn [dedupeFrom map] in *. cbv zeta.
  apply NoDup_cons in Hnodup as [Hc Hnodup].
  rewrite bool_decide_eq_false_2 by (apply Hfresh; by left).
  f_equal. apply IH; [done|]. intros c' Hin.
  rewrite not_elem_of_union, elem_of_singleton. split.
  - intros Hkey. apply Hc. rewrite <- Hkey.
    apply list_elem_of_In, in_map. done.
  - apply Hfresh. by right.
Qed.

(** X24. [dedupeUploadCandidates] keeps the candidates in their order and
    drops some; no two of those it keeps have the same key (relative path,
    size and modification time); every key of the input is the key of a
    candidate kept; and running it on its own result changes nothing. *)
Theorem dedupeUploadCandidates_spec (candidates : list UploadCandidate) :
  dedupeUploadCandidates candidates `sublist_of` candidates
  /\ NoDup (map candidateKey (dedupeUploadCandidates candidates))
  /\ (forall candidate,
        In candidate candidates ->
        In (candidateKey candidate)
          (map candidateKey (dedupeUploadCandidates candidates)))
  /\ dedupeUploadCandidates (dedupeUploadCandidates candidates)
     = dedupeUploadCandidates candidates.
Proof.
  unfold dedupeUploadCandidates.
  destruct (dedupeFrom_spec ∅ candidates) as (Hsub & Hnodup & Hfresh & Hall).
  split; [done|]. split; [done|]. split.
  - intros c Hin. destruct (Hall c Hin) as [Hseen|Hkept]; [set_solver|done].
  - apply dedupeFrom_fixed; [done|]. intros c _. set_solver.
Qed.

(** *** Conflicts with the files of the listing *)

(** The candidate is a file of the destination itself, not of a directory
    below it, and its name is [name]. *)
Definition namedAtRoot (candidate : UploadCandidate) (name : jsstring) : Prop :=
  splitUploadRelativePath (cand_relativePath candidate) = ([], name)
  /\ name <> [].

Lemma existsb_conflict (found : list UploadConflictItem) (name : jsstring) :
  existsb (fun item => bool_decide (conflict_name item = name)) found = true
  <-> In name (map conflict_name found).
Proof.
  rewrite existsb_exists, in_map_iff. split.
  - intros (item & Hin & Hname). apply bool_decide_eq_true in Hname.
    by exists item.
  - intros (item & Hname & Hin). exists item. split; [done|].
    by apply bool_decide_eq_true.
Qed.

Lemma conflictsFrom_spec (existing : gset jsstring)
    (candidates : list UploadCandidate) (found : list UploadConflictItem) :
  (NoDup (map conflict_name found) ->
   NoDup (map conflict_name (conflictsFrom existing found candidates)))
  /\ (forall name,
        In name (map conflict_name (conflictsFrom existing found candidates))
        <-> In name (map conflict_name found)
            \/ (name ∈ existing
                /\ exists candidate,
                     In candidate candidates /\ namedAtRoot candidate name)).
Proof.
  revert found.
  induction candidates as [|c rest IH]; intros found; cbn [conflictsFrom].
  - split; [done|]. intros name. split; [by left|].
    intros [Hin|(_ & c & [] & _)]. done.
  - destruct (splitUploadRelativePath (cand_relativePath c))
      as [directory fileName] eqn:Esplit.
    assert (Hskip :
      (forall name, ~ (name ∈ existing /\ namedAtRoot c name)) ->
      (NoDup (map conflict_name found) ->
       NoDup (map conflict_name (conflictsFrom existing found rest)))
      /\ (forall name,
            In name (map conflict_name (conflictsFrom existing found rest))
            <-> In name (map conflict_name found)
                \/ (name ∈ existing
                    /\ exists candidate,
                         In candidate (c :: rest)
                         /\ namedAtRoot candidate name))).
    { intros Hnot. destruct (IH found) as [Hnodup Hnames].
      split; [done|]. intros name. rewrite Hnames. split.
      - intros [Hin|(Hex & c' & Hin & Hnamed)]; [by left|].
        right. split; [done|]. exists c'. split; [by right|done].
      - intros [Hin|(Hex & c' & [<-|Hin] & Hnamed)]; [by left| |].
        + by destruct (Hnot name).
        + right. split; [done|]. by exists c'. }
    destruct (nonEmpty directory) eqn:Edir; cbn [orb].
    { apply Hskip. intros name (_ & Hnamed & _).
      rewrite Esplit in Hnamed. injection Hnamed as -> _. done. }
    destruct (nonEmpty fileName) eqn:Efile; cbn [negb orb].
    2:{ apply Hskip. intros name (_ & Hnamed & Hne).
        rewrite Esplit in Hnamed. injection Hnamed as _ ->.
        by destruct name. }
    destruct (bool_decide (fileName ∈ existing)) eqn:Eex; cbn [negb].
    2:{ apply bool_decide_eq_false in Eex.
        apply Hskip. intros name (Hex & Hnamed & _).
        rewrite Esplit in Hnamed. injection Hnamed as _ ->. done. }
    apply bool_decide_eq_true in Eex.
    assert (Hroot : namedAtRoot c fileName).
    { split; [|by destruct fileName].
      rewrite Esplit. by destruct directory. }
    destruct (existsb _ found) eqn:Efound.
    + apply existsb_conflict in Efound.
      destruct (IH found) as [Hnodup Hnames].
      split; [done|]. intros name. rewrite Hnames. split.
      * intros [Hin|(Hex & c' & Hin & Hnamed)]; [by left|].
        right. split; [done|]. exists c'. split; [by right|done].
      * intros [Hin|(Hex & c' & [<-|Hin] & Hnamed)]; [by left| |].
        -- left. destruct Hroot as [Hr _], Hnamed as [Hn _].
           rewrite Hr in Hn. by injection Hn as <-.
        -- right. split; [done|]. by exists c'.
    + assert (Hnew : ~ In fileName (map conflict_name found)).
      { intros Hin. apply existsb_conflict in Hin. congruence. }
      destruct (IH (found ++ [{| conflict_name := fileName;
                                 conflict_size := file_size (cand_file c) |}]))
        as [Hnodup Hnames].
      split.
      * intros Hfound. apply Hnodup. rewrite map_app. cbn [map].
        apply NoDup_app. split; [done|]. split.
        -- intros name Hin Hone. apply list_elem_of_In in Hin.
           apply list_elem_of_singleton in Hone. by subst.
        -- apply NoDup_singleton.
      * intros name. rewrite Hnames, map_app, in_app_iff. cbn [map In].
        split.
        -- intros [[Hin|[<-|[]]]|(Hex & c' & Hin & Hnamed)].
           ++ by left.
           ++ right. split; [done|]. exists c. split; [by left|done].
           ++ right. split; [done|]. exists c'. split; [by right|done].
        -- intros [Hin|(Hex & c' & [<-|Hin] & Hnamed)].
           ++ left. by left.
           ++ left. right. left. destruct Hroot as [Hr _], Hnamed as [Hn _].
              rewrite Hr in Hn. by injection Hn.
           ++ right. split; [done|]. by exists c'.
Qed.

Lemma buildUploadConflicts_names (inventory : Inventory)
    (candidates : list UploadCandidate) (name : jsstring) :
  In name (map conflict_name (buildUploadConflicts inventory candidates))
  <-> In name (inventory_files inventory)
      /\ exists candidate,
           In candidate candidates /\ namedAtRoot candidate name.
Proof.
  unfold buildUploadConflicts.
  destruct (conflictsFrom_spec (list_to_set (inventory_files inventory))
              candidates []) as [_ Hnames].
  rewrite Hnames, elem_of_list_to_set, list_elem_of_In.
  cbn [map In]. tauto.
Qed.

(** X25. The conflicts [buildUploadConflicts] reports have different
    names, and a name is reported exactly when the listing has a file of
    that name and some candidate is a file of that name in the destination
    itself; candidates inside directories are never reported. *)
Theorem buildUploadConflicts_spec (inventory : Inventory)
    (candidates : list UploadCandidate) :
  NoDup (map conflict_name (buildUploadConflicts inventory candidates))
  /\ (forall name,
        In name (map conflict_name (buildUploadConflicts inventory candidates))
        <-> In name (inventory_files inventory)
            /\ exists candidate,
                 In candidate candidates /\ namedAtRoot candidate name)
  /\ (forall candidate directory fileName,
        In candidate candidates ->
        splitUploadRelativePath (cand_relativePath candidate)
        = (directory, fileName) ->
        directory <> [] ->
        In fileName
          (map conflict_name (buildUploadConflicts inventory candidates)) ->
        exists other,
          In other candidates /\ namedAtRoot other fileName).
Proof.
  split; [|split].
  - unfold buildUploadConflicts.
    destruct (conflictsFrom_spec (list_to_set (inventory_files inventory))
                candidates []) as [Hnodup _].
    apply Hnodup. constructor.
  - apply buildUploadConflicts_names.
  - intros c directory fileName _ _ _ Hin.
    by apply buildUploadConflicts_names in Hin as [_ Hother].
Qed.

(** X26. [queueFilesForUpload] calls [enqueueUploads] only when uploads
    are enabled; it passes the candidates whose file name and relative
    path are not blank, in their order, the strategy [skip] and the
    normalized current path; and then no candidate that is a file of the
    destination itself has the name of a file of the listing. When it
    opens the conflict dialog there is at least one conflict. *)
Theorem queueFilesForUpload_spec (forgeUploadsEnabled : bool)
    (inventory : Inventory) (candidates : list UploadCandidate) :
  (forall valid strategy destinationPath,
     queueFilesForUpload forgeUploadsEnabled inventory candidates
     = EnqueueUploads valid strategy destinationPath ->
     forgeUploadsEnabled = true
     /\ strategy = skip
     /\ destinationPath
        = normalizeInventoryPath (inventory_currentPath inventory)
     /\ valid <> []
     /\ (forall candidate,
           In candidate valid
           <-> In candidate candidates
               /\ trim (file_name (cand_file candidate)) <> []
               /\ trim (cand_relativePath candidate) <> [])
     /\ (forall candidate name,
           In candidate valid -> namedAtRoot candidate name ->
           ~ In name (inventory_files inventory)))
  /\ (forall conflicts valid destinationPath,
        queueFilesForUpload forgeUploadsEnabled inventory candidates
        = OpenUploadConflictDialog conflicts valid destinationPath ->
        conflicts = buildUploadConflicts inventory valid
        /\ conflicts <> []).
Proof.
  unfold queueFilesForUpload. cbv zeta.
  set (valid := List.filter _ candidates).
  destruct (length candidates =? 0)%nat; [done|].
  destruct forgeUploadsEnabled; cbn [negb]; [|done].
  destruct (length valid =? 0)%nat eqn:Evalid; [done|].
  destruct (0 <? length (buildUploadConflicts inventory valid))%nat eqn:Econf.
  - split; [done|]. intros ? ? ? [= <- <- <-]. split; [done|].
    intros Hnil. by rewrite Hnil in Econf.
  - split; [|done]. intros ? ? ? [= <- <- <-].
    split; [done|]. split; [done|]. split; [done|]. split; [|split].
    + intros Hnil. by rewrite Hnil in Evalid.
    + intros c. unfold valid. rewrite filter_In, andb_true_iff,
        !negb_true_iff, !bool_decide_eq_false. tauto.
    + intros c name Hin Hnamed Hex.
      destruct (buildUploadConflicts_names inventory valid name) as [_ Hfound].
      assert (Hreported : In name (map conflict_name
                                     (buildUploadConflicts inventory valid))).
      { apply Hfound. split; [done|]. by exists c. }
      destruct (buildUploadConflicts inventory valid); [done|discriminate].
Qed.

Definition newText : UploadCandidate :=
  {| cand_file := {| file_name := lit "new.txt"; file_size := 3;
                     file_lastModified := 0 |};
     cand_relativePath := lit "new.txt" |}.

Lemma queueFilesForUpload_spec_witness :
  queueFilesForUpload true Example.inventory [newText]
  = EnqueueUploads [newText] skip (lit "/")
  /\ ~ In (lit "new.txt") (inventory_files Example.inventory).
Proof.
  assert (Hq : queueFilesForUpload true Example.inventory [newText]
               = EnqueueUploads [newText] skip (lit "/"))
    by (vm_compute; reflexivity).
  split; [exact Hq|].
  destruct (proj1 (queueFilesForUpload_spec true Example.inventory [newText])
              _ _ _ Hq) as (_ & _ & _ & _ & _ & Hfree).
  apply (Hfree newText (lit "new.txt")); [by left|].
  split; [vm_compute; reflexivity|discriminate].
Defined.
(** ** The batch that is never pushed *)

(** A candidate that a turn of the loop of [enqueueUploads] passes over
    whatever came before it: it has no file name, or the strategy is [skip]
    and it is a file of the destination itself whose name a file of the
    listing has. *)
Definition passedOver (inventory : Inventory) (strategy : ConflictStrategy)
    (candidate : UploadCandidate) : Prop :=
  let '(directory, fileName) :=
    splitUploadRelativePath
      (normalizeUploadRelativePath (cand_relativePath candidate)) in
  trim fileName = []
  \/ (strategy = skip /\ directory = []
      /\ In (trim fileName) (inventory_files inventory)).

(** The names reserved for [path], once there are any, include [names]. *)
Definition seeded (path : jsstring) (names : gset jsstring)
    (reserved : gmap jsstring (gset jsstring)) : Prop :=
  forall held, reserved !! path = Some held -> names ⊆ held.

Lemma getReservedNames_seeded `{Platform} (path other : jsstring)
    (names : gset jsstring) (reserved : gmap jsstring (gset jsstring)) :
  seeded path names reserved ->
  names ⊆ fst (getReservedNames {[path := names]} reserved path)
  /\ seeded path names (snd (getReservedNames {[path := names]} reserved other)).
Proof.
  intros Hseeded. unfold getReservedNames. split.
  - destruct (reserved !! path) as [held|] eqn:E; cbn [fst].
    + by apply Hseeded.
    + by rewrite lookup_singleton_eq.
  - destruct (reserved !! other) as [held|] eqn:E; cbn [snd]; [done|].
    intros held. destruct (decide (other = path)) as [->|Hne].
    + rewrite lookup_insert_eq, lookup_singleton_eq. by intros [= <-].
    + rewrite lookup_insert_ne by done. apply Hseeded.
Qed.

Section Batches.
Context `{Platform}.
Variables (inventory : Inventory) (createTransferId : nat -> jsstring)
  (strategy : ConflictStrategy) (destination : jsstring) (total : nat).

Let existing : gmap jsstring (gset jsstring) :=
  {[ destination := list_to_set (inventory_files inventory) ]}.

Lemma enqueueStep_seeded (st : EnqueueState) (index : nat)
    (candidate : UploadCandidate) :
  seeded destination (list_to_set (inventory_files inventory))
    (reservedNamesByDestination st) ->
  seeded destination (list_to_set (inventory_files inventory))
    (reservedNamesByDestination
       (enqueueStep inventory createTransferId strategy destination existing
          total st index candidate)).
Proof.
  intros Hseeded.
  destruct (enqueueStep_cases inventory createTransferId strategy destination
              existing total st index candidate)
    as [-> | [(path & _ & ->) | (item & names' & Hstep)]]; [done| |].
  - by apply getReservedNames_seeded.
  - cbv zeta in Hstep. destruct Hstep as (_ & -> & _ & Hsub & _).
    destruct (getReservedNames_seeded destination (item_destinationPath item)
                _ _ Hseeded) as [Hat Hother].
    intros held.
    destruct (decide (item_destinationPath item = destination)) as [Heq|Hne].
    + rewrite Heq in *. rewrite lookup_insert_eq. intros [= <-].
      etrans; [exact Hat|exact Hsub].
    + rewrite lookup_insert_ne by done. apply Hother.
Qed.

(** A turn that is not at a batch boundary pushes nothing. *)
Lemma enqueueStep_between (st : EnqueueState) (index : nat)
    (candidate : UploadCandidate) :
  (index + 1 < total)%nat -> (total <= UPLOAD_ENQUEUE_BATCH_SIZE)%nat ->
  pushed (enqueueStep inventory createTransferId strategy destination existing
            total st index candidate)
  = pushed st.
Proof.
  intros Hlt Hle. unfold enqueueStep. cbv zeta.
  destruct (splitUploadRelativePath _) as [directory fileName].
  destruct (negb _); [done|].
  destruct (getReservedNames _ _ _) as [names reserved].
  destruct (_ && _); [done|].
  destruct (resolveTarget _ _ _ _ _ _) as [[targetName replaceExisting] names'].
  cbn [pushed].
  assert (Hmod : ((index + 1) mod UPLOAD_ENQUEUE_BATCH_SIZE =? 0)%nat = false).
  { apply Nat.eqb_neq. rewrite Nat.mod_small by lia. lia. }
  assert (Hlast : (index + 1 =? total)%nat = false)
    by (apply Nat.eqb_neq; lia).
  by rewrite Hmod, Hlast.
Qed.

Lemma enqueueStep_passedOver (st : EnqueueState) (index : nat)
    (candidate : UploadCandidate) :
  seeded destination (list_to_set (inventory_files inventory))
    (reservedNamesByDestination st) ->
  passedOver inventory strategy candidate ->
  pushed (enqueueStep inventory createTransferId strategy destination existing
            total st index candidate)
  = pushed st.
Proof.
  intros Hseeded. unfold passedOver, enqueueStep. cbv zeta.
  destruct (splitUploadRelativePath _) as [directory fileName].
  intros [Hblank|(-> & -> & Hin)].
  - by rewrite Hblank.
  - destruct (nonEmpty (trim fileName)); cbn [negb nonEmpty]; [|done].
    destruct (getReservedNames_seeded destination destination _ _ Hseeded)
      as [Hat _].
    fold existing in Hat.
    destruct (getReservedNames existing (reservedNamesByDestination st)
                destination) as [names reserved].
    cbn [fst] in Hat.
    rewrite (bool_decide_eq_true_2 (trim fileName ∈ names)).
    + by rewrite bool_decide_eq_true_2.
    + apply Hat, elem_of_list_to_set, list_elem_of_In, Hin.
Qed.

Lemma enqueueLoop_between (candidates : list UploadCandidate)
    (st : EnqueueState) (index : nat) :
  (index + length candidates < total)%nat ->
  (total <= UPLOAD_ENQUEUE_BATCH_SIZE)%nat ->
  seeded destination (list_to_set (inventory_files inventory))
    (reservedNamesByDestination st) ->
  pushed (enqueueLoop inventory createTransferId strategy destination existing
            total st index candidates)
  = pushed st
  /\ seeded destination (list_to_set (inventory_files inventory))
       (reservedNamesByDestination
          (enqueueLoop inventory createTransferId strategy destination
             existing total st index candidates)).
Proof.
  revert st index.
  induction candidates as [|c rest IH]; intros st index Hlt Hle Hseeded;
    cbn [enqueueLoop]; [done|].
  cbn [length] in Hlt.
  destruct (IH (enqueueStep inventory createTransferId strategy destination
                  existing total st index c) (S index))
    as [Hpushed Hkept]; [lia|done|by apply enqueueStep_seeded|].
  split; [|done]. rewrite Hpushed. apply enqueueStep_between; [lia|done].
Qed.

Lemma enqueueLoop_app (before after : list UploadCandidate)
    (st : EnqueueState) (index : nat) :
  enqueueLoop inventory createTransferId strategy destination existing total
    st index (before ++ after)
  = enqueueLoop inventory createTransferId strategy destination existing total
      (enqueueLoop inventory createTransferId strategy destination existing
         total st index before)
      (index + length before) after.
Proof.
  revert st index.
  induction before as [|c rest IH]; intros st index; cbn [app enqueueLoop length].
  - by rewrite Nat.add_0_r.
  - rewrite IH. by rewrite Nat.add_succ_r.
Qed.

End Batches.

(** X27. The loop of [enqueueUploads] pushes the items it has made only in
    a turn that makes one. So when the last candidate of a call of fewer
    than 120 is passed over, having no name, or, under [skip], the name of
    a file of the listing, the call pushes nothing at all, whatever the
    candidates before it were. *)
Theorem last_candidate_passed_over `{Platform} (inventory : Inventory)
    (createTransferId : nat -> jsstring) (before : list UploadCandidate)
    (last : UploadCandidate) (strategy : ConflictStrategy)
    (destinationPath : jsstring) :
  (length before < UPLOAD_ENQUEUE_BATCH_SIZE)%nat ->
  passedOver inventory strategy last ->
  enqueueUploads true inventory createTransferId (before ++ [last]) strategy
    destinationPath
  = [].
Proof.
  intros Hlen Hlast. unfold enqueueUploads. cbn [negb]. cbv zeta.
  rewrite enqueueLoop_app. cbn [enqueueLoop].
  match goal with
  | |- context [enqueueLoop ?i ?c ?s ?d ?e ?t ?st 0%nat before] =>
      destruct (enqueueLoop_between i c s d t before st 0%nat)
        as [Hpushed Hseeded]
  end.
  - rewrite length_app. cbn [length]. lia.
  - rewrite length_app. cbn [length]. lia.
  - intros held. cbn [reservedNamesByDestination]. by rewrite lookup_empty.
  - rewrite enqueueStep_passedOver by done. exact Hpushed.
Qed.

Lemma last_candidate_passed_over_witness :
  enqueueUploads true Example.inventory decimal [newText; Example.photo] skip
    (lit "/")
  = []
  /\ enqueueUploads true Example.inventory decimal [newText] skip (lit "/")
     <> [].
Proof.
  split.
  - apply (last_candidate_passed_over Example.inventory decimal [newText]
             Example.photo skip (lit "/")).
    + unfold UPLOAD_ENQUEUE_BATCH_SIZE. cbn [length]. lia.
    + right. split; [done|]. split; [done|]. left. reflexivity.
  - evaluate (enqueueUploads true Example.inventory decimal [newText] skip
                (lit "/")).
    discriminate.
Defined.
(** ** The upload that never ends *)

Section Rejection.
Context `{Platform}.
Variable limit : Z.

Lemma tasks_pruned (s : QueueState) :
  tasks (pruneFinishedTransferHistory s) = tasks s.
Proof.
  unfold pruneFinishedTransferHistory. cbv zeta. by destruct (_ =? _)%nat.
Qed.

Lemma rejected_drainQueue (r : nat) (queue : list nat) (s : QueueState) :
  queueInvariant limit s -> tasks s !! r = Some Rejected ->
  tasks (drainQueue limit queue s) !! r = Some Rejected.
Proof.
  revert s. induction queue as [|next rest IH]; intros s Hinv Hr;
    cbn [drainQueue]; [done|].
  destruct (activeUploads s <? limit)%Z eqn:Elt; [|done].
  apply Z.ltb_lt in Elt.
  destruct (statusOf s next) as [[]|] eqn:E; try by apply IH.
  apply IH; [by apply invariant_startUpload|].
  cbn [tasks startUpload setTask mutate setActiveUploads].
  rewrite lookup_insert_ne; [done|]. intros ->.
  apply statusOf_Some in E as (item & Hitem & Hq).
  destruct (inv_task _ _ Hinv r Rejected Hr) as (held & Hheld & Hup).
  cbn in Hup. congruence.
Qed.

Lemma rejected_finishUpload (r r' : nat) (s s0 : QueueState) :
  queueInvariant limit s ->
  is_Some (tasks s !! r') ->
  heap s0 = heap s \/ (exists f, heap s0 = alter f r' (heap s)) ->
  tasks s0 = tasks s ->
  activeUploads s0 = activeUploads s ->
  (forall item, heap s0 !! r' = Some item -> item_status item <> uploading) ->
  r <> r' -> tasks s !! r = Some Rejected ->
  tasks (finishUpload limit r' s0) !! r = Some Rejected.
Proof.
  intros Hinv Hsome Hheap Htasks Hact Hst Hne Hr.
  unfold finishUpload. cbv zeta.
  match goal with
  | |- tasks (if _ then setNeedsInventoryRefresh false ?s' else ?s') !! _ = _ =>
      assert (Hs' : tasks s' !! r = Some Rejected)
  end.
  { rewrite tasks_pruned. apply rejected_drainQueue.
    - apply (invariant_at limit r' s); try done.
      + intros r'' Hne'. cbn [heap setActiveUploads setTask mutate].
        rewrite list_lookup_alter_ne by done.
        destruct Hheap as [->|(f & ->)]; [done|].
        by rewrite list_lookup_alter_ne.
      + intros r'' Hne'. cbn [tasks setActiveUploads setTask mutate].
        rewrite Htasks. by rewrite lookup_delete_ne.
      + cbn [activeUploads tasks setActiveUploads setTask mutate].
        rewrite Htasks, Hact, map_size_delete_Some by done.
        rewrite (inv_active _ _ Hinv). lia.
      + cbn [activeUploads tasks setActiveUploads setTask mutate].
        rewrite Hact. pose proof (inv_limit _ _ Hinv). lia.
      + cbn [heap tasks setActiveUploads setTask mutate].
        rewrite lookup_delete_eq, list_lookup_alter_eq.
        destruct (heap s0 !! r') as [item|] eqn:Er; cbn; [|done].
        by apply Hst.
    - cbn [tasks setActiveUploads setTask mutate].
      rewrite Htasks. by rewrite lookup_delete_ne. }
  by destruct (_ && _).
Qed.

Lemma rejected_settled (r r' : nat) (message : jsstring) (s : QueueState) :
  queueInvariant limit s ->
  is_Some (tasks s !! r') -> r <> r' -> tasks s !! r = Some Rejected ->
  tasks (finishUpload limit r' (mutate r' (markFailed message) s)) !! r
  = Some Rejected.
Proof.
  intros Hinv Hsome Hne Hr.
  apply (rejected_finishUpload r r' s); try done.
  - right. by eexists.
  - cbn [heap mutate]. rewrite list_lookup_alter_eq.
    intros item. destruct (heap s !! r'); cbn; [|done]. by intros [= <-].
Qed.

Lemma rejected_beginTransport (r r' : nat) (item : TransferItem)
    (s : QueueState) :
  r <> r' -> tasks s !! r = Some Rejected ->
  tasks (beginTransport r' item s) !! r = Some Rejected.
Proof.
  intros Hne Hr. unfold beginTransport.
  destruct (newURL _); cbn [tasks setTask mutate];
    by rewrite lookup_insert_ne.
Qed.

Lemma rejected_step (r : nat) (s : QueueState) (event : Event) :
  queueInvariant limit s -> wellFormed event ->
  tasks s !! r = Some Rejected ->
  tasks (step limit s event) !! r = Some Rejected.
Proof.
  intros Hinv Hwf Hr.
  assert (Hother : forall r' task,
            tasks s !! r' = Some task -> task <> Rejected -> r <> r').
  { intros r' task Ht Hne ->. congruence. }
  destruct event as [batch| |r' result|r' result|r' computable loaded progress
                     |r' status|r'|r' result|r'|itemId|itemId|];
    cbn [step]; cbv zeta.
  - rewrite tasks_pruned. apply rejected_drainQueue; [|done].
    by apply invariant_pushed.
  - by apply rejected_drainQueue.
  - destruct (tasks s !! r') as [[]|] eqn:Et; try done.
    assert (r <> r') by (by eapply Hother).
    destruct (heap s !! r') as [item|]; try done.
    destruct (negb _); [by apply rejected_settled|].
    destruct (item_replaceExisting item);
      [|by apply rejected_beginTransport].
    cbn [tasks setTask]. by rewrite lookup_insert_ne.
  - destruct (tasks s !! r') as [[]|] eqn:Et; try done.
    assert (r <> r') by (by eapply Hother).
    destruct (heap s !! r') as [item|]; try done.
    destruct (negb _ && _); [by apply rejected_settled|].
    by apply rejected_beginTransport.
  - destruct (tasks s !! r') as [[]|] eqn:Et; try done.
    by destruct computable.
  - destruct (tasks s !! r') as [[]|] eqn:Et; try done.
    assert (r <> r') by (by eapply Hother).
    destruct (heap s !! r') as [item|]; try done.
    destruct (_ && _); [|by apply rejected_settled].
    unfold finalizeUploadedItem. cbv zeta.
    destruct (getParentInventoryPath _);
      [destruct (_ && _)|]; cbn [tasks setTask mutate];
      by rewrite lookup_insert_ne.
  - destruct (tasks s !! r') as [[]|] eqn:Et; try done.
    assert (r <> r') by (by eapply Hother).
    by apply rejected_settled.
  - destruct (tasks s !! r') as [[]|] eqn:Et; try done.
    assert (r <> r') by (by eapply Hother).
    destruct (negb _); cbn [tasks setTask mutate];
      by rewrite lookup_insert_ne.
  - destruct (tasks s !! r') as [[]|] eqn:Et; try done.
    assert (r <> r') by (by eapply Hother).
    destruct (inv_task _ _ Hinv r' _ Et) as (held & Hheld & Hst).
    apply (rejected_finishUpload r r' s); try done.
    + by left.
    + cbn [heap setNeedsInventoryRefresh]. intros item Hitem.
      assert (item = held) as -> by congruence.
      by destruct Hst as [-> | ->].
  - unfold cancelTransfer.
    destruct (List.find _ _) as [r'|]; [|done].
    destruct (heap s !! r') as [item|]; [|done].
    destruct (item_status item); try done.
    destruct (item_xhr item); [|done].
    destruct (tasks s !! r') as [[]|] eqn:Et; try done.
    assert (r <> r') by (by eapply Hother).
    by apply rejected_settled.
  - done.
  - done.
Qed.

Lemma rejected_steps (r : nat) (events : list Event) (s : QueueState) :
  queueInvariant limit s -> List.Forall wellFormed events ->
  tasks s !! r = Some Rejected ->
  tasks (fold_left (step limit) events s) !! r = Some Rejected.
Proof.
  revert s. induction events as [|event events IH]; intros s Hinv Hwf Hr;
    cbn [fold_left]; [done|].
  apply List.Forall_cons_iff in Hwf as [Hevent Hwf].
  apply IH; [by apply step_sound|done|by apply rejected_step].
Qed.

End Rejection.

(** X28. An upload whose URL does not parse never ends: once [startUpload]
    has been rejected for an item, whatever events follow, the item stays
    [uploading] with its work counted in [activeUploads], so its slot is
    never given to another upload. *)
Theorem rejected_upload_keeps_slot `{Platform} (limit : Z)
    (before after : list Event) (r : nat) :
  List.Forall wellFormed before -> List.Forall wellFormed after ->
  tasks (run limit before) !! r = Some Rejected ->
  tasks (run limit (before ++ after)) !! r = Some Rejected
  /\ (exists item,
        heap (run limit (before ++ after)) !! r = Some item
        /\ item_status item = uploading)
  /\ (1 <= activeUploads (run limit (before ++ after)))%Z.
Proof.
  intros Hbefore Hafter Hr.
  assert (Hinv : queueInvariant limit (run limit (before ++ after))).
  { apply run_invariant, List.Forall_app. by split. }
  assert (Hkept : tasks (run limit (before ++ after)) !! r = Some Rejected).
  { unfold run. rewrite fold_left_app.
    apply rejected_steps; [by apply run_invariant|done|done]. }
  split; [done|]. split.
  - destruct (inv_task _ _ Hinv r Rejected Hkept) as (item & Hitem & Hup).
    by exists item.
  - rewrite (inv_active _ _ Hinv).
    assert (size (tasks (run limit (before ++ after))) <> 0)%nat; [|lia].
    intros Hzero. apply map_size_empty_inv in Hzero.
    rewrite Hzero in Hkept. by rewrite lookup_empty in Hkept.
Qed.

(** One upload whose URL is not a URL, started, its destination ensured. *)
Definition strayUpload : list Event :=
  [ PushBatch
      [ {| item_id := lit "stray"; item_file := cand_file Example.photo;
           item_sourceName := lit "photo.png";
           item_targetName := lit "photo.png";
           item_targetPath := lit "/photo.png";
           item_destinationPath := lit "/";
           item_uploadUrl := lit "files/";
           item_name := lit "photo.png"; item_size := 10; item_loaded := 0;
           item_progress := 0; item_status := queued;
           item_replaceExisting := false; item_error := None;
           item_xhr := false |} ];
    EnsureSettled 0 {| action_ok := true; action_error := None |} ].

Lemma rejected_upload_keeps_slot_witness :
  tasks (run 3 strayUpload) !! 0%nat = Some Rejected
  /\ tasks (run 3 (strayUpload ++ [CancelTransfer (lit "stray"); XhrError 0]))
       !! 0%nat
     = Some Rejected.
Proof.
  assert (Hr : tasks (run 3 strayUpload) !! 0%nat = Some Rejected).
  { evaluate (tasks (run 3 strayUpload) !! 0%nat). reflexivity. }
  split; [exact Hr|].
  apply (rejected_upload_keeps_slot 3 strayUpload
           [CancelTransfer (lit "stray"); XhrError 0] 0).
  - repeat constructor.
  - repeat constructor.
  - exact Hr.
Defined.
(** ** The request of the listing *)



(** ** The order uploads start in *)

(** X30. [processUploadQueue] takes entries from the head of the queue
    only: what it leaves is a suffix of the queue, every item it starts
    was [queued] and ahead of that suffix, every [queued] item ahead of
    the suffix is started, with nothing loaded and no error, and every
    other item is as it was. It stops when the queue is empty or
    [activeUploads] has reached the limit, and [activeUploads] never goes
    down. *)
Theorem processUploadQueue_fifo `{Platform} (limit : Z) (s : QueueState) :
  exists taken,
    uploadQueue s = taken ++ uploadQueue (processUploadQueue limit s)
    /\ (forall r item,
          heap s !! r = Some item ->
          (In r taken -> item_status item = queued ->
           heap (processUploadQueue limit s) !! r = Some (markStarted item))
          /\ (~ (In r taken /\ item_status item = queued) ->
              heap (processUploadQueue limit s) !! r = Some item))
    /\ (uploadQueue (processUploadQueue limit s) = []
        \/ (limit <= activeUploads (processUploadQueue limit s))%Z)
    /\ (activeUploads s <= activeUploads (processUploadQueue limit s))%Z
    /\ length (heap (processUploadQueue limit s)) = length (heap s).
Proof.
  unfold processUploadQueue. generalize (uploadQueue s) as queue.
  intros queue. revert s.
  induction queue as [|next rest IH]; intros s; cbn [drainQueue].
  - exists []. cbn. split; [done|]. split; [|split; [by left|split; [lia|done]]].
    intros r item Hr. split; [by intros []|done].
  - destruct (activeUploads s <? limit)%Z eqn:Elt.
    2:{ exists []. cbn. apply Z.ltb_ge in Elt.
        split; [done|]. split; [|split; [by right|split; [lia|done]]].
        intros r item Hr. split; [by intros []|done]. }
    destruct (statusOf s next) as [status|] eqn:Enext.
    + apply statusOf_Some in Enext as (held & Hheld & Hstatus).
      destruct (decide (status = queued)) as [->|Hother].
      * destruct (IH (startUpload next s))
          as (taken & Hqueue & Hitems & Hstop & Hactive & Hlen).
        exists (next :: taken). cbn [app]. split; [by rewrite <- Hqueue|].
        split; [|split; [done|split]].
        -- intros r item Hr. destruct (decide (r = next)) as [->|Hne].
           ++ assert (item = held) as -> by congruence.
              assert (Hstarted : heap (startUpload next s) !! next
                                 = Some (markStarted held)).
              { cbn [heap startUpload setTask mutate setActiveUploads].
                by rewrite list_lookup_alter_eq, Hheld. }
              destruct (Hitems next _ Hstarted) as [_ Hkept].
              split; [intros _ _|intros Hnot; destruct Hnot; split;
                                 [by left|done]].
              apply Hkept. by intros [_ ?].
           ++ assert (Hsame : heap (startUpload next s) !! r = Some item).
              { cbn [heap startUpload setTask mutate setActiveUploads].
                by rewrite list_lookup_alter_ne. }
              destruct (Hitems r item Hsame) as [Hstart Hkept].
              split.
              ** intros [?|Hin] Hq; [congruence|by apply Hstart].
              ** intros Hnot. apply Hkept. intros [Hin Hq].
                 apply Hnot. split; [by right|done].
        -- cbn [activeUploads startUpload setTask mutate setActiveUploads]
             in Hactive. lia.
        -- rewrite Hlen.
           cbn [heap startUpload setTask mutate setActiveUploads].
           apply length_alter.
      * assert (Hgoal : match status with
                        | queued => drainQueue limit rest (startUpload next s)
                        | _ => drainQueue limit rest s
                        end = drainQueue limit rest s)
          by (by destruct status).
        rewrite Hgoal.
        destruct (IH s) as (taken & Hqueue & Hitems & Hstop & Hactive & Hlen).
        exists (next :: taken). cbn [app]. split; [by rewrite <- Hqueue|].
        split; [|done].
        intros r item Hr. destruct (Hitems r item Hr) as [Hstart Hkept].
        split.
        -- intros [<-|Hin] Hq; [|by apply Hstart].
           assert (item = held) as -> by congruence. congruence.
        -- intros Hnot. apply Hkept. intros [Hin Hq].
           apply Hnot. split; [by right|done].
    + destruct (IH s) as (taken & Hqueue & Hitems & Hstop & Hactive & Hlen).
      exists (next :: taken). cbn [app]. split; [by rewrite <- Hqueue|].
      split; [|done].
      intros r item Hr. destruct (Hitems r item Hr) as [Hstart Hkept].
      split.
      * intros [<-|Hin] Hq; [|by apply Hstart].
        unfold statusOf in Enext. by rewrite Hr in Enext.
      * intros Hnot. apply Hkept. intros [Hin Hq].
        apply Hnot. split; [by right|done].
Qed.
